(** * p2p-media-loader-hlsjs: the chunk manager

    A shallow embedding of [lib/chunk-manager.ts] (classes [ChunkManager],
    [Playlist] and [Chunk]) and the properties of its playlist index, chunk
    locator, swarm resolver, play-sequence tracker, scheduler and completion
    correlator.

    Conventions of the embedding:
    - a JavaScript [string] is a [string], a [number] that can be negative
      (an index with the -1 sentinel, a priority, a retry count) is a [Z];
    - [undefined] is [None];
    - the [Map<string, Playlist>] is an association list kept in insertion
      order, which is the order [Map.prototype.values] iterates in;
    - the methods of [ChunkManager] run in a monad that threads the manager's
      fields, records what the method does to its collaborators (the loader,
      the timers, the console, the caller's callbacks) and propagates a
      thrown exception;
    - a callback of the caller is a function object known by its identity;
      invoking it is recorded, and what it does while it runs is a
      [Reaction]: the calls it makes back into the manager, and whether it
      returns or throws;
    - [Utils.isAbsoluteUrl] and the m3u8 parser are imported by the source
      and are parameters of the development (class [Env]);
    - [loadHlsPlaylist] awaits the network; what it does to the manager is
      to call [processHlsPlaylist] and, on failure, to delete the entry of
      the URL, and both are events of the host model; the method itself is
      embedded from the point where the awaited fetch settles. *)

From Stdlib Require Import String Ascii ZArith List Bool Lia DecimalString.
Import ListNotations.

Local Open Scope Z_scope.
Local Open Scope list_scope.

(** ** JavaScript values and string primitives *)

(** A value of type [any]: the payload of a loaded file, the detail of an
    error, or a message. *)
Inductive JsValue : Type :=
| JsString (s : string)
| JsBuffer (bytes : list Byte.byte).

(** A caller-supplied function object, known by its identity. *)
Definition Callback : Type := nat.

(** [s.lastIndexOf(c)] for a one-character needle: the scan keeps the position
    of the latest occurrence seen; -1 when there is none. *)
Fixpoint lastIndexOf_from (s : string) (c : ascii) (i : Z) (found : Z) : Z :=
  match s with
  | EmptyString => found
  | String a rest =>
      lastIndexOf_from rest c (i + 1) (if Ascii.eqb a c then i else found)
  end.

Definition lastIndexOf (s : string) (c : ascii) : Z :=
  lastIndexOf_from s c 0 (-1).

(** Truthiness of an optional string: [undefined] and the empty string are
    falsy. *)
Definition truthy (s : option string) : bool :=
  match s with
  | Some u => negb (String.eqb u "")
  | None => false
  end.

(** [String(i)] for an array index. *)
Definition toString (i : nat) : string :=
  NilZero.string_of_uint (Nat.to_uint i).

(** [array.indexOf(x)] on an array of strings, counting from [i]. *)
Fixpoint indexOf_from (l : list string) (x : string) (i : Z) : Z :=
  match l with
  | [] => -1
  | y :: rest => if String.eqb y x then i else indexOf_from rest x (i + 1)
  end.

Definition indexOf (l : list string) (x : string) : Z := indexOf_from l x 0.

(** [array.slice(start)] for a non-negative [start]. *)
Definition slice (l : list string) (start : Z) : list string :=
  skipn (Z.to_nat start) l.

(** What evaluating an expression gives: a value, or a thrown exception. *)
Inductive Outcome (A : Type) : Type :=
| Return (a : A)
| Throw (e : string).
Arguments Return {A} a.
Arguments Throw {A} e.

(** ** The parsed manifest *)

Module Manifest.

(** An entry of [manifest.segments] or of [manifest.playlists]. *)
Record item : Type := { uri : string }.

(** [playlists] is absent ([None]) on a media playlist. *)
Record t : Type := {
  segments : list item;
  playlists : option (list item)
}.

End Manifest.

(** The imported collaborators. *)
Class Env : Type := {
  isAbsoluteUrl : string -> bool;
  m3u8_parse : string -> Manifest.t
}.

(** ** class LoaderFile (p2p-media-loader-core) *)

Module LoaderFile.

Record t : Type := {
  url : string;
  priority : Z;
  data : JsValue
}.

Definition new (url : string) (priority : Z) : t :=
  {| url := url; priority := priority; data := JsBuffer [] |}.

End LoaderFile.

(** ** class Playlist *)

Module Playlist.

Record t : Type := {
  url : string;
  baseUrl : string;
  manifest : Manifest.t
}.

Definition new (url : string) (manifest : Manifest.t) : Outcome t :=
  let pos := lastIndexOf url "/"%char in
  if pos =? -1 then Throw "Unexpected playlist URL format"
  else Return {| url := url;
                 manifest := manifest;
                 baseUrl := substring 0 (Z.to_nat (pos + 1)) url |}.

Section Methods.
Context {E : Env}.

(** [None] stands for the TypeError of reading [.uri] off [undefined], when
    [index] is outside the array. *)
Definition getChunkAbsoluteUrl (this : t) (index : Z) : option string :=
  if index <? 0 then None
  else
    match nth_error (Manifest.segments (manifest this)) (Z.to_nat index) with
    | Some segment =>
        let uri := Manifest.uri segment in
        Some (if isAbsoluteUrl uri then uri else (baseUrl this ++ uri)%string)
    | None => None
    end.

(** The loop of [getChunkIndex], at counter [i] with [iterations] rounds left.
    The counter stays below [segments.length], where [getChunkAbsoluteUrl]
    does not throw ([getChunkAbsoluteUrl_in_range]). *)
Fixpoint getChunkIndex_loop (this : t) (url : string) (i : Z) (iterations : nat) : Z :=
  match iterations with
  | O => -1
  | S rest =>
      match getChunkAbsoluteUrl this i with
      | Some u =>
          if String.eqb url u then i else getChunkIndex_loop this url (i + 1) rest
      | None => getChunkIndex_loop this url (i + 1) rest
      end
  end.

Definition getChunkIndex (this : t) (url : string) : Z :=
  getChunkIndex_loop this url 0 (length (Manifest.segments (manifest this))).

Definition getChildPlaylistAbsoluteUrls (this : t) : list string :=
  match Manifest.playlists (manifest this) with
  | None => []
  | Some playlists =>
      map (fun playlist =>
             let url := Manifest.uri playlist in
             if isAbsoluteUrl url then url else (baseUrl this ++ url)%string)
          playlists
  end.

End Methods.

End Playlist.

(** ** class Chunk *)

Module Chunk.

Record t : Type := {
  url : string;
  onSuccess : option Callback;
  onError : option Callback
}.

Definition new (url : string) (onSuccess onError : option Callback) : t :=
  {| url := url; onSuccess := onSuccess; onError := onError |}.

End Chunk.

(** ** The [Map] holding the playlists *)

(** [map.set(k, v)]: an existing key keeps its place and takes the new value,
    a new key goes last. *)
Fixpoint Map_set {V : Type} (m : list (string * V)) (k : string) (v : V)
  : list (string * V) :=
  match m with
  | [] => [(k, v)]
  | (k', v') :: rest =>
      if String.eqb k' k then (k, v) :: rest else (k', v') :: Map_set rest k v
  end.

Definition Map_delete {V : Type} (m : list (string * V)) (k : string)
  : list (string * V) :=
  filter (fun kv => negb (String.eqb (fst kv) k)) m.

Definition Map_values {V : Type} (m : list (string * V)) : list V :=
  map snd m.

(** [map.get(k)]. *)
Fixpoint Map_get {V : Type} (m : list (string * V)) (k : string) : option V :=
  match m with
  | [] => None
  | (k', v) :: rest => if String.eqb k' k then Some v else Map_get rest k
  end.

(** ** What a method does to the outside *)

(** The two closures the source hands to [setTimeout]. *)
Inductive Task : Type :=
| RetryLoadChunk (url : string) (onSuccess onError : option Callback)
                 (playlistMissRetries : Z)
| InvokeOnError (onError : Callback) (message : string).

Inductive Effect : Type :=
| LoaderLoad (files : list LoaderFile.t) (swarmId : string) (loadUrl : option string)
| Invoke (f : Callback) (arg : JsValue)
| SetTimeout (task : Task) (delay : Z)
| ConsoleError (message : string).

(** ** What a callback does while it runs

    An event handler invokes the caller's callback and goes on after it. The
    callback is code of the caller: while it runs it can call the synchronous
    interface of the manager any number of times (catching what those calls
    throw, or not), and it ends by returning or by throwing. *)
Inductive PublicCall : Type :=
| DoProcessHlsPlaylist (url content : string)
| DoLoadChunk (url : string) (onSuccess onError : option Callback)
              (playlistMissRetries : Z)
| DoSetCurrentChunk (url : option string)
| DoAbortChunk (url : string).

Record Reaction : Type := {
  calls : list PublicCall;
  thrown : option string
}.

(** The callback that returns without calling back. *)
Definition quiet : Reaction := {| calls := []; thrown := None |}.

(** ** class ChunkManager *)

Module ChunkManager.

Record t : Type := {
  playlists : list (string * Playlist.t);
  chunk : option Chunk.t;
  prevLoadUrl : option string;
  playQueue : list string
}.

(** The fields as the constructor leaves them. *)
Definition new : t :=
  {| playlists := []; chunk := None; prevLoadUrl := None; playQueue := [] |}.

Definition set_playlists (v : list (string * Playlist.t)) (this : t) : t :=
  {| playlists := v; chunk := chunk this;
     prevLoadUrl := prevLoadUrl this; playQueue := playQueue this |}.

Definition set_chunk (v : option Chunk.t) (this : t) : t :=
  {| playlists := playlists this; chunk := v;
     prevLoadUrl := prevLoadUrl this; playQueue := playQueue this |}.

Definition set_prevLoadUrl (v : option string) (this : t) : t :=
  {| playlists := playlists this; chunk := chunk this;
     prevLoadUrl := v; playQueue := playQueue this |}.

Definition set_playQueue (v : list string) (this : t) : t :=
  {| playlists := playlists this; chunk := chunk this;
     prevLoadUrl := prevLoadUrl this; playQueue := v |}.

(** *** The monad of the methods *)

Definition M (A : Type) : Type := t -> Outcome A * t * list Effect.

Definition ret {A : Type} (a : A) : M A := fun this => (Return a, this, []).

Definition bind {A B : Type} (m : M A) (k : A -> M B) : M B :=
  fun this =>
    match m this with
    | (Return a, this', out) =>
        let '(r, this'', out') := k a this' in (r, this'', out ++ out')
    | (Throw e, this', out) => (Throw e, this', out)
    end.

Definition get : M t := fun this => (Return this, this, []).
Definition modify (f : t -> t) : M unit := fun this => (Return tt, f this, []).
Definition emit (e : Effect) : M unit := fun this => (Return tt, this, [e]).
Definition throw {A : Type} (e : string) : M A := fun this => (Throw e, this, []).

Definition lift {A : Type} (o : Outcome A) : M A :=
  match o with
  | Return a => ret a
  | Throw e => throw e
  end.

(** [try { body } catch (e) { handler }]: what the body did before it threw
    stays done. *)
Definition tryCatch {A : Type} (body : M A) (handler : string -> M A) : M A :=
  fun this =>
    match body this with
    | (Throw e, this', out) =>
        let '(r, this'', out') := handler e this' in (r, this'', out ++ out')
    | finished => finished
    end.

Declare Scope cm_scope.
Delimit Scope cm_scope with cm.
Notation "x <- c ;; k" := (bind c (fun x => k))
  (at level 61, c at next level, right associativity) : cm_scope.
Notation "c ;; k" := (bind c (fun _ => k))
  (at level 61, right associativity) : cm_scope.
Local Open Scope cm_scope.

(** The three components of a finished call. *)
Definition outcome {A : Type} (r : Outcome A * t * list Effect) : Outcome A := fst (fst r).
Definition state {A : Type} (r : Outcome A * t * list Effect) : t := snd (fst r).
Definition effects {A : Type} (r : Outcome A * t * list Effect) : list Effect := snd r.

(** The result of [getChunkLocation]. *)
Record Location : Type := {
  playlist : option Playlist.t;
  chunkIndex : Z
}.

Section Methods.
Context {E : Env}.

Definition processHlsPlaylist (url content : string) : M unit :=
  let manifest := m3u8_parse content in
  playlist <- lift (Playlist.new url manifest) ;;
  modify (fun this => set_playlists (Map_set (playlists this) url playlist) this).

(** [loadHlsPlaylist], from the point where [await Utils.fetchContent(url)]
    settles: [fetched] is the text it resolved to, or the error it rejected
    with. Nothing of the manager is read before that point. The method
    answers the text; the fetches it starts for the child playlists (each of
    which ends in a [processHlsPlaylist] of its own when it resolves) are
    given beside it, in the order they are started. A thrown exception is
    the rejection of the promise the method returns. *)
Definition loadHlsPlaylist (url : string) (loadChildPlaylists : bool)
    (fetched : Outcome string) : M (string * list string) :=
  content <- tryCatch
               (content <- lift fetched ;;
                processHlsPlaylist url content ;;
                ret content)
               (fun e =>
                  modify (fun this =>
                            set_playlists (Map_delete (playlists this) url) this) ;;
                  throw e) ;;
  if loadChildPlaylists then
    this <- get ;;
    match Map_get (playlists this) url with
    | Some playlist => ret (content, Playlist.getChildPlaylistAbsoluteUrls playlist)
    | None => ret (content, [])
    end
  else ret (content, []).

(** The scan of [getChunkLocation] over [Array.from(this.playlists.values())]. *)
Fixpoint getChunkLocation_scan (values : list Playlist.t) (url : string) : Location :=
  match values with
  | [] => {| playlist := None; chunkIndex := -1 |}
  | playlist :: rest =>
      let chunkIndex := Playlist.getChunkIndex playlist url in
      if 0 <=? chunkIndex then {| playlist := Some playlist; chunkIndex := chunkIndex |}
      else getChunkLocation_scan rest url
  end.

Definition getChunkLocation (this : t) (url : option string) : Location :=
  match url with
  | Some u =>
      if truthy url then getChunkLocation_scan (Map_values (playlists this)) u
      else {| playlist := None; chunkIndex := -1 |}
  | None => {| playlist := None; chunkIndex := -1 |}
  end.

Definition getMasterPlaylist (this : t) : option Playlist.t :=
  find (fun playlist =>
          match Manifest.playlists (Playlist.manifest playlist) with
          | Some _ => true
          | None => false
          end)
       (Map_values (playlists this)).

(** The loop of [getSwarmId] over [urls], at counter [i]. *)
Fixpoint getSwarmId_loop (urls : list string) (target : string) (i : nat) : option nat :=
  match urls with
  | [] => None
  | u :: rest => if String.eqb u target then Some i else getSwarmId_loop rest target (S i)
  end.

Definition getSwarmId (this : t) (playlist : Playlist.t) : string :=
  match getMasterPlaylist this with
  | Some master =>
      if negb (String.eqb (Playlist.url master) (Playlist.url playlist)) then
        match getSwarmId_loop (Playlist.getChildPlaylistAbsoluteUrls master)
                              (Playlist.url playlist) 0 with
        | Some i => (Playlist.url master ++ "+" ++ toString i)%string
        | None => Playlist.url playlist
        end
      else Playlist.url playlist
  | None => Playlist.url playlist
  end.

(** The loop of [loadFiles], at counter [i] with [iterations] rounds left. *)
Fixpoint loadFiles_loop (playlist : Playlist.t) (i priority : Z) (iterations : nat)
  : Outcome (list LoaderFile.t) :=
  match iterations with
  | O => Return []
  | S rest =>
      match Playlist.getChunkAbsoluteUrl playlist i with
      | None => Throw "TypeError"
      | Some fileUrl =>
          match loadFiles_loop playlist (i + 1) (priority + 1) rest with
          | Return files => Return (LoaderFile.new fileUrl priority :: files)
          | Throw e => Throw e
          end
      end
  end.

Definition loadFiles (playlist : Playlist.t) (chunkIndex : Z) (loadUrl : option string)
  : M unit :=
  this <- get ;;
  let segments := Manifest.segments (Playlist.manifest playlist) in
  let priority := Z.max 0 (Z.of_nat (length (playQueue this)) - 1) in
  files <- lift (loadFiles_loop playlist chunkIndex priority
                   (Z.to_nat (Z.of_nat (length segments) - chunkIndex))) ;;
  emit (LoaderLoad files (getSwarmId this playlist) loadUrl).

Definition notFoundMessage : string :=
  "Requested chunk cannot be located in known playlists".

Definition loadChunk (url : string) (onSuccess onError : option Callback)
    (playlistMissRetries : Z) : M unit :=
  this <- get ;;
  let location := getChunkLocation this (Some url) in
  match playlist location with
  | None =>
      if 0 <? playlistMissRetries then
        emit (SetTimeout
                (RetryLoadChunk url onSuccess onError (playlistMissRetries - 1)) 500)
      else
        emit (ConsoleError notFoundMessage) ;;
        match onError with
        | Some f => emit (SetTimeout (InvokeOnError f notFoundMessage) 0)
        | None => ret tt
        end
  | Some loadingPlaylist =>
      let loadingChunkIndex := chunkIndex location in
      (if 0 <? Z.of_nat (length (playQueue this)) then
         let prevChunkUrl := nth_error (playQueue this) (length (playQueue this) - 1) in
         let prev := getChunkLocation this prevChunkUrl in
         match playlist prev with
         | Some _ =>
             if negb (chunkIndex prev =? loadingChunkIndex - 1)
             then modify (set_playQueue [])
             else ret tt
         | None => ret tt
         end
       else ret tt) ;;
      modify (set_chunk (Some (Chunk.new url onSuccess onError))) ;;
      loadFiles loadingPlaylist loadingChunkIndex (Some url) ;;
      modify (set_prevLoadUrl (Some url))
  end.

Definition setCurrentChunk (url : option string) : M unit :=
  match url with
  | Some u =>
      if truthy url then
        this <- get ;;
        let urlIndex := indexOf (playQueue this) u in
        (if urlIndex <? 0 then ret tt
         else modify (set_playQueue (slice (playQueue this) urlIndex))) ;;
        this <- get ;;
        if truthy (prevLoadUrl this) then
          let location := getChunkLocation this (prevLoadUrl this) in
          match playlist location with
          | Some loadingPlaylist => loadFiles loadingPlaylist (chunkIndex location) None
          | None => ret tt
          end
        else ret tt
      else ret tt
  | None => ret tt
  end.

Definition abortChunk (url : string) : M unit :=
  this <- get ;;
  match chunk this with
  | Some c => if String.eqb (Chunk.url c) url then modify (set_chunk None) else ret tt
  | None => ret tt
  end.

(** A call the callback makes back into the manager. *)
Definition call (c : PublicCall) : M unit :=
  match c with
  | DoProcessHlsPlaylist url content => processHlsPlaylist url content
  | DoLoadChunk url onSuccess onError playlistMissRetries =>
      loadChunk url onSuccess onError playlistMissRetries
  | DoSetCurrentChunk url => setCurrentChunk url
  | DoAbortChunk url => abortChunk url
  end.

(** The calls of a callback, in turn. What one of them throws is the
    callback's to catch or to let through: how the callback ends is given
    with its reaction, and a callback that lets an exception through makes no
    further call. *)
Fixpoint callAll (cs : list PublicCall) : M unit :=
  match cs with
  | [] => ret tt
  | c :: rest => tryCatch (call c) (fun _ => ret tt) ;; callAll rest
  end.

(** [f(arg)]: the invocation is recorded, the callback runs, and its
    exception, if it throws, is the exception of the call. *)
Definition invoke (f : Callback) (arg : JsValue) (reaction : Reaction) : M unit :=
  emit (Invoke f arg) ;;
  callAll (calls reaction) ;;
  match thrown reaction with
  | Some e => throw e
  | None => ret tt
  end.

(** The handlers of the loader's events. [reaction] is what the callback
    does if the handler invokes it. *)
Definition onFileLoaded (file : LoaderFile.t) (reaction : Reaction) : M unit :=
  this <- get ;;
  match chunk this with
  | Some c =>
      if String.eqb (Chunk.url c) (LoaderFile.url file) then
        modify (fun this => set_playQueue (playQueue this ++ [LoaderFile.url file]) this) ;;
        match Chunk.onSuccess c with
        | Some f => invoke f (LoaderFile.data file) reaction
        | None => ret tt
        end ;;
        modify (set_chunk None)
      else ret tt
  | None => ret tt
  end.

Definition onFileError (url : string) (error : JsValue) (reaction : Reaction) : M unit :=
  this <- get ;;
  match chunk this with
  | Some c =>
      if String.eqb (Chunk.url c) url then
        match Chunk.onError c with
        | Some f => invoke f error reaction
        | None => ret tt
        end ;;
        modify (set_chunk None)
      else ret tt
  | None => ret tt
  end.

Definition onFileAbort (url : string) (reaction : Reaction) : M unit :=
  this <- get ;;
  match chunk this with
  | Some c =>
      if String.eqb (Chunk.url c) url then
        match Chunk.onError c with
        | Some f => invoke f (JsString "Loading aborted") reaction
        | None => ret tt
        end ;;
        modify (set_chunk None)
      else ret tt
  | None => ret tt
  end.

End Methods.

End ChunkManager.

(** ** The manager in its host: timers, loader events and the call log *)

(** The manager, the timers that [setTimeout] has registered and that have not
    fired yet (with their delays), and everything the manager did to the
    outside so far, oldest first. *)
Record World : Type := {
  manager : ChunkManager.t;
  timers : list (Task * Z);
  log : list Effect
}.

(** What can happen to the manager: a call of its public interface, the
    [this.playlists.delete(url)] of [loadHlsPlaylist]'s failure path, an event
    of the loader (with what the callback does, should the handler invoke
    it), or a pending timer firing (the k-th one: the host decides which, so
    every schedule of the real clock is one of these runs). The callback of
    the timer that reports a missing chunk runs with nothing of the manager
    after it: the calls it makes are the calls that follow the timer. The
    loader is imported by the source: its events are taken to reach the
    manager between these calls, not from inside [load] or a callback. *)
Inductive Event : Type :=
| CallProcessHlsPlaylist (url content : string)
| PlaylistsDelete (url : string)
| CallLoadChunk (url : string) (onSuccess onError : option Callback)
                (playlistMissRetries : Z)
| CallSetCurrentChunk (url : option string)
| CallAbortChunk (url : string)
| FileLoaded (file : LoaderFile.t) (reaction : Reaction)
| FileError (url : string) (error : JsValue) (reaction : Reaction)
| FileAbort (url : string) (reaction : Reaction)
| TimerFires (k : nat).

Definition scheduled (out : list Effect) : list (Task * Z) :=
  flat_map (fun e => match e with
                     | SetTimeout task delay => [(task, delay)]
                     | _ => []
                     end) out.

Definition remove_nth {A : Type} (k : nat) (l : list A) : list A :=
  firstn k l ++ skipn (S k) l.

Definition initial : World :=
  {| manager := ChunkManager.new; timers := []; log := [] |}.

Section Host.
Context {E : Env}.

Definition perform (m : ChunkManager.M unit) (w : World) : World :=
  let '(_, this', out) := m (manager w) in
  {| manager := this';
     timers := timers w ++ scheduled out;
     log := log w ++ out |}.

Definition runTask (task : Task) : ChunkManager.M unit :=
  match task with
  | RetryLoadChunk url onSuccess onError playlistMissRetries =>
      ChunkManager.loadChunk url onSuccess onError playlistMissRetries
  | InvokeOnError onError message =>
      ChunkManager.emit (Invoke onError (JsString message))
  end.

Definition step (ev : Event) (w : World) : World :=
  match ev with
  | CallProcessHlsPlaylist url content =>
      perform (ChunkManager.processHlsPlaylist url content) w
  | PlaylistsDelete url =>
      perform (ChunkManager.modify
                 (fun this => ChunkManager.set_playlists
                                (Map_delete (ChunkManager.playlists this) url) this)) w
  | CallLoadChunk url onSuccess onError playlistMissRetries =>
      perform (ChunkManager.loadChunk url onSuccess onError playlistMissRetries) w
  | CallSetCurrentChunk url => perform (ChunkManager.setCurrentChunk url) w
  | CallAbortChunk url => perform (ChunkManager.abortChunk url) w
  | FileLoaded file reaction => perform (ChunkManager.onFileLoaded file reaction) w
  | FileError url error reaction =>
      perform (ChunkManager.onFileError url error reaction) w
  | FileAbort url reaction => perform (ChunkManager.onFileAbort url reaction) w
  | TimerFires k =>
      match nth_error (timers w) k with
      | Some (task, _) =>
          perform (runTask task)
                  {| manager := manager w;
                     timers := remove_nth k (timers w);
                     log := log w |}
      | None => w
      end
  end.

Definition run (evs : list Event) (w : World) : World :=
  fold_left (fun w ev => step ev w) evs w.

End Host.

(** ** A concrete environment for the examples *)

(** Modelled from the spec: [Utils.isAbsoluteUrl] ([lib/utils.ts] is imported
    by the source and is not part of it). The spec recognises an absolute URI
    by scheme presence, a scheme separator [://] in it. *)
Definition hasSchemeSeparator (uri : string) : bool :=
  match index 0 "://" uri with
  | Some _ => true
  | None => false
  end.

Definition item (uri : string) : Manifest.item := {| Manifest.uri := uri |}.

(** A stand-in for the m3u8 parser on the manifests of the examples, named by
    their text. *)
Definition parseExample (content : string) : Manifest.t :=
  if String.eqb content "master" then
    {| Manifest.segments := [];
       Manifest.playlists := Some [item "v1.m3u8"; item "v2.m3u8"] |}
  else if String.eqb content "v1" then
    {| Manifest.segments := [item "s0.ts"; item "s1.ts"];
       Manifest.playlists := None |}
  else if String.eqb content "v2" then
    {| Manifest.segments := [item "t0.ts"; item "t1.ts"; item "https://cdn/t2.ts"];
       Manifest.playlists := None |}
  else if String.eqb content "repeat" then
    {| Manifest.segments := [item "a.ts"; item "a.ts"];
       Manifest.playlists := None |}
  else if String.eqb content "twice" then
    {| Manifest.segments := [];
       Manifest.playlists := Some [item "v1.m3u8"; item "v1.m3u8"] |}
  else
    {| Manifest.segments := []; Manifest.playlists := None |}.

Definition exampleEnv : Env :=
  {| isAbsoluteUrl := hasSchemeSeparator; m3u8_parse := parseExample |}.

(** The playlists of the examples, as [Playlist.new] builds them. *)
Definition masterPlaylist : Playlist.t :=
  {| Playlist.url := "https://h/m.m3u8";
     Playlist.baseUrl := "https://h/";
     Playlist.manifest := parseExample "master" |}.

Definition v1Playlist : Playlist.t :=
  {| Playlist.url := "https://h/v1.m3u8";
     Playlist.baseUrl := "https://h/";
     Playlist.manifest := parseExample "v1" |}.

Definition v2Playlist : Playlist.t :=
  {| Playlist.url := "https://h/v2.m3u8";
     Playlist.baseUrl := "https://h/";
     Playlist.manifest := parseExample "v2" |}.

(** The master and its two variants are registered. *)
Definition streamRegistered : list Event :=
  [CallProcessHlsPlaylist "https://h/m.m3u8" "master";
   CallProcessHlsPlaylist "https://h/v1.m3u8" "v1";
   CallProcessHlsPlaylist "https://h/v2.m3u8" "v2"].

(** The first segment of the first variant has been requested and loaded:
    the play queue holds it. *)
Definition firstSegmentPlayed : list Event :=
  streamRegistered ++
  [CallLoadChunk "https://h/s0.ts" (Some 1%nat) (Some 2%nat) 1;
   FileLoaded (LoaderFile.new "https://h/s0.ts" 0) quiet].

(** The same, after which the first variant is dropped from the registry. *)
Definition firstVariantDropped : list Event :=
  firstSegmentPlayed ++ [PlaylistsDelete "https://h/v1.m3u8"].

(** A request that is aborted by the caller before the loader answers. *)
Definition requestAborted : list Event :=
  streamRegistered ++
  [CallLoadChunk "https://h/s0.ts" (Some 1%nat) (Some 2%nat) 1;
   CallAbortChunk "https://h/s0.ts"].

(** The first segment has been requested and the loader has not answered. *)
Definition firstSegmentRequested : list Event :=
  streamRegistered ++
  [CallLoadChunk "https://h/s0.ts" (Some 1%nat) (Some 2%nat) 1].

(** The first segment is requested and loaded; its callback asks for the
    second segment before it returns. Then the loader repeats the event, and
    reports a failure to a callback that would throw. *)
Definition requestInsideCallback : list Event :=
  streamRegistered ++
  [CallLoadChunk "https://h/s0.ts" (Some 1%nat) (Some 2%nat) 1;
   FileLoaded (LoaderFile.new "https://h/s0.ts" 0)
     {| calls := [DoLoadChunk "https://h/s1.ts" (Some 3%nat) (Some 4%nat) 1];
        thrown := None |};
   FileLoaded (LoaderFile.new "https://h/s0.ts" 0) quiet;
   FileError "https://h/s0.ts" (JsString "late") {| calls := []; thrown := Some "late"%string |}].

(** The first segment is requested and loaded, and its callback throws; then
    the loader repeats the event. *)
Definition callbackThrows : list Event :=
  streamRegistered ++
  [CallLoadChunk "https://h/s0.ts" (Some 1%nat) (Some 2%nat) 1;
   FileLoaded (LoaderFile.new "https://h/s0.ts" 0)
     {| calls := []; thrown := Some "cannot append"%string |};
   FileLoaded (LoaderFile.new "https://h/s0.ts" 0) quiet].

(** The manager after each of these runs. *)
Definition managerAfter (evs : list Event) : ChunkManager.t :=
  manager (run (E := exampleEnv) evs initial).

(** A playlist that lists one segment twice, and a master that lists one
    variant twice. *)
Definition repeatPlaylist : Playlist.t :=
  {| Playlist.url := "https://h/r.m3u8";
     Playlist.baseUrl := "https://h/";
     Playlist.manifest := parseExample "repeat" |}.

Definition twicePlaylist : Playlist.t :=
  {| Playlist.url := "https://h/m.m3u8";
     Playlist.baseUrl := "https://h/";
     Playlist.manifest := parseExample "twice" |}.

Definition repeatRegistered : list Event :=
  [CallProcessHlsPlaylist "https://h/r.m3u8" "repeat"].

Definition twiceRegistered : list Event :=
  [CallProcessHlsPlaylist "https://h/m.m3u8" "twice";
   CallProcessHlsPlaylist "https://h/v1.m3u8" "v1"].

(** The first variant is registered a second time under another URL of the
    same directory. *)
Definition copyRegistered : list Event :=
  streamRegistered ++ [CallProcessHlsPlaylist "https://h/w.m3u8" "v1"].

Definition copyPlaylist : Playlist.t :=
  {| Playlist.url := "https://h/w.m3u8";
     Playlist.baseUrl := "https://h/";
     Playlist.manifest := parseExample "v1" |}.

(** ** Derived notions

    *** The spec's words *)

Section SpecWords.
Context {E : Env}.

(** "The segment's URI unchanged if it is already absolute; otherwise
    [baseUrl] + relative URI." *)
Definition resolves (this : Playlist.t) (uri absolute : string) : Prop :=
  (isAbsoluteUrl uri = true -> absolute = uri) /\
  (isAbsoluteUrl uri = false -> absolute = (Playlist.baseUrl this ++ uri)%string).

(** "Priority base = max(0, queueLength - 1)." *)
Definition priorityBase (queue : list string) : Z :=
  Z.max 0 (Z.of_nat (length queue) - 1).

(** The descriptor the batch holds at position [j], when it starts at segment
    [i] with priority [base]: segment [i + j], priority [base + j]. *)
Definition descriptorAt (this : Playlist.t) (i base : Z) (j : nat)
  : option LoaderFile.t :=
  option_map (fun u => LoaderFile.new u (base + Z.of_nat j))
             (Playlist.getChunkAbsoluteUrl this (i + Z.of_nat j)).

(** A batch is the forward batch from segment [i] at priority [base]: one
    descriptor per segment from [i] through the last one, in playlist order,
    with consecutive priorities from [base]. *)
Definition forwardBatch (this : Playlist.t) (i base : Z) (files : list LoaderFile.t)
  : Prop :=
  Z.of_nat (length files)
  = Z.of_nat (length (Manifest.segments (Playlist.manifest this))) - i /\
  forall j, (j < length files)%nat ->
            nth_error files j = descriptorAt this i base j /\
            descriptorAt this i base j <> None.

(** The play queue cut at the first occurrence of [url]. *)
Definition trimmed (queue : list string) (url : string) (queue' : list string) : Prop :=
  (forall before after,
      queue = before ++ url :: after -> ~ In url before -> queue' = url :: after) /\
  (~ In url queue -> queue' = queue).

(** The callbacks a request carries. *)
Definition callbacks (onSuccess onError : option Callback) : list Callback :=
  match onSuccess with Some f => [f] | None => [] end ++
  match onError with Some f => [f] | None => [] end.

(** The callbacks a call made by a callback hands over. *)
Definition callRequest (c : PublicCall) : list Callback :=
  match c with
  | DoLoadChunk _ onSuccess onError _ => callbacks onSuccess onError
  | _ => []
  end.

(** What the callback of an event does, for the events that can invoke one. *)
Definition eventReaction (ev : Event) : option Reaction :=
  match ev with
  | FileLoaded _ reaction | FileError _ _ reaction | FileAbort _ reaction =>
      Some reaction
  | _ => None
  end.

(** The requests an event makes, each as the callbacks it hands over: the
    request itself for a [loadChunk] call, the requests of the callback for a
    loader event. *)
Definition eventRequests (ev : Event) : list (list Callback) :=
  match ev with
  | CallLoadChunk _ onSuccess onError _ => [callbacks onSuccess onError]
  | _ =>
      match eventReaction ev with
      | Some reaction => map callRequest (calls reaction)
      | None => []
      end
  end.

Definition requests (evs : list Event) : list (list Callback) :=
  flat_map eventRequests evs.

(** The callbacks handed to the requests among [evs], in order. *)
Definition requestCallbacks (evs : list Event) : list Callback :=
  concat (requests evs).

Definition memb (f : Callback) (fs : list Callback) : bool :=
  existsb (Nat.eqb f) fs.

(** Some callback of [gs] is among [fs]. *)
Definition touches (fs gs : list Callback) : bool :=
  existsb (fun g => memb g fs) gs.

(** How many of the requests hand over a callback among [fs]. For the
    callbacks of a request it is at most 1 when no other request of the
    run, and no repetition of this one, hands over one of them. *)
Definition arrivals (fs : list Callback) (groups : list (list Callback)) : nat :=
  length (filter (touches fs) groups).

(** The callback of the event ends by throwing. *)
Definition eventThrows (ev : Event) : bool :=
  match eventReaction ev with
  | Some reaction => match thrown reaction with Some _ => true | None => false end
  | None => false
  end.

(** How many invocations of a callback among [fs] a log holds. *)
Definition invocations (fs : list Callback) (out : list Effect) : nat :=
  length (filter (fun e => match e with
                           | Invoke f _ => memb f fs
                           | _ => false
                           end) out).

(** *** Notions of the proofs *)

(** The condition under which [loadChunk] empties the play queue, for a
    request located at index [i]: the queue is not empty, its last element
    locates, and not at index [i - 1]. *)
Definition sequenceBreak (this : ChunkManager.t) (i : Z) : bool :=
  (0 <? Z.of_nat (length (ChunkManager.playQueue this))) &&
  let prev :=
    ChunkManager.getChunkLocation this
      (nth_error (ChunkManager.playQueue this)
                 (length (ChunkManager.playQueue this) - 1)) in
  match ChunkManager.playlist prev with
  | Some _ => negb (ChunkManager.chunkIndex prev =? i - 1)
  | None => false
  end.

(** The callbacks held by a pending timer and by the active chunk request. *)
Definition taskCallbacks (task : Task) : list Callback :=
  match task with
  | RetryLoadChunk _ onSuccess onError _ => callbacks onSuccess onError
  | InvokeOnError f _ => [f]
  end.

Definition chunkCallbacks (c : option Chunk.t) : list Callback :=
  match c with
  | Some c => callbacks (Chunk.onSuccess c) (Chunk.onError c)
  | None => []
  end.

(** How many holders (the active request, the pending timers) still hold a
    callback among [fs]. *)
Definition holders (fs : list Callback) (w : World) : nat :=
  (Nat.b2n (touches fs (chunkCallbacks (ChunkManager.chunk (manager w))))
   + length (filter (fun t => touches fs (taskCallbacks (fst t))) (timers w)))%nat.

(** Invocations made so far plus holders that could still make one. *)
Definition potential (fs : list Callback) (w : World) : nat :=
  (invocations fs (log w) + holders fs w)%nat.

(** What a finished call adds to the potential: the invocations it made, the
    timers it registered, and the active request it leaves. *)
Definition gain (fs : list Callback) (r : Outcome unit * ChunkManager.t * list Effect)
  : nat :=
  (invocations fs (ChunkManager.effects r)
   + length (filter (fun t => touches fs (taskCallbacks (fst t)))
                    (scheduled (ChunkManager.effects r)))
   + Nat.b2n (touches fs (chunkCallbacks (ChunkManager.chunk (ChunkManager.state r)))))%nat.

(** What a handler does from the point where it invokes a callback: the
    invocation, the calls of the callback, and then, when the callback
    returns, [this.chunk = undefined]; when it throws, the exception leaves
    the handler before that assignment. *)
Definition settle (f : Callback) (arg : JsValue) (reaction : Reaction)
    (this : ChunkManager.t) : Outcome unit * ChunkManager.t * list Effect :=
  let r := ChunkManager.callAll (calls reaction) this in
  match thrown reaction with
  | Some e => (Throw e, ChunkManager.state r, Invoke f arg :: ChunkManager.effects r)
  | None =>
      (Return tt, ChunkManager.set_chunk None (ChunkManager.state r),
       Invoke f arg :: ChunkManager.effects r)
  end.

(** What a handler does once its event has matched the active request: with
    a callback, the invocation and what follows it; without one, only
    [this.chunk = undefined]. *)
Definition delivered (callback : option Callback) (arg : JsValue) (reaction : Reaction)
    (this : ChunkManager.t) : Outcome unit * ChunkManager.t * list Effect :=
  match callback with
  | Some f => settle f arg reaction this
  | None => (Return tt, ChunkManager.set_chunk None this, [])
  end.

(** The play queue as [setCurrentChunk(url)] leaves it. *)
Definition trimQueue (queue : list string) (url : string) : list string :=
  if indexOf queue url <? 0 then queue else slice queue (indexOf queue url).

(** There is an active chunk request, and it is for [url]. *)
Definition activeFor (this : ChunkManager.t) (url : string) : bool :=
  match ChunkManager.chunk this with
  | Some c => String.eqb (Chunk.url c) url
  | None => false
  end.

(** The callback a loader event invokes in a state of the manager: the
    [onSuccess] (for a loaded file) or the [onError] (for a failure or an
    abort) of the active request, when the event is for its URL. *)
Definition answered (ev : Event) (this : ChunkManager.t) : option Callback :=
  match ChunkManager.chunk this with
  | Some c =>
      match ev with
      | FileLoaded file _ =>
          if String.eqb (Chunk.url c) (LoaderFile.url file) then Chunk.onSuccess c else None
      | FileError url _ _ | FileAbort url _ =>
          if String.eqb (Chunk.url c) url then Chunk.onError c else None
      | _ => None
      end
  | None => None
  end.

(** The event invokes a callback among [fs], and the callback throws. *)
Definition throwsIn (fs : list Callback) (ev : Event) (this : ChunkManager.t) : bool :=
  eventThrows ev &&
  match answered ev this with
  | Some f => memb f fs
  | None => false
  end.

(** During the run of [evs] from [w], an invocation of a callback among [fs]
    ends by throwing. *)
Fixpoint throwsDuring (fs : list Callback) (evs : list Event) (w : World) : bool :=
  match evs with
  | [] => false
  | ev :: rest => throwsIn fs ev (manager w) || throwsDuring fs rest (step ev w)
  end.

(** A request for a chunk is made in the run: by the application, or by a
    callback of a loader event. *)
Definition requested (evs : list Event) (url : string)
    (onSuccess onError : option Callback) (retries : Z) : Prop :=
  In (CallLoadChunk url onSuccess onError retries) evs \/
  exists ev reaction,
    In ev evs /\ eventReaction ev = Some reaction /\
    In (DoLoadChunk url onSuccess onError retries) (calls reaction).

(** Nothing is active or queued before the first request is recorded. *)
Definition tracked (this : ChunkManager.t) : Prop :=
  ChunkManager.prevLoadUrl this = None ->
  ChunkManager.chunk this = None /\ ChunkManager.playQueue this = [].

(** A character occurs in a string. *)
Definition occurs (c : ascii) (s : string) : Prop := In c (list_ascii_of_string s).

(** Every playlist is registered under its URL, once, and is what the
    constructor builds from that URL. *)
Definition registryOk (m : list (string * Playlist.t)) : Prop :=
  NoDup (map fst m) /\
  forall k p, In (k, p) m -> Playlist.new k (Playlist.manifest p) = Return p.

(** The retry timers a request with [n] retries registers, in order. *)
Definition retryTimers (url : string) (onSuccess onError : option Callback) (n : nat)
  : list Effect :=
  map (fun k => SetTimeout (RetryLoadChunk url onSuccess onError (Z.of_nat k)) 500)
      (rev (seq 0 n)).

(** The active chunk request is for the last requested URL, which is not
    empty. *)
Definition activeIsLast (this : ChunkManager.t) : Prop :=
  (forall c, ChunkManager.chunk this = Some c ->
             ChunkManager.prevLoadUrl this = Some (Chunk.url c)) /\
  (forall u, ChunkManager.prevLoadUrl this = Some u -> u <> EmptyString).

End SpecWords.

(** ** Strings and the playlist index *)

Ltac unfold_monad :=
  unfold ChunkManager.bind, ChunkManager.get, ChunkManager.modify,
    ChunkManager.emit, ChunkManager.ret, ChunkManager.throw, ChunkManager.lift.

(** A step that returns and calls nothing hands its value and state on. *)
Lemma bind_pure {A B : Type} (a : A) (this this1 : ChunkManager.t)
    (m : ChunkManager.M A) (k : A -> ChunkManager.M B) :
  m this = (Return a, this1, []) -> ChunkManager.bind m k this = k a this1.
Proof.
  intros H. unfold ChunkManager.bind. rewrite H.
  destruct (k a this1) as [[r s] out]. reflexivity.
Qed.

Lemma lastIndexOf_from_range (s : string) (c : ascii) (i found : Z) :
  lastIndexOf_from s c i found = found \/
  i <= lastIndexOf_from s c i found < i + Z.of_nat (String.length s).
Proof.
  revert i found. induction s as [|a s IH]; intros i found; simpl.
  - left. reflexivity.
  - destruct (IH (i + 1) (if Ascii.eqb a c then i else found)) as [H|H].
    + rewrite H. destruct (Ascii.eqb a c); [right; lia | left; reflexivity].
    + right. lia.
Qed.

Lemma lastIndexOf_range (s : string) (c : ascii) :
  lastIndexOf s c = -1 \/ 0 <= lastIndexOf s c < Z.of_nat (String.length s).
Proof.
  unfold lastIndexOf. destruct (lastIndexOf_from_range s c 0 (-1)); [left | right]; lia.
Qed.

Lemma substring_nonempty (s : string) (n : nat) :
  (n < String.length s)%nat -> substring 0 (S n) s <> EmptyString.
Proof.
  destruct s; simpl; intros H; [lia | discriminate].
Qed.

Lemma append_nonempty (a b : string) :
  a <> EmptyString -> (a ++ b)%string <> EmptyString.
Proof.
  destruct a; simpl; intros H; [congruence | discriminate].
Qed.

(** A constructed playlist keeps its URL and manifest, and its base URL is not
    empty: it ends with the last path separator. *)
Lemma Playlist_new_inv (url : string) (manifest : Manifest.t) (p : Playlist.t) :
  Playlist.new url manifest = Return p ->
  Playlist.url p = url /\ Playlist.manifest p = manifest /\
  Playlist.baseUrl p <> EmptyString.
Proof.
  unfold Playlist.new. destruct (lastIndexOf_range url "/"%char) as [H|H].
  - rewrite H. simpl. discriminate.
  - destruct (Z.eqb_spec (lastIndexOf url "/"%char) (-1)) as [e|_]; [lia|].
    intros [= <-]. simpl. repeat split.
    replace (Z.to_nat (lastIndexOf url "/"%char + 1))
      with (S (Z.to_nat (lastIndexOf url "/"%char))) by lia.
    apply substring_nonempty. lia.
Qed.

Section PlaylistIndex.
Context {E : Env}.

Lemma getChunkAbsoluteUrl_in_range (this : Playlist.t) (index : Z) :
  0 <= index < Z.of_nat (length (Manifest.segments (Playlist.manifest this))) ->
  exists u, Playlist.getChunkAbsoluteUrl this index = Some u.
Proof.
  intros H. unfold Playlist.getChunkAbsoluteUrl.
  destruct (Z.ltb_spec index 0); [lia|].
  destruct (nth_error (Manifest.segments (Playlist.manifest this)) (Z.to_nat index))
    eqn:Hn; [eauto|].
  apply nth_error_None in Hn. lia.
Qed.

Lemma getChunkAbsoluteUrl_Some_range (this : Playlist.t) (index : Z) (u : string) :
  Playlist.getChunkAbsoluteUrl this index = Some u ->
  0 <= index < Z.of_nat (length (Manifest.segments (Playlist.manifest this))).
Proof.
  unfold Playlist.getChunkAbsoluteUrl.
  destruct (Z.ltb_spec index 0); [discriminate|].
  destruct (nth_error (Manifest.segments (Playlist.manifest this)) (Z.to_nat index))
    eqn:Hn; [|discriminate].
  intros _. assert (Hl : (Z.to_nat index
    < length (Manifest.segments (Playlist.manifest this)))%nat)
    by (apply nth_error_Some; congruence).
  lia.
Qed.

(** The loop answers -1, or the first counter from [i] on whose segment has
    the URL. *)
Lemma getChunkIndex_loop_spec (this : Playlist.t) (url : string) (k : nat) (i : Z) :
  (Playlist.getChunkIndex_loop this url i k = -1 /\
   forall j, i <= j < i + Z.of_nat k -> Playlist.getChunkAbsoluteUrl this j <> Some url)
  \/
  (i <= Playlist.getChunkIndex_loop this url i k < i + Z.of_nat k /\
   Playlist.getChunkAbsoluteUrl this (Playlist.getChunkIndex_loop this url i k) = Some url /\
   forall j, i <= j < Playlist.getChunkIndex_loop this url i k ->
             Playlist.getChunkAbsoluteUrl this j <> Some url).
Proof.
  revert i. induction k as [|k IH]; intros i.
  - left. simpl. split; [reflexivity | intros; lia].
  - assert (Hskip : Playlist.getChunkAbsoluteUrl this i <> Some url ->
        (Playlist.getChunkIndex_loop this url (i + 1) k = -1 /\
         forall j, i <= j < i + Z.of_nat (S k) ->
                   Playlist.getChunkAbsoluteUrl this j <> Some url)
        \/
        (i <= Playlist.getChunkIndex_loop this url (i + 1) k < i + Z.of_nat (S k) /\
         Playlist.getChunkAbsoluteUrl this
           (Playlist.getChunkIndex_loop this url (i + 1) k) = Some url /\
         forall j, i <= j < Playlist.getChunkIndex_loop this url (i + 1) k ->
                   Playlist.getChunkAbsoluteUrl this j <> Some url)).
    { intros Hi. destruct (IH (i + 1)) as [[H1 H2]|[H1 [H2 H3]]].
      - left. split; [assumption|]. intros j Hj.
        destruct (Z.eq_dec j i) as [->|]; [assumption | apply H2; lia].
      - right. split; [lia|]. split; [assumption|]. intros j Hj.
        destruct (Z.eq_dec j i) as [->|]; [assumption | apply H3; lia]. }
    simpl Playlist.getChunkIndex_loop.
    destruct (Playlist.getChunkAbsoluteUrl this i) as [u|] eqn:Hu.
    + destruct (String.eqb_spec url u) as [->|Hne].
      * right. split; [lia|]. split; [assumption|]. intros; lia.
      * apply Hskip. congruence.
    + apply Hskip. discriminate.
Qed.

Lemma getChunkIndex_spec (this : Playlist.t) (url : string) :
  let n := Z.of_nat (length (Manifest.segments (Playlist.manifest this))) in
  (Playlist.getChunkIndex this url = -1 /\
   forall j, Playlist.getChunkAbsoluteUrl this j <> Some url)
  \/
  (0 <= Playlist.getChunkIndex this url < n /\
   Playlist.getChunkAbsoluteUrl this (Playlist.getChunkIndex this url) = Some url /\
   forall j, j < Playlist.getChunkIndex this url ->
             Playlist.getChunkAbsoluteUrl this j <> Some url).
Proof.
  intros n. unfold Playlist.getChunkIndex.
  destruct (getChunkIndex_loop_spec this url
              (length (Manifest.segments (Playlist.manifest this))) 0)
    as [[H1 H2]|[H1 [H2 H3]]].
  - left. split; [assumption|]. intros j Hj.
    apply getChunkAbsoluteUrl_Some_range in Hj as Hr. apply (H2 j); [lia | assumption].
  - right. split; [exact H1|]. split; [assumption|]. intros j Hj Hs.
    apply getChunkAbsoluteUrl_Some_range in Hs as Hr. apply (H3 j); [lia | assumption].
Qed.

(** The index of the first segment that has the URL. *)
Lemma getChunkIndex_first (this : Playlist.t) (url : string) (i : Z) :
  Playlist.getChunkAbsoluteUrl this i = Some url ->
  (forall j, j < i -> Playlist.getChunkAbsoluteUrl this j <> Some url) ->
  Playlist.getChunkIndex this url = i.
Proof.
  intros Hi Hfirst.
  destruct (getChunkIndex_spec this url) as [[_ H2]|[H1 [H2 H3]]].
  - elim (H2 i Hi).
  - destruct (Z.lt_trichotomy (Playlist.getChunkIndex this url) i) as [Hlt|[Heq|Hgt]].
    + elim (Hfirst _ Hlt H2).
    + assumption.
    + elim (H3 _ Hgt Hi).
Qed.

(** A successful scan answers a registered playlist and the index the
    playlist itself gives for the URL. *)
Lemma getChunkLocation_scan_Some (values : list Playlist.t) (url : string) (p : Playlist.t) :
  ChunkManager.playlist (ChunkManager.getChunkLocation_scan values url) = Some p ->
  In p values /\
  ChunkManager.chunkIndex (ChunkManager.getChunkLocation_scan values url)
  = Playlist.getChunkIndex p url /\
  0 <= Playlist.getChunkIndex p url.
Proof.
  induction values as [|q rest IH]; simpl.
  - discriminate.
  - destruct (Z.leb_spec 0 (Playlist.getChunkIndex q url)); simpl.
    + intros [= <-]. auto.
    + intros H'. destruct (IH H') as [H1 H2]. auto.
Qed.

Lemma getChunkLocation_Some (this : ChunkManager.t) (url : option string) (p : Playlist.t) :
  ChunkManager.playlist (ChunkManager.getChunkLocation this url) = Some p ->
  exists u, url = Some u /\ u <> EmptyString /\
    In p (Map_values (ChunkManager.playlists this)) /\
    ChunkManager.chunkIndex (ChunkManager.getChunkLocation this url)
    = Playlist.getChunkIndex p u /\
    0 <= Playlist.getChunkIndex p u
         < Z.of_nat (length (Manifest.segments (Playlist.manifest p))) /\
    Playlist.getChunkAbsoluteUrl p (Playlist.getChunkIndex p u) = Some u.
Proof.
  unfold ChunkManager.getChunkLocation. destruct url as [u|]; [|discriminate].
  simpl truthy. destruct (String.eqb_spec u "") as [->|Hne]; simpl; [discriminate|].
  intros H. apply getChunkLocation_scan_Some in H as [H1 [H2 H3]].
  pose proof (getChunkIndex_spec p u) as Hs. cbv zeta in Hs.
  destruct Hs as [[Hm _]|[Hr [Hs _]]]; [lia|].
  exists u. auto 10.
Qed.

End PlaylistIndex.

(** ** The forward batch *)

Section Scheduler.
Context {E : Env}.

(** Inside the playlist the loop of [loadFiles] does not throw, and collects
    one descriptor per round. *)
Lemma loadFiles_loop_collects (playlist : Playlist.t) (k : nat) (i priority : Z) :
  0 <= i ->
  i + Z.of_nat k <= Z.of_nat (length (Manifest.segments (Playlist.manifest playlist))) ->
  exists files,
    ChunkManager.loadFiles_loop playlist i priority k = Return files /\
    length files = k /\
    forall j, (j < k)%nat ->
              nth_error files j = descriptorAt playlist i priority j /\
              descriptorAt playlist i priority j <> None.
Proof.
  revert i priority. induction k as [|k IH]; intros i priority Hi Hk.
  - exists []. simpl. repeat split; intros; lia.
  - simpl ChunkManager.loadFiles_loop.
    destruct (getChunkAbsoluteUrl_in_range playlist i) as [u Hu]; [lia|].
    rewrite Hu.
    destruct (IH (i + 1) (priority + 1)) as [files [Hf [Hlen Hnth]]]; [lia | lia |].
    rewrite Hf. exists (LoaderFile.new u priority :: files).
    split; [reflexivity|]. split; [simpl; lia|].
    intros [|j] Hj.
    + unfold descriptorAt. rewrite !Z.add_0_r, Hu. simpl. split; [reflexivity | discriminate].
    + destruct (Hnth j) as [H1 H2]; [lia|].
      unfold descriptorAt in *.
      replace (i + Z.of_nat (S j)) with (i + 1 + Z.of_nat j) by lia.
      replace (priority + Z.of_nat (S j)) with (priority + 1 + Z.of_nat j) by lia.
      simpl. split; assumption.
Qed.

(** From an index inside the playlist, [loadFiles] returns normally, leaves
    the manager as it is, and makes one submission to the loader: the forward
    batch at the priority base of the current play queue, under the
    playlist's swarm id, with the hint it was given. *)
Lemma loadFiles_submits (this : ChunkManager.t) (playlist : Playlist.t) (i : Z)
    (loadUrl : option string) :
  0 <= i <= Z.of_nat (length (Manifest.segments (Playlist.manifest playlist))) ->
  exists files,
    ChunkManager.loadFiles playlist i loadUrl this
    = (Return tt, this,
       [LoaderLoad files (ChunkManager.getSwarmId this playlist) loadUrl]) /\
    forwardBatch playlist i (priorityBase (ChunkManager.playQueue this)) files.
Proof.
  intros Hi.
  destruct (loadFiles_loop_collects playlist
              (Z.to_nat (Z.of_nat (length (Manifest.segments (Playlist.manifest playlist))) - i))
              i (priorityBase (ChunkManager.playQueue this)))
    as [files [Hf [Hlen Hnth]]]; [lia | lia |].
  exists files. split.
  - unfold ChunkManager.loadFiles. unfold_monad. unfold priorityBase in Hf.
    rewrite Hf. reflexivity.
  - split; [lia|]. intros j Hj. apply Hnth. lia.
Qed.

End Scheduler.

(** ** The properties of the chunk manager *)

Section Properties.
Context {E : Env}.

(** The swarm id depends on the registered playlists only. *)
Lemma getSwarmId_playlists (this this' : ChunkManager.t) (p : Playlist.t) :
  ChunkManager.playlists this' = ChunkManager.playlists this ->
  ChunkManager.getSwarmId this' p = ChunkManager.getSwarmId this p.
Proof.
  intros H. unfold ChunkManager.getSwarmId, ChunkManager.getMasterPlaylist.
  rewrite H. reflexivity.
Qed.

Lemma getChunkLocation_playlists (this this' : ChunkManager.t) (url : option string) :
  ChunkManager.playlists this' = ChunkManager.playlists this ->
  ChunkManager.getChunkLocation this' url = ChunkManager.getChunkLocation this url.
Proof.
  intros H. unfold ChunkManager.getChunkLocation. rewrite H. reflexivity.
Qed.

(** What [loadChunk] does for a URL that locates: the play queue is emptied
    on a sequence break and kept otherwise, the request becomes the active
    one and the last requested one, and the forward batch goes to the
    loader. *)
Lemma loadChunk_located (this : ChunkManager.t) (url : string)
    (onSuccess onError : option Callback) (retries : Z) (p : Playlist.t) (i : Z) :
  ChunkManager.getChunkLocation this (Some url)
  = {| ChunkManager.playlist := Some p; ChunkManager.chunkIndex := i |} ->
  let queue' := if sequenceBreak this i then [] else ChunkManager.playQueue this in
  exists files,
    ChunkManager.loadChunk url onSuccess onError retries this
    = (Return tt,
       {| ChunkManager.playlists := ChunkManager.playlists this;
          ChunkManager.chunk := Some (Chunk.new url onSuccess onError);
          ChunkManager.prevLoadUrl := Some url;
          ChunkManager.playQueue := queue' |},
       [LoaderLoad files (ChunkManager.getSwarmId this p) (Some url)]) /\
    forwardBatch p i (priorityBase queue') files.
Proof.
  intros Hloc queue'.
  assert (Hp : ChunkManager.playlist (ChunkManager.getChunkLocation this (Some url)) = Some p)
    by (rewrite Hloc; reflexivity).
  destruct (getChunkLocation_Some _ _ _ Hp) as [u [[= <-] [_ [_ [Hidx [Hrange _]]]]]].
  rewrite Hloc in Hidx. simpl in Hidx.
  set (this1 := ChunkManager.set_playQueue queue' this).
  set (this2 := ChunkManager.set_chunk (Some (Chunk.new url onSuccess onError)) this1).
  destruct (loadFiles_submits this2 p i (Some url)) as [files [Hrun Hbatch]]; [lia|].
  exists files. split; [|exact Hbatch].
  rewrite (getSwarmId_playlists this this2 p eq_refl) in Hrun.
  unfold ChunkManager.loadChunk.
  rewrite (bind_pure this this this ChunkManager.get _ eq_refl), Hloc.
  cbn [ChunkManager.playlist ChunkManager.chunkIndex].
  rewrite (bind_pure tt this this1).
  2:{ clear. subst this1 queue'. unfold sequenceBreak. destruct this as [pls ch prev q].
      cbn [ChunkManager.playQueue].
      destruct (0 <? Z.of_nat (length q)); cbn [andb]; [|reflexivity].
      destruct (ChunkManager.playlist _); [|reflexivity].
      destruct (negb _); reflexivity. }
  rewrite (bind_pure tt this1 this2 _ _ eq_refl).
  unfold ChunkManager.bind. rewrite Hrun. reflexivity.
Qed.

(** *** Playlist index: absolute URLs *)

(** C9: for every segment index and every child-playlist reference of a
    playlist, the absolute URL computed is the stored URI itself when
    [isAbsoluteUrl] recognises it as absolute, and [baseUrl] followed by the
    URI otherwise; segments and child playlists follow the same rule, and
    there is one child URL per reference, in order. *)
Theorem absolute_urls_resolve (this : Playlist.t) :
  (forall i segment,
      nth_error (Manifest.segments (Playlist.manifest this)) i = Some segment ->
      exists u, Playlist.getChunkAbsoluteUrl this (Z.of_nat i) = Some u /\
                resolves this (Manifest.uri segment) u) /\
  (forall refs,
      Manifest.playlists (Playlist.manifest this) = Some refs ->
      length (Playlist.getChildPlaylistAbsoluteUrls this) = length refs /\
      forall k ref,
        nth_error refs k = Some ref ->
        exists u, nth_error (Playlist.getChildPlaylistAbsoluteUrls this) k = Some u /\
                  resolves this (Manifest.uri ref) u).
Proof.
  split.
  - intros i segment Hi. unfold Playlist.getChunkAbsoluteUrl.
    destruct (Z.ltb_spec (Z.of_nat i) 0); [lia|].
    rewrite Nat2Z.id, Hi. eexists. split; [reflexivity|].
    unfold resolves. destruct (isAbsoluteUrl (Manifest.uri segment));
      split; intros; congruence.
  - intros refs Hrefs. unfold Playlist.getChildPlaylistAbsoluteUrls. rewrite Hrefs.
    split; [apply length_map|].
    intros k ref Hk. rewrite nth_error_map, Hk. simpl.
    eexists. split; [reflexivity|].
    unfold resolves. destruct (isAbsoluteUrl (Manifest.uri ref));
      split; intros; congruence.
Qed.

(** *** Chunk scheduler: the batch *)

(** C5: for a chunk located at index [i] of a playlist with [n] segments,
    [loadChunk] returns normally and makes exactly one submission to the
    loader: a batch of [n - i] descriptors, one per segment from [i] through
    [n - 1] in playlist order, with consecutive priorities from
    [max(0, playQueue.length - 1)] (the queue as it is when the batch is
    built), under the playlist's swarm id and with the requested URL as the
    hint. *)
Theorem loadChunk_forward_batch (this : ChunkManager.t) (url : string)
    (onSuccess onError : option Callback) (retries : Z) (p : Playlist.t) (i : Z) :
  ChunkManager.getChunkLocation this (Some url)
  = {| ChunkManager.playlist := Some p; ChunkManager.chunkIndex := i |} ->
  let r := ChunkManager.loadChunk url onSuccess onError retries this in
  let n := Z.of_nat (length (Manifest.segments (Playlist.manifest p))) in
  exists files,
    ChunkManager.outcome r = Return tt /\
    ChunkManager.effects r
    = [LoaderLoad files (ChunkManager.getSwarmId (ChunkManager.state r) p) (Some url)] /\
    0 <= i < n /\
    Z.of_nat (length files) = n - i /\
    forall j, (j < length files)%nat ->
      exists u,
        Playlist.getChunkAbsoluteUrl p (i + Z.of_nat j) = Some u /\
        nth_error files j
        = Some (LoaderFile.new u
                  (Z.max 0 (Z.of_nat (length (ChunkManager.playQueue (ChunkManager.state r))) - 1)
                   + Z.of_nat j)).
Proof.
  intros Hloc r n.
  destruct (loadChunk_located this url onSuccess onError retries p i Hloc)
    as [files [Hrun [Hlen Hnth]]].
  exists files. subst r. rewrite Hrun.
  unfold ChunkManager.outcome, ChunkManager.effects, ChunkManager.state.
  cbn [fst snd ChunkManager.playQueue].
  split; [reflexivity|]. split.
  { reflexivity. }
  split.
  { assert (Hp : ChunkManager.playlist (ChunkManager.getChunkLocation this (Some url)) = Some p)
      by (rewrite Hloc; reflexivity).
    destruct (getChunkLocation_Some _ _ _ Hp) as [u [[= <-] [_ [_ [Hidx [Hrange _]]]]]].
    rewrite Hloc in Hidx. simpl in Hidx. subst n. lia. }
  split; [exact Hlen|].
  intros j Hj. destruct (Hnth j Hj) as [H1 H2]. unfold descriptorAt in *.
  destruct (Playlist.getChunkAbsoluteUrl p (i + Z.of_nat j)) as [u|]; [|elim H2; reflexivity].
  exists u. split; [reflexivity|]. exact H1.
Qed.

(** *** Chunk scheduler: a URL that does not locate *)

(** What [loadChunk] does for a URL that does not locate. *)
Lemma loadChunk_miss (this : ChunkManager.t) (url : string)
    (onSuccess onError : option Callback) (retries : Z) :
  ChunkManager.playlist (ChunkManager.getChunkLocation this (Some url)) = None ->
  ChunkManager.loadChunk url onSuccess onError retries this
  = (Return tt, this,
     if 0 <? retries
     then [SetTimeout (RetryLoadChunk url onSuccess onError (retries - 1)) 500]
     else ConsoleError ChunkManager.notFoundMessage ::
          match onError with
          | Some f => [SetTimeout (InvokeOnError f ChunkManager.notFoundMessage) 0]
          | None => []
          end).
Proof.
  intros Hmiss. unfold ChunkManager.loadChunk.
  unfold ChunkManager.bind at 1. unfold ChunkManager.get at 1. rewrite Hmiss.
  destruct (0 <? retries); [reflexivity|].
  destruct onError; reflexivity.
Qed.

Lemma nth_error_last_added {A : Type} (l : list A) (x : A) :
  nth_error (l ++ [x]) (length l) = Some x.
Proof.
  rewrite nth_error_app2, Nat.sub_diag; [reflexivity | lia].
Qed.

Lemma remove_nth_last_added {A : Type} (l : list A) (x : A) :
  remove_nth (length l) (l ++ [x]) = l.
Proof.
  unfold remove_nth. rewrite firstn_app, Nat.sub_diag, firstn_all, skipn_app.
  rewrite (skipn_all2 l) by lia.
  replace (S (length l) - length l)%nat with 1%nat by lia.
  simpl. rewrite !app_nil_r. reflexivity.
Qed.

(** C6: when the URL of a request locates in no known playlist, the call
    returns normally and leaves the manager as it is. With retries left it
    only registers a timer of 500 ms, and that timer firing is the same call
    with one retry less. With none left it logs the chunk-not-found message
    and, when [onError] is given, registers a timer of delay 0 for it: the
    call itself invokes nothing, and that timer firing invokes [onError] with
    the message. *)
Theorem loadChunk_unknown_playlist (w : World) (url : string)
    (onSuccess onError : option Callback) (retries : Z) :
  ChunkManager.playlist (ChunkManager.getChunkLocation (manager w) (Some url)) = None ->
  let r := ChunkManager.loadChunk url onSuccess onError retries (manager w) in
  let w' := step (CallLoadChunk url onSuccess onError retries) w in
  ChunkManager.outcome r = Return tt /\
  manager w' = manager w /\
  invocations (callbacks onSuccess onError) (ChunkManager.effects r) = 0%nat /\
  (0 < retries ->
     let retry := RetryLoadChunk url onSuccess onError (retries - 1) in
     log w' = log w ++ [SetTimeout retry 500] /\
     timers w' = timers w ++ [(retry, 500)] /\
     step (TimerFires (length (timers w))) w'
     = step (CallLoadChunk url onSuccess onError (retries - 1))
            {| manager := manager w; timers := timers w; log := log w' |}) /\
  (retries <= 0 ->
     forall f, onError = Some f ->
       let report := InvokeOnError f ChunkManager.notFoundMessage in
       log w' = log w ++ [ConsoleError ChunkManager.notFoundMessage; SetTimeout report 0] /\
       timers w' = timers w ++ [(report, 0)] /\
       step (TimerFires (length (timers w))) w'
       = {| manager := manager w;
            timers := timers w;
            log := log w' ++ [Invoke f (JsString ChunkManager.notFoundMessage)] |}) /\
  (retries <= 0 -> onError = None ->
     log w' = log w ++ [ConsoleError ChunkManager.notFoundMessage] /\
     timers w' = timers w).
Proof.
  intros Hmiss r w'.
  pose proof (loadChunk_miss (manager w) url onSuccess onError retries Hmiss) as Hrun.
  assert (Hstep : w' = {| manager := manager w;
                          timers := timers w ++ scheduled (ChunkManager.effects r);
                          log := log w ++ ChunkManager.effects r |}).
  { subst w' r. unfold step, perform. rewrite Hrun. reflexivity. }
  rewrite Hstep. subst r. rewrite Hrun. clear Hstep w'.
  unfold ChunkManager.outcome, ChunkManager.effects. cbn [fst snd manager timers log].
  split; [reflexivity|]. split; [reflexivity|]. split.
  { destruct (0 <? retries); [reflexivity|]. destruct onError; reflexivity. }
  destruct (Z.ltb_spec 0 retries) as [Hpos|Hneg]; (split; [|split]); try lia.
  - intros _. cbn zeta. simpl scheduled. split; [reflexivity|]. split; [reflexivity|].
    unfold step, perform. cbn [timers manager log].
    rewrite nth_error_last_added, remove_nth_last_added. reflexivity.
  - intros _ f ->. cbn zeta. simpl scheduled. split; [reflexivity|]. split; [reflexivity|].
    unfold step, perform, runTask, ChunkManager.emit. cbn [timers manager log].
    rewrite nth_error_last_added, remove_nth_last_added. simpl scheduled.
    rewrite app_nil_r. reflexivity.
  - intros _ ->. simpl scheduled. rewrite app_nil_r. split; reflexivity.
Qed.

(** *** Abort *)

(** C8: [abortChunk(u)] returns normally and calls nothing. When the active
    request is for [u] it clears the active request and leaves the playlists,
    the play queue and the last requested URL as they are, after which a
    loaded event for [u] invokes no callback and changes nothing (whatever
    the callback would have done); when there is no active request for [u]
    the manager stays as it is. *)
Theorem abortChunk_frame (this : ChunkManager.t) (u : string) :
  let r := ChunkManager.abortChunk u this in
  ChunkManager.outcome r = Return tt /\
  ChunkManager.effects r = [] /\
  (forall c, ChunkManager.chunk this = Some c -> Chunk.url c = u ->
     ChunkManager.state r = ChunkManager.set_chunk None this /\
     ChunkManager.playlists (ChunkManager.state r) = ChunkManager.playlists this /\
     ChunkManager.playQueue (ChunkManager.state r) = ChunkManager.playQueue this /\
     ChunkManager.prevLoadUrl (ChunkManager.state r) = ChunkManager.prevLoadUrl this /\
     forall file reaction, LoaderFile.url file = u ->
       ChunkManager.onFileLoaded file reaction (ChunkManager.state r)
       = (Return tt, ChunkManager.state r, [])) /\
  ((forall c, ChunkManager.chunk this = Some c -> Chunk.url c <> u) ->
     ChunkManager.state r = this).
Proof.
  intros r. subst r. unfold ChunkManager.abortChunk. unfold_monad.
  unfold ChunkManager.outcome, ChunkManager.effects, ChunkManager.state.
  destruct (ChunkManager.chunk this) as [c|] eqn:Hc.
  - destruct (String.eqb_spec (Chunk.url c) u) as [Heq|Hne]; cbn [fst snd app].
    + split; [reflexivity|]. split; [reflexivity|]. split.
      * intros c' _ _. do 4 (split; [reflexivity|]).
        intros file reaction Hfile. unfold ChunkManager.onFileLoaded. unfold_monad.
        reflexivity.
      * intros H. elim (H c eq_refl Heq).
    + split; [reflexivity|]. split; [reflexivity|]. split.
      * intros c' [= <-] Hu. contradiction.
      * reflexivity.
  - cbn [fst snd]. split; [reflexivity|]. split; [reflexivity|]. split.
    + intros c' Hc'. discriminate.
    + reflexivity.
Qed.

(** *** Play-sequence tracker *)

Lemma nth_error_last {A : Type} (front : list A) (x : A) :
  nth_error (front ++ [x]) (length (front ++ [x]) - 1) = Some x.
Proof.
  rewrite length_app. simpl length.
  replace (length front + 1 - 1)%nat with (length front) by lia.
  apply nth_error_last_added.
Qed.

Lemma sequenceBreak_last (this : ChunkManager.t) (front : list string)
    (prevChunkUrl : string) (i : Z) :
  ChunkManager.playQueue this = front ++ [prevChunkUrl] ->
  sequenceBreak this i
  = match ChunkManager.playlist
            (ChunkManager.getChunkLocation this (Some prevChunkUrl)) with
    | Some _ =>
        negb (ChunkManager.chunkIndex
                (ChunkManager.getChunkLocation this (Some prevChunkUrl)) =? i - 1)
    | None => false
    end.
Proof.
  intros Hq. unfold sequenceBreak. rewrite Hq, nth_error_last.
  rewrite length_app. simpl length.
  destruct (Z.ltb_spec 0 (Z.of_nat (length front + 1))); [reflexivity | lia].
Qed.

(** C10: when the play queue is not empty and its most recent element locates
    in no known playlist, a request whose own URL locates leaves the play
    queue as it is, whatever the index of the requested chunk. *)
Theorem loadChunk_keeps_queue_when_last_unknown (this : ChunkManager.t) (url : string)
    (onSuccess onError : option Callback) (retries : Z)
    (front : list string) (prevChunkUrl : string) (p : Playlist.t) (i : Z) :
  ChunkManager.playQueue this = front ++ [prevChunkUrl] ->
  ChunkManager.playlist (ChunkManager.getChunkLocation this (Some prevChunkUrl)) = None ->
  ChunkManager.getChunkLocation this (Some url)
  = {| ChunkManager.playlist := Some p; ChunkManager.chunkIndex := i |} ->
  ChunkManager.playQueue
    (ChunkManager.state (ChunkManager.loadChunk url onSuccess onError retries this))
  = ChunkManager.playQueue this.
Proof.
  intros Hq Hprev Hloc.
  destruct (loadChunk_located this url onSuccess onError retries p i Hloc)
    as [files [Hrun _]].
  rewrite Hrun. unfold ChunkManager.state. cbn [fst snd ChunkManager.playQueue].
  rewrite (sequenceBreak_last this front prevChunkUrl i Hq), Hprev. reflexivity.
Qed.

(** C2, as the code has it: on a request that locates at index [i] while the
    play queue is not empty, the queue is emptied, and the batch is built at
    priority base 0, when the last element of the queue locates in some known
    playlist at an index other than [i - 1]; the queue is left as it is when
    that element locates at index [i - 1], in whichever playlist, and when it
    does not locate at all. *)
Theorem loadChunk_sequence_check (this : ChunkManager.t) (url : string)
    (onSuccess onError : option Callback) (retries : Z)
    (front : list string) (prevChunkUrl : string) (p : Playlist.t) (i : Z) :
  ChunkManager.playQueue this = front ++ [prevChunkUrl] ->
  ChunkManager.getChunkLocation this (Some url)
  = {| ChunkManager.playlist := Some p; ChunkManager.chunkIndex := i |} ->
  let prev := ChunkManager.getChunkLocation this (Some prevChunkUrl) in
  let r := ChunkManager.loadChunk url onSuccess onError retries this in
  (ChunkManager.playlist prev <> None -> ChunkManager.chunkIndex prev <> i - 1 ->
     ChunkManager.playQueue (ChunkManager.state r) = [] /\
     priorityBase (ChunkManager.playQueue (ChunkManager.state r)) = 0 /\
     exists files,
       ChunkManager.effects r
       = [LoaderLoad files (ChunkManager.getSwarmId this p) (Some url)] /\
       forwardBatch p i 0 files) /\
  (ChunkManager.playlist prev <> None -> ChunkManager.chunkIndex prev = i - 1 ->
     ChunkManager.playQueue (ChunkManager.state r) = ChunkManager.playQueue this) /\
  (ChunkManager.playlist prev = None ->
     ChunkManager.playQueue (ChunkManager.state r) = ChunkManager.playQueue this).
Proof.
  intros Hq Hloc prev r.
  destruct (loadChunk_located this url onSuccess onError retries p i Hloc)
    as [files [Hrun Hbatch]].
  subst r. rewrite Hrun. clear Hrun.
  unfold ChunkManager.state, ChunkManager.effects. cbn [fst snd ChunkManager.playQueue].
  rewrite (sequenceBreak_last this front prevChunkUrl i Hq) in *. fold prev in Hbatch |- *.
  destruct (ChunkManager.playlist prev) as [q|].
  - destruct (Z.eqb_spec (ChunkManager.chunkIndex prev) (i - 1)) as [Heq|Hne];
      cbn [negb] in *.
    + repeat split; try reflexivity; intros; try contradiction; congruence.
    + split; [|split]; intros; try contradiction; try congruence.
      split; [reflexivity|]. split; [reflexivity|].
      exists files. split; [reflexivity | exact Hbatch].
  - split; [|split]; intros; congruence.
Qed.

(** *** Swarm resolver *)

Lemma getSwarmId_loop_first (urls : list string) (target : string) (k i : nat) :
  nth_error urls k = Some target ->
  (forall j, (j < k)%nat -> nth_error urls j <> Some target) ->
  ChunkManager.getSwarmId_loop urls target i = Some (i + k)%nat.
Proof.
  revert k i. induction urls as [|u urls IH]; intros k i Hk Hfirst.
  - destruct k; discriminate.
  - simpl. destruct k as [|k].
    + injection Hk as ->. rewrite String.eqb_refl. f_equal. lia.
    + destruct (String.eqb_spec u target) as [->|Hne].
      * elim (Hfirst 0%nat); [lia | reflexivity].
      * rewrite (IH k (S i)); [f_equal; lia | exact Hk |].
        intros j Hj. apply (Hfirst (S j)). lia.
Qed.

Lemma getSwarmId_loop_absent (urls : list string) (target : string) (i : nat) :
  ~ In target urls -> ChunkManager.getSwarmId_loop urls target i = None.
Proof.
  revert i. induction urls as [|u urls IH]; intros i Hin; simpl.
  - reflexivity.
  - destruct (String.eqb_spec u target) as [->|Hne].
    + elim Hin. left. reflexivity.
    + apply IH. intros H. apply Hin. right. exact H.
Qed.

(** C4, as the code has it: for a playlist other than the master whose URL
    first appears at position [k] of the master's child URL list, the swarm
    id is the master's URL, "+", and [k]; the swarm id is the playlist's own
    URL when it has the master's URL, when no master is registered, and when
    its URL is not among the master's children. *)
Theorem getSwarmId_resolves (this : ChunkManager.t) (playlist : Playlist.t) :
  (forall master k,
      ChunkManager.getMasterPlaylist this = Some master ->
      Playlist.url master <> Playlist.url playlist ->
      nth_error (Playlist.getChildPlaylistAbsoluteUrls master) k
      = Some (Playlist.url playlist) ->
      (forall j, (j < k)%nat ->
                 nth_error (Playlist.getChildPlaylistAbsoluteUrls master) j
                 <> Some (Playlist.url playlist)) ->
      ChunkManager.getSwarmId this playlist
      = (Playlist.url master ++ "+" ++ toString k)%string) /\
  (forall master,
      ChunkManager.getMasterPlaylist this = Some master ->
      Playlist.url master = Playlist.url playlist ->
      ChunkManager.getSwarmId this playlist = Playlist.url playlist) /\
  (ChunkManager.getMasterPlaylist this = None ->
      ChunkManager.getSwarmId this playlist = Playlist.url playlist) /\
  (forall master,
      ChunkManager.getMasterPlaylist this = Some master ->
      ~ In (Playlist.url playlist) (Playlist.getChildPlaylistAbsoluteUrls master) ->
      ChunkManager.getSwarmId this playlist = Playlist.url playlist).
Proof.
  unfold ChunkManager.getSwarmId. split; [|split; [|split]].
  - intros master k Hm Hne Hk Hfirst. rewrite Hm.
    destruct (String.eqb_spec (Playlist.url master) (Playlist.url playlist));
      [contradiction|]. cbn [negb].
    rewrite (getSwarmId_loop_first _ _ k 0 Hk Hfirst). reflexivity.
  - intros master Hm Heq. rewrite Hm, Heq, String.eqb_refl. reflexivity.
  - intros Hm. rewrite Hm. reflexivity.
  - intros master Hm Hin. rewrite Hm, (getSwarmId_loop_absent _ _ 0 Hin).
    destruct (negb _); reflexivity.
Qed.

(** *** Chunk locator *)

Lemma Map_set_values_In {V : Type} (m : list (string * V)) (k : string) (v : V) :
  In v (Map_values (Map_set m k v)).
Proof.
  induction m as [|[k' v'] m IH]; simpl.
  - left. reflexivity.
  - destruct (String.eqb k' k); simpl; [left; reflexivity | right; exact IH].
Qed.

(** When a registered playlist is the only one that holds a URL, the scan
    answers that playlist. *)
Lemma getChunkLocation_scan_only (values : list Playlist.t) (p : Playlist.t) (url : string) :
  In p values ->
  0 <= Playlist.getChunkIndex p url ->
  (forall q, In q values -> 0 <= Playlist.getChunkIndex q url -> q = p) ->
  ChunkManager.getChunkLocation_scan values url
  = {| ChunkManager.playlist := Some p;
       ChunkManager.chunkIndex := Playlist.getChunkIndex p url |}.
Proof.
  intros Hin Hp Honly. induction values as [|q values IH]; [contradiction|].
  simpl. destruct (Z.leb_spec 0 (Playlist.getChunkIndex q url)) as [Hq|Hq].
  - rewrite (Honly q (or_introl eq_refl) Hq). reflexivity.
  - apply IH.
    + destruct Hin as [->|Hin]; [lia | exact Hin].
    + intros q' Hq'. apply Honly. right. exact Hq'.
Qed.

(** C3, as the code has it: after [processHlsPlaylist(url, content)] has
    registered a playlist, locating the absolute URL of its segment [i]
    answers that playlist and [i], provided no earlier segment of the
    playlist has the same absolute URL and no other registered playlist
    holds that URL (the empty string not being an absolute URL for
    [isAbsoluteUrl]). *)
Theorem processHlsPlaylist_then_locate (this : ChunkManager.t) (url content : string)
    (p : Playlist.t) (i : Z) (u : string) :
  isAbsoluteUrl EmptyString = false ->
  Playlist.new url (m3u8_parse content) = Return p ->
  let r := ChunkManager.processHlsPlaylist url content this in
  Playlist.getChunkAbsoluteUrl p i = Some u ->
  (forall j, j < i -> Playlist.getChunkAbsoluteUrl p j <> Some u) ->
  (forall q, In q (Map_values (ChunkManager.playlists (ChunkManager.state r))) ->
             0 <= Playlist.getChunkIndex q u -> q = p) ->
  ChunkManager.outcome r = Return tt /\
  In (url, p) (ChunkManager.playlists (ChunkManager.state r)) /\
  ChunkManager.getChunkLocation (ChunkManager.state r) (Some u)
  = {| ChunkManager.playlist := Some p; ChunkManager.chunkIndex := i |}.
Proof.
  intros Hempty Hnew r Hi Hfirst Honly.
  assert (Hrun : r = (Return tt,
                      ChunkManager.set_playlists
                        (Map_set (ChunkManager.playlists this) url p) this, [])).
  { subst r. unfold ChunkManager.processHlsPlaylist. unfold_monad.
    rewrite Hnew. reflexivity. }
  rewrite Hrun in *. clear Hrun r.
  unfold ChunkManager.outcome, ChunkManager.state in *.
  cbn [fst snd ChunkManager.set_playlists ChunkManager.playlists] in *.
  split; [reflexivity|]. split.
  { clear. induction (ChunkManager.playlists this) as [|[k' v'] m IH]; simpl.
    - left. reflexivity.
    - destruct (String.eqb k' url); simpl; [left; reflexivity | right; exact IH]. }
  assert (Hidx : Playlist.getChunkIndex p u = i) by (apply getChunkIndex_first; assumption).
  assert (Hu : u <> EmptyString).
  { destruct (Playlist_new_inv _ _ _ Hnew) as [_ [_ Hbase]].
    unfold Playlist.getChunkAbsoluteUrl in Hi.
    destruct (i <? 0); [discriminate|].
    destruct (nth_error _ _) as [segment|]; [|discriminate].
    injection Hi as <-.
    destruct (isAbsoluteUrl (Manifest.uri segment)) eqn:Habs.
    - intros Hnil. rewrite Hnil in Habs. congruence.
    - apply append_nonempty. exact Hbase. }
  unfold ChunkManager.getChunkLocation. simpl truthy.
  destruct (String.eqb_spec u "") as [->|_]; [congruence|]. cbn [negb].
  cbn [ChunkManager.playlists].
  rewrite (getChunkLocation_scan_only _ p u); [rewrite Hidx; reflexivity | | | exact Honly].
  - apply Map_set_values_In.
  - apply getChunkAbsoluteUrl_Some_range in Hi. lia.
Qed.

(** *** Resuming from the last requested chunk *)

Lemma indexOf_from_first (before after : list string) (x : string) (i : Z) :
  ~ In x before ->
  indexOf_from (before ++ x :: after) x i = i + Z.of_nat (length before).
Proof.
  revert i. induction before as [|y before IH]; intros i Hin; simpl.
  - rewrite String.eqb_refl. lia.
  - destruct (String.eqb_spec y x) as [->|Hne].
    + elim Hin. left. reflexivity.
    + rewrite IH; [lia|]. intros H. apply Hin. right. exact H.
Qed.

Lemma indexOf_from_absent (l : list string) (x : string) (i : Z) :
  ~ In x l -> indexOf_from l x i = -1.
Proof.
  revert i. induction l as [|y l IH]; intros i Hin; simpl.
  - reflexivity.
  - destruct (String.eqb_spec y x) as [->|Hne].
    + elim Hin. left. reflexivity.
    + apply IH. intros H. apply Hin. right. exact H.
Qed.

Lemma trimQueue_trimmed (queue : list string) (u : string) :
  trimmed queue u (trimQueue queue u).
Proof.
  unfold trimmed, trimQueue, indexOf, slice. split.
  - intros before after -> Hin. rewrite indexOf_from_first by exact Hin.
    destruct (Z.ltb_spec (0 + Z.of_nat (length before)) 0); [lia|].
    replace (Z.to_nat (0 + Z.of_nat (length before))) with (length before + 0)%nat by lia.
    rewrite skipn_app, Nat.add_0_r, skipn_all, Nat.sub_diag. reflexivity.
  - intros Hin. rewrite indexOf_from_absent by exact Hin. reflexivity.
Qed.

Lemma setCurrentChunk_run (this : ChunkManager.t) (u : string) :
  u <> EmptyString ->
  let this1 := ChunkManager.set_playQueue (trimQueue (ChunkManager.playQueue this) u) this in
  let location := ChunkManager.getChunkLocation this (ChunkManager.prevLoadUrl this) in
  (exists p files,
      ChunkManager.playlist location = Some p /\
      ChunkManager.setCurrentChunk (Some u) this
      = (Return tt, this1, [LoaderLoad files (ChunkManager.getSwarmId this p) None]) /\
      forwardBatch p (ChunkManager.chunkIndex location)
                   (priorityBase (ChunkManager.playQueue this1)) files)
  \/
  (ChunkManager.playlist location = None /\
   ChunkManager.setCurrentChunk (Some u) this = (Return tt, this1, [])).
Proof.
  intros Hu this1 location.
  assert (Hstep : ChunkManager.setCurrentChunk (Some u) this
    = if truthy (ChunkManager.prevLoadUrl this) then
        match ChunkManager.playlist location with
        | Some p => ChunkManager.loadFiles p (ChunkManager.chunkIndex location) None this1
        | None => (Return tt, this1, [])
        end
      else (Return tt, this1, [])).
  { unfold ChunkManager.setCurrentChunk.
    assert (Ht : truthy (Some u) = true).
    { unfold truthy. destruct (String.eqb_spec u ""); [contradiction | reflexivity]. }
    rewrite Ht. clear Ht.
    rewrite (bind_pure this this this ChunkManager.get _ eq_refl).
    rewrite (bind_pure tt this this1).
    2:{ subst this1. unfold trimQueue. destruct this.
        cbn [ChunkManager.playQueue]. destruct (indexOf _ u <? 0); reflexivity. }
    rewrite (bind_pure this1 this1 this1 ChunkManager.get _ eq_refl).
    change (ChunkManager.prevLoadUrl this1) with (ChunkManager.prevLoadUrl this).
    rewrite (getChunkLocation_playlists this this1 _ eq_refl). fold location.
    destruct (truthy _); [|reflexivity].
    destruct (ChunkManager.playlist location); reflexivity. }
  rewrite Hstep. clear Hstep.
  destruct (ChunkManager.playlist location) as [p|] eqn:Hp.
  - left. destruct (getChunkLocation_Some _ _ _ Hp) as [v [Hv [Hne [_ [Hidx [Hrange _]]]]]].
    fold location in Hidx.
    destruct (loadFiles_submits this1 p (ChunkManager.chunkIndex location) None)
      as [files [Hrun Hbatch]]; [lia|].
    exists p, files. split; [reflexivity|]. split; [|exact Hbatch].
    rewrite Hv.
    assert (Ht : truthy (Some v) = true).
    { unfold truthy. destruct (String.eqb_spec v ""); [contradiction | reflexivity]. }
    rewrite Ht, Hrun. reflexivity.
  - right. split; [reflexivity|]. destruct (truthy _); reflexivity.
Qed.

Lemma processHlsPlaylist_run (this : ChunkManager.t) (url content : string) :
  exists o playlists',
    ChunkManager.processHlsPlaylist url content this
    = (o, ChunkManager.set_playlists playlists' this, []).
Proof.
  unfold ChunkManager.processHlsPlaylist. unfold_monad.
  destruct (Playlist.new url (m3u8_parse content)) as [p|e].
  - eexists _, _. reflexivity.
  - exists (Throw e), (ChunkManager.playlists this). destruct this. reflexivity.
Qed.

Lemma abortChunk_run (this : ChunkManager.t) (url : string) :
  ChunkManager.abortChunk url this
  = (Return tt,
     if activeFor this url then ChunkManager.set_chunk None this else this, []).
Proof.
  unfold ChunkManager.abortChunk, activeFor. unfold_monad.
  destruct (ChunkManager.chunk this) as [c|]; [|reflexivity].
  destruct (String.eqb (Chunk.url c) url); reflexivity.
Qed.

Lemma tryCatch_swallow (m : ChunkManager.M unit) (this : ChunkManager.t) :
  ChunkManager.tryCatch m (fun _ => ChunkManager.ret tt) this
  = (Return tt, ChunkManager.state (m this), ChunkManager.effects (m this)).
Proof.
  unfold ChunkManager.tryCatch, ChunkManager.state, ChunkManager.effects, ChunkManager.ret.
  destruct (m this) as [[[[]|e] this'] out]; cbn [fst snd]; [reflexivity|].
  rewrite app_nil_r. reflexivity.
Qed.

Lemma callAll_cons (c : PublicCall) (cs : list PublicCall) (this : ChunkManager.t) :
  ChunkManager.callAll (c :: cs) this
  = (Return tt,
     ChunkManager.state
       (ChunkManager.callAll cs (ChunkManager.state (ChunkManager.call c this))),
     ChunkManager.effects (ChunkManager.call c this)
       ++ ChunkManager.effects
            (ChunkManager.callAll cs (ChunkManager.state (ChunkManager.call c this)))).
Proof.
  revert c this. induction cs as [|c' cs IH]; intros c this.
  - cbn [ChunkManager.callAll]. unfold ChunkManager.bind. rewrite tryCatch_swallow.
    reflexivity.
  - change (ChunkManager.callAll (c :: c' :: cs))
      with (ChunkManager.bind
              (ChunkManager.tryCatch (ChunkManager.call c) (fun _ => ChunkManager.ret tt))
              (fun _ => ChunkManager.callAll (c' :: cs))).
    unfold ChunkManager.bind at 1. rewrite tryCatch_swallow.
    rewrite (IH c' (ChunkManager.state (ChunkManager.call c this))). reflexivity.
Qed.

Lemma callAll_outcome (cs : list PublicCall) (this : ChunkManager.t) :
  ChunkManager.outcome (ChunkManager.callAll cs this) = Return tt.
Proof.
  destruct cs as [|c cs]; [reflexivity | rewrite callAll_cons; reflexivity].
Qed.

(** What every call keeps, the calls of a callback keep. *)
Lemma callAll_keeps (P : ChunkManager.t -> Prop) (cs : list PublicCall) :
  (forall c this, P this -> P (ChunkManager.state (ChunkManager.call c this))) ->
  forall this, P this -> P (ChunkManager.state (ChunkManager.callAll cs this)).
Proof.
  intros Hcall. induction cs as [|c cs IH]; intros this H.
  - exact H.
  - rewrite callAll_cons. unfold ChunkManager.state at 1. cbn [fst snd].
    apply IH, Hcall, H.
Qed.

Lemma invoke_run (f : Callback) (arg : JsValue) (reaction : Reaction)
    (this : ChunkManager.t) :
  ChunkManager.invoke f arg reaction this
  = (match thrown reaction with Some e => Throw e | None => Return tt end,
     ChunkManager.state (ChunkManager.callAll (calls reaction) this),
     Invoke f arg :: ChunkManager.effects (ChunkManager.callAll (calls reaction) this)).
Proof.
  unfold ChunkManager.invoke.
  unfold ChunkManager.bind at 1. unfold ChunkManager.emit at 1.
  unfold ChunkManager.bind.
  pose proof (callAll_outcome (calls reaction) this) as Ho.
  unfold ChunkManager.outcome, ChunkManager.state, ChunkManager.effects in *.
  destruct (ChunkManager.callAll (calls reaction) this) as [[o this'] out].
  cbn [fst snd] in *. subst o.
  destruct (thrown reaction); unfold ChunkManager.throw, ChunkManager.ret;
    rewrite app_nil_r; reflexivity.
Qed.

Lemma bind_settle (f : Callback) (arg : JsValue) (reaction : Reaction)
    (this : ChunkManager.t) :
  ChunkManager.bind (ChunkManager.invoke f arg reaction)
    (fun _ => ChunkManager.modify (ChunkManager.set_chunk None)) this
  = settle f arg reaction this.
Proof.
  unfold ChunkManager.bind, settle. rewrite invoke_run.
  destruct (thrown reaction); unfold ChunkManager.modify; [reflexivity|].
  rewrite app_nil_r. reflexivity.
Qed.

Lemma onFileLoaded_run (this : ChunkManager.t) (file : LoaderFile.t) (reaction : Reaction) :
  ChunkManager.onFileLoaded file reaction this
  = if activeFor this (LoaderFile.url file) then
      let pushed :=
        ChunkManager.set_playQueue
          (ChunkManager.playQueue this ++ [LoaderFile.url file]) this in
      match ChunkManager.chunk this with
      | Some c =>
          match Chunk.onSuccess c with
          | Some f => settle f (LoaderFile.data file) reaction pushed
          | None => (Return tt, ChunkManager.set_chunk None pushed, [])
          end
      | None => (Return tt, this, [])
      end
    else (Return tt, this, []).
Proof.
  unfold ChunkManager.onFileLoaded, activeFor.
  rewrite (bind_pure this this this ChunkManager.get _ eq_refl).
  destruct (ChunkManager.chunk this) as [c|]; [|reflexivity].
  destruct (String.eqb (Chunk.url c) (LoaderFile.url file)); [|reflexivity].
  rewrite (bind_pure tt this _ _ _ eq_refl).
  destruct (Chunk.onSuccess c) as [f|]; [apply bind_settle | reflexivity].
Qed.

Lemma onFileError_run (this : ChunkManager.t) (url : string) (error : JsValue)
    (reaction : Reaction) :
  ChunkManager.onFileError url error reaction this
  = if activeFor this url then
      match ChunkManager.chunk this with
      | Some c =>
          match Chunk.onError c with
          | Some f => settle f error reaction this
          | None => (Return tt, ChunkManager.set_chunk None this, [])
          end
      | None => (Return tt, this, [])
      end
    else (Return tt, this, []).
Proof.
  unfold ChunkManager.onFileError, activeFor.
  rewrite (bind_pure this this this ChunkManager.get _ eq_refl).
  destruct (ChunkManager.chunk this) as [c|]; [|reflexivity].
  destruct (String.eqb (Chunk.url c) url); [|reflexivity].
  destruct (Chunk.onError c) as [f|]; [apply bind_settle | reflexivity].
Qed.

Lemma onFileAbort_run (this : ChunkManager.t) (url : string) (reaction : Reaction) :
  ChunkManager.onFileAbort url reaction this
  = if activeFor this url then
      match ChunkManager.chunk this with
      | Some c =>
          match Chunk.onError c with
          | Some f => settle f (JsString "Loading aborted") reaction this
          | None => (Return tt, ChunkManager.set_chunk None this, [])
          end
      | None => (Return tt, this, [])
      end
    else (Return tt, this, []).
Proof.
  unfold ChunkManager.onFileAbort, activeFor.
  rewrite (bind_pure this this this ChunkManager.get _ eq_refl).
  destruct (ChunkManager.chunk this) as [c|]; [|reflexivity].
  destruct (String.eqb (Chunk.url c) url); [|reflexivity].
  destruct (Chunk.onError c) as [f|]; [apply bind_settle | reflexivity].
Qed.

Lemma loadChunk_run (this : ChunkManager.t) (url : string)
    (onSuccess onError : option Callback) (retries : Z) :
  (exists out,
      ChunkManager.loadChunk url onSuccess onError retries this = (Return tt, this, out))
  \/
  (exists queue' files swarmId,
      ChunkManager.loadChunk url onSuccess onError retries this
      = (Return tt,
         {| ChunkManager.playlists := ChunkManager.playlists this;
            ChunkManager.chunk := Some (Chunk.new url onSuccess onError);
            ChunkManager.prevLoadUrl := Some url;
            ChunkManager.playQueue := queue' |},
         [LoaderLoad files swarmId (Some url)])).
Proof.
  destruct (ChunkManager.getChunkLocation this (Some url)) as [[p|] i] eqn:Hloc.
  - right. destruct (loadChunk_located this url onSuccess onError retries p i Hloc)
      as [files [Hrun _]]. eauto.
  - left. rewrite loadChunk_miss by (rewrite Hloc; reflexivity). eauto.
Qed.

Lemma perform_manager (m : ChunkManager.M unit) (w : World) :
  manager (perform m w) = ChunkManager.state (m (manager w)).
Proof.
  unfold perform, ChunkManager.state. destruct (m (manager w)) as [[o s] out]. reflexivity.
Qed.

Lemma loadChunk_tracked (this : ChunkManager.t) (url : string)
    (onSuccess onError : option Callback) (retries : Z) :
  tracked this ->
  tracked (ChunkManager.state (ChunkManager.loadChunk url onSuccess onError retries this)).
Proof.
  intros H.
  destruct (loadChunk_run this url onSuccess onError retries)
    as [[out Hrun]|[queue' [files [swarmId Hrun]]]]; rewrite Hrun.
  - exact H.
  - unfold tracked, ChunkManager.state. simpl. discriminate.
Qed.

Lemma call_tracked (c : PublicCall) (this : ChunkManager.t) :
  tracked this -> tracked (ChunkManager.state (ChunkManager.call c this)).
Proof.
  intros H. destruct c as [url content|url s e r|url|url]; cbn [ChunkManager.call].
  - destruct (processHlsPlaylist_run this url content) as [o [pls Hrun]].
    rewrite Hrun. exact H.
  - apply loadChunk_tracked. exact H.
  - destruct url as [u|]; [|exact H].
    destruct (String.eqb_spec u "") as [->|Hu]; [exact H|].
    destruct (setCurrentChunk_run this u Hu)
      as [[p [files [_ [Hrun _]]]]|[_ Hrun]]; rewrite Hrun;
      unfold tracked, ChunkManager.state in *; simpl; intros Hprev;
      destruct (H Hprev) as [Hc Hq]; rewrite Hq; auto.
  - rewrite abortChunk_run. unfold tracked, ChunkManager.state in *. simpl.
    destruct (activeFor this url); [|exact H]. simpl.
    intros Hprev. destruct (H Hprev). auto.
Qed.

Lemma call_recorded (c : PublicCall) (this : ChunkManager.t) :
  ChunkManager.prevLoadUrl this <> None ->
  ChunkManager.prevLoadUrl (ChunkManager.state (ChunkManager.call c this)) <> None.
Proof.
  intros H. destruct c as [url content|url s e r|url|url]; cbn [ChunkManager.call].
  - destruct (processHlsPlaylist_run this url content) as [o [pls Hrun]].
    rewrite Hrun. exact H.
  - destruct (loadChunk_run this url s e r)
      as [[out Hrun]|[queue' [files [swarmId Hrun]]]]; rewrite Hrun;
      [exact H | discriminate].
  - destruct url as [u|]; [|exact H].
    destruct (String.eqb_spec u "") as [->|Hu]; [exact H|].
    destruct (setCurrentChunk_run this u Hu)
      as [[p [files [_ [Hrun _]]]]|[_ Hrun]]; rewrite Hrun; exact H.
  - rewrite abortChunk_run. destruct (activeFor this url); exact H.
Qed.

(** The state a handler leaves when it finds its request active. *)
Lemma settle_state (f : Callback) (arg : JsValue) (reaction : Reaction)
    (this : ChunkManager.t) :
  ChunkManager.state (settle f arg reaction this)
  = match thrown reaction with
    | Some _ => ChunkManager.state (ChunkManager.callAll (calls reaction) this)
    | None =>
        ChunkManager.set_chunk None
          (ChunkManager.state (ChunkManager.callAll (calls reaction) this))
    end.
Proof. unfold settle. destruct (thrown reaction); reflexivity. Qed.

Lemma settle_recorded (f : Callback) (arg : JsValue) (reaction : Reaction)
    (this : ChunkManager.t) :
  ChunkManager.prevLoadUrl this <> None ->
  ChunkManager.prevLoadUrl (ChunkManager.state (settle f arg reaction this)) <> None.
Proof.
  intros H. rewrite settle_state.
  pose proof (callAll_keeps (fun t => ChunkManager.prevLoadUrl t <> None)
                (calls reaction) call_recorded this H) as Hk.
  destruct (thrown reaction); exact Hk.
Qed.

Lemma active_recorded (this : ChunkManager.t) (url : string) :
  tracked this -> activeFor this url = true -> ChunkManager.prevLoadUrl this <> None.
Proof.
  unfold activeFor. intros H Ha Hprev. destruct (H Hprev) as [Hc _].
  rewrite Hc in Ha. discriminate.
Qed.

Lemma recorded_tracked (this : ChunkManager.t) :
  ChunkManager.prevLoadUrl this <> None -> tracked this.
Proof. intros H Hprev. contradiction. Qed.

Lemma step_tracked (ev : Event) (w : World) :
  tracked (manager w) -> tracked (manager (step ev w)).
Proof.
  intros H. destruct ev; unfold step; try rewrite perform_manager.
  - exact (call_tracked (DoProcessHlsPlaylist url content) _ H).
  - exact H.
  - exact (call_tracked (DoLoadChunk url onSuccess onError playlistMissRetries) _ H).
  - exact (call_tracked (DoSetCurrentChunk url) _ H).
  - exact (call_tracked (DoAbortChunk url) _ H).
  - rewrite onFileLoaded_run.
    destruct (activeFor (manager w) (LoaderFile.url file)) eqn:Ha; [|exact H].
    pose proof (active_recorded _ _ H Ha) as Hreq. cbv zeta.
    destruct (ChunkManager.chunk (manager w)) as [c|]; [|exact H].
    apply recorded_tracked.
    destruct (Chunk.onSuccess c); [apply settle_recorded|]; exact Hreq.
  - rewrite onFileError_run.
    destruct (activeFor (manager w) url) eqn:Ha; [|exact H].
    pose proof (active_recorded _ _ H Ha) as Hreq.
    destruct (ChunkManager.chunk (manager w)) as [c|]; [|exact H].
    apply recorded_tracked.
    destruct (Chunk.onError c); [apply settle_recorded|]; exact Hreq.
  - rewrite onFileAbort_run.
    destruct (activeFor (manager w) url) eqn:Ha; [|exact H].
    pose proof (active_recorded _ _ H Ha) as Hreq.
    destruct (ChunkManager.chunk (manager w)) as [c|]; [|exact H].
    apply recorded_tracked.
    destruct (Chunk.onError c); [apply settle_recorded|]; exact Hreq.
  - destruct (nth_error (timers w) k) as [[task d]|]; [|exact H].
    rewrite perform_manager. cbn [manager]. destruct task; simpl runTask.
    + apply loadChunk_tracked. exact H.
    + exact H.
Qed.

Lemma run_tracked (evs : list Event) (w : World) :
  tracked (manager w) -> tracked (manager (run evs w)).
Proof.
  revert w. induction evs as [|ev evs IH]; intros w H; simpl.
  - exact H.
  - apply IH, step_tracked, H.
Qed.

Lemma initial_tracked : tracked (manager initial).
Proof. unfold tracked. simpl. auto. Qed.

(** C7, as the code has it: [setCurrentChunk(url)] returns normally and
    leaves the active chunk request, the playlists and the last requested URL
    as they are. Without a URL (absent or empty) it does nothing at all. With
    one, the play queue becomes its suffix from the first occurrence of the
    URL, or stays as it is when the URL is not in it; then, when the last
    requested URL still locates in a known playlist, the forward batch from
    that location goes to the loader, at the priority base of the trimmed
    queue and without a hint, and nothing is submitted when there is no last
    requested URL or it locates no more. In a state the manager can reach,
    the call does nothing when no request was made before. *)
Theorem setCurrentChunk_resumes (this : ChunkManager.t) (url : option string) :
  let r := ChunkManager.setCurrentChunk url this in
  ChunkManager.outcome r = Return tt /\
  ChunkManager.chunk (ChunkManager.state r) = ChunkManager.chunk this /\
  ChunkManager.playlists (ChunkManager.state r) = ChunkManager.playlists this /\
  ChunkManager.prevLoadUrl (ChunkManager.state r) = ChunkManager.prevLoadUrl this /\
  (truthy url = false ->
     ChunkManager.state r = this /\ ChunkManager.effects r = []) /\
  (forall u, url = Some u -> u <> EmptyString ->
     trimmed (ChunkManager.playQueue this) u (ChunkManager.playQueue (ChunkManager.state r)) /\
     (forall last p i,
         ChunkManager.prevLoadUrl this = Some last ->
         ChunkManager.getChunkLocation this (Some last)
         = {| ChunkManager.playlist := Some p; ChunkManager.chunkIndex := i |} ->
         exists files,
           ChunkManager.effects r
           = [LoaderLoad files (ChunkManager.getSwarmId this p) None] /\
           forwardBatch p i
             (priorityBase (ChunkManager.playQueue (ChunkManager.state r))) files) /\
     (ChunkManager.playlist
        (ChunkManager.getChunkLocation this (ChunkManager.prevLoadUrl this)) = None ->
      ChunkManager.effects r = [])) /\
  (forall evs, this = manager (run evs initial) ->
     ChunkManager.prevLoadUrl this = None ->
     ChunkManager.state r = this /\ ChunkManager.effects r = []).
Proof.
  intros r.
  assert (Hquiet : truthy url = false -> r = (Return tt, this, [])).
  { subst r. destruct url as [u|]; [|reflexivity].
    unfold ChunkManager.setCurrentChunk. intros ->. reflexivity. }
  destruct (truthy url) eqn:Ht.
  - destruct url as [u|]; [|discriminate].
    assert (Hu : u <> EmptyString).
    { intros ->. discriminate. }
    pose proof (trimQueue_trimmed (ChunkManager.playQueue this) u) as Htrim.
    destruct (setCurrentChunk_run this u Hu)
      as [[p [files [Hp [Hrun Hbatch]]]]|[Hp Hrun]];
      subst r; rewrite Hrun; clear Hrun;
      unfold ChunkManager.outcome, ChunkManager.state, ChunkManager.effects;
      cbn [fst snd ChunkManager.set_playQueue ChunkManager.chunk ChunkManager.playlists
           ChunkManager.prevLoadUrl ChunkManager.playQueue] in *.
    + do 4 (split; [reflexivity|]). split; [discriminate|]. split.
      * intros u' [= <-] _. split; [exact Htrim|]. split.
        -- intros last p' i Hlast Hloc. rewrite Hlast, Hloc in *.
           cbn [ChunkManager.playlist ChunkManager.chunkIndex] in *.
           injection Hp as <-. exists files. split; [reflexivity | exact Hbatch].
        -- intros Hnone. congruence.
      * intros evs Hevs Hprev. rewrite Hprev in Hp. discriminate.
    + do 4 (split; [reflexivity|]). split; [discriminate|]. split.
      * intros u' [= <-] _. split; [exact Htrim|]. split.
        -- intros last p' i Hlast Hloc. rewrite Hlast, Hloc in Hp. discriminate.
        -- reflexivity.
      * intros evs Hevs Hprev.
        assert (Htr : tracked this).
        { rewrite Hevs. apply run_tracked, initial_tracked. }
        destruct (Htr Hprev) as [_ Hq]. split; [|reflexivity].
        rewrite Hq. destruct this as [pls ch prev q]. cbn in Hq. subst q.
        reflexivity.
  - rewrite (Hquiet eq_refl).
    unfold ChunkManager.outcome, ChunkManager.state, ChunkManager.effects. cbn [fst snd].
    do 4 (split; [reflexivity|]). split; [auto|]. split.
    + intros u -> Hu. unfold truthy in Ht.
      destruct (String.eqb_spec u ""); [contradiction | discriminate].
    + auto.
Qed.

(** *** Completion correlator *)

Lemma invocations_app (fs : list Callback) (a b : list Effect) :
  invocations fs (a ++ b) = (invocations fs a + invocations fs b)%nat.
Proof. unfold invocations. rewrite filter_app, length_app. reflexivity. Qed.

Lemma scheduled_app (a b : list Effect) : scheduled (a ++ b) = scheduled a ++ scheduled b.
Proof. unfold scheduled. apply flat_map_app. Qed.

Lemma touches_app (fs a b : list Callback) :
  touches fs (a ++ b) = touches fs a || touches fs b.
Proof. unfold touches. apply existsb_app. Qed.

Lemma touches_callbacks (fs : list Callback) (onSuccess onError : option Callback) :
  touches fs (callbacks onSuccess onError)
  = match onSuccess with Some f => memb f fs | None => false end
    || match onError with Some f => memb f fs | None => false end.
Proof.
  unfold callbacks. rewrite touches_app.
  destruct onSuccess, onError; simpl; rewrite ?orb_false_r; reflexivity.
Qed.

Lemma potential_perform (fs : list Callback) (m : ChunkManager.M unit) (w : World) :
  potential fs (perform m w)
  = (invocations fs (log w)
     + length (filter (fun t => touches fs (taskCallbacks (fst t))) (timers w))
     + gain fs (m (manager w)))%nat.
Proof.
  unfold potential, holders, gain, perform, ChunkManager.effects, ChunkManager.state.
  destruct (m (manager w)) as [[o this'] out]. cbn [manager timers log fst snd].
  rewrite invocations_app, filter_app, length_app. lia.
Qed.

Lemma gain_quiet (fs : list Callback) (o : Outcome unit) (this : ChunkManager.t)
    (out : list Effect) :
  invocations fs out = 0%nat -> scheduled out = [] ->
  gain fs (o, this, out) = Nat.b2n (touches fs (chunkCallbacks (ChunkManager.chunk this))).
Proof.
  intros Hi Hs. unfold gain, ChunkManager.effects, ChunkManager.state.
  cbn [fst snd]. rewrite Hi, Hs. reflexivity.
Qed.

Lemma gain_loadChunk (fs : list Callback) (this : ChunkManager.t) (url : string)
    (onSuccess onError : option Callback) (retries : Z) :
  (gain fs (ChunkManager.loadChunk url onSuccess onError retries this)
   <= Nat.b2n (touches fs (chunkCallbacks (ChunkManager.chunk this)))
      + Nat.b2n (touches fs (callbacks onSuccess onError)))%nat.
Proof.
  destruct (ChunkManager.getChunkLocation this (Some url)) as [[p|] i] eqn:Hloc.
  - destruct (loadChunk_located this url onSuccess onError retries p i Hloc)
      as [files [Hrun _]].
    rewrite Hrun, gain_quiet by reflexivity. cbn [ChunkManager.chunk chunkCallbacks Chunk.new
      Chunk.onSuccess Chunk.onError]. lia.
  - rewrite loadChunk_miss by (rewrite Hloc; reflexivity).
    unfold gain, ChunkManager.effects, ChunkManager.state. cbn [fst snd].
    destruct (0 <? retries).
    + unfold invocations.
      cbn [scheduled flat_map app filter length fst taskCallbacks Nat.add].
      destruct (touches fs (callbacks onSuccess onError)); simpl; lia.
    + rewrite touches_callbacks. unfold invocations. destruct onError as [f|];
        cbn [scheduled flat_map app filter length fst taskCallbacks Nat.add]; [|lia].
      unfold touches. cbn [existsb]. rewrite orb_false_r.
      destruct (memb f fs); simpl; [rewrite orb_true_r; simpl|]; lia.
Qed.

Lemma gain_setCurrentChunk (fs : list Callback) (this : ChunkManager.t) (url : option string) :
  gain fs (ChunkManager.setCurrentChunk url this)
  = Nat.b2n (touches fs (chunkCallbacks (ChunkManager.chunk this))).
Proof.
  destruct url as [u|]; [|reflexivity].
  destruct (String.eqb_spec u "") as [->|Hu]; [reflexivity|].
  destruct (setCurrentChunk_run this u Hu) as [[p [files [_ [Hrun _]]]]|[_ Hrun]];
    rewrite Hrun, gain_quiet; reflexivity.
Qed.

Lemma filter_remove_nth {A : Type} (f : A -> bool) (l : list A) (k : nat) (x : A) :
  nth_error l k = Some x ->
  length (filter f l) = (length (filter f (remove_nth k l)) + Nat.b2n (f x))%nat.
Proof.
  intros H. unfold remove_nth.
  destruct (nth_error_split l k H) as [l1 [l2 [-> Hlen]]]. subst k.
  rewrite firstn_app, Nat.sub_diag, firstn_all. simpl firstn. rewrite app_nil_r.
  replace (S (length l1)) with (length l1 + 1)%nat by lia.
  rewrite skipn_app, skipn_all2 by lia.
  replace (length l1 + 1 - length l1)%nat with 1%nat by lia.
  simpl skipn. rewrite !filter_app, !length_app. simpl filter.
  destruct (f x); simpl; lia.
Qed.

Lemma touches_false (fs gs : list Callback) :
  touches fs gs = false <-> (forall g, In g gs -> ~ In g fs).
Proof.
  unfold touches. split.
  - intros H g Hg Hin.
    assert (Ht : existsb (fun g => memb g fs) gs = true).
    { apply existsb_exists. exists g. split; [exact Hg|].
      unfold memb. apply existsb_exists. exists g. split; [exact Hin | apply Nat.eqb_refl]. }
    congruence.
  - intros H. destruct (existsb (fun g => memb g fs) gs) eqn:Ht; [|reflexivity].
    apply existsb_exists in Ht as [g [Hg Hm]]. unfold memb in Hm.
    apply existsb_exists in Hm as [g' [Hg' Heq]]. apply Nat.eqb_eq in Heq. subst g'.
    elim (H g Hg Hg').
Qed.

Lemma NoDup_app_disjoint {A : Type} (l1 l2 : list A) :
  NoDup (l1 ++ l2) -> forall a, In a l1 -> ~ In a l2.
Proof.
  induction l1 as [|x l1 IH]; intros Hnd a Ha; [contradiction|].
  simpl in Hnd. inversion Hnd as [|? ? Hnx Hnd']; subst.
  destruct Ha as [->|Ha].
  - intros H. apply Hnx. apply in_or_app. right. exact H.
  - apply IH; assumption.
Qed.


Lemma arrivals_app (fs : list Callback) (a b : list (list Callback)) :
  arrivals fs (a ++ b) = (arrivals fs a + arrivals fs b)%nat.
Proof. unfold arrivals. rewrite filter_app, length_app. reflexivity. Qed.

Lemma arrivals_cons (fs g : list Callback) (groups : list (list Callback)) :
  arrivals fs (g :: groups) = (Nat.b2n (touches fs g) + arrivals fs groups)%nat.
Proof. unfold arrivals. cbn [filter]. destruct (touches fs g); reflexivity. Qed.

(** A call made by a callback invokes nothing; it registers a timer or
    becomes the active request only with the callbacks it hands over. *)
Lemma call_cost (fs : list Callback) (c : PublicCall) (this : ChunkManager.t) :
  let r := ChunkManager.call c this in
  let registered :=
    length (filter (fun t => touches fs (taskCallbacks (fst t)))
                   (scheduled (ChunkManager.effects r))) in
  invocations fs (ChunkManager.effects r) = 0%nat /\
  (registered <= Nat.b2n (touches fs (callRequest c)))%nat /\
  (registered
   + Nat.b2n (touches fs (chunkCallbacks (ChunkManager.chunk (ChunkManager.state r))))
   <= Nat.b2n (touches fs (chunkCallbacks (ChunkManager.chunk this)))
      + Nat.b2n (touches fs (callRequest c)))%nat.
Proof.
  assert (Hquiet : forall o this' out,
             invocations fs out = 0%nat -> scheduled out = [] ->
             (Nat.b2n (touches fs (chunkCallbacks (ChunkManager.chunk this')))
              <= Nat.b2n (touches fs (chunkCallbacks (ChunkManager.chunk this))))%nat ->
             let r := (o, this', out) : Outcome unit * ChunkManager.t * list Effect in
             invocations fs (ChunkManager.effects r) = 0%nat /\
             (length (filter (fun t => touches fs (taskCallbacks (fst t)))
                        (scheduled (ChunkManager.effects r)))
              <= Nat.b2n (touches fs (callRequest c)))%nat /\
             (length (filter (fun t => touches fs (taskCallbacks (fst t)))
                        (scheduled (ChunkManager.effects r)))
              + Nat.b2n (touches fs (chunkCallbacks
                                       (ChunkManager.chunk (ChunkManager.state r))))
              <= Nat.b2n (touches fs (chunkCallbacks (ChunkManager.chunk this)))
                 + Nat.b2n (touches fs (callRequest c)))%nat).
  { intros o this' out Hi Hs Hc r. subst r.
    unfold ChunkManager.effects, ChunkManager.state. cbn [fst snd].
    rewrite Hi, Hs. simpl. repeat split; lia. }
  destruct c as [url content|url s e retries|url|url]; cbn [ChunkManager.call callRequest].
  - destruct (processHlsPlaylist_run this url content) as [o [pls Hrun]].
    rewrite Hrun. apply Hquiet; reflexivity || (simpl; lia).
  - destruct (ChunkManager.getChunkLocation this (Some url)) as [[p|] i] eqn:Hloc.
    + destruct (loadChunk_located this url s e retries p i Hloc) as [files [Hrun _]].
      rewrite Hrun. unfold ChunkManager.effects, ChunkManager.state.
      cbn [fst snd ChunkManager.chunk chunkCallbacks Chunk.new Chunk.onSuccess Chunk.onError].
      simpl. repeat split; lia.
    + rewrite loadChunk_miss by (rewrite Hloc; reflexivity).
      unfold ChunkManager.effects, ChunkManager.state. cbn [fst snd].
      destruct (0 <? retries).
      * unfold invocations.
        cbn [scheduled flat_map app filter length fst taskCallbacks Nat.add].
        destruct (touches fs (callbacks s e)); simpl; repeat split; lia.
      * rewrite touches_callbacks. unfold invocations. destruct e as [f|];
          cbn [scheduled flat_map app filter length fst taskCallbacks Nat.add].
        -- unfold touches at 1 2. cbn [existsb]. rewrite orb_false_r.
           destruct (memb f fs); simpl; [rewrite orb_true_r; simpl|];
             repeat split; lia.
        -- repeat split; lia.
  - destruct url as [u|]; [|apply Hquiet; reflexivity || lia].
    destruct (String.eqb_spec u "") as [->|Hu]; [apply Hquiet; reflexivity || lia|].
    destruct (setCurrentChunk_run this u Hu) as [[p [files [_ [Hrun _]]]]|[_ Hrun]];
      rewrite Hrun; apply Hquiet; reflexivity || (simpl; lia).
  - rewrite abortChunk_run. apply Hquiet; try reflexivity.
    destruct (activeFor this url); simpl; lia.
Qed.

Lemma callAll_cost (fs : list Callback) (cs : list PublicCall) (this : ChunkManager.t) :
  let r := ChunkManager.callAll cs this in
  let registered :=
    length (filter (fun t => touches fs (taskCallbacks (fst t)))
                   (scheduled (ChunkManager.effects r))) in
  invocations fs (ChunkManager.effects r) = 0%nat /\
  (registered <= arrivals fs (map callRequest cs))%nat /\
  (registered
   + Nat.b2n (touches fs (chunkCallbacks (ChunkManager.chunk (ChunkManager.state r))))
   <= Nat.b2n (touches fs (chunkCallbacks (ChunkManager.chunk this)))
      + arrivals fs (map callRequest cs))%nat.
Proof.
  revert this. induction cs as [|c cs IH]; intros this; cbv zeta.
  - unfold arrivals, invocations. cbn. repeat split; lia.
  - rewrite callAll_cons.
    pose proof (call_cost fs c this) as Hc. cbv zeta in Hc.
    destruct Hc as [Hc1 [Hc2 Hc3]].
    specialize (IH (ChunkManager.state (ChunkManager.call c this))). cbv zeta in IH.
    destruct IH as [IH1 [IH2 IH3]].
    set (r1 := ChunkManager.call c this) in *.
    set (r2 := ChunkManager.callAll cs (ChunkManager.state r1)) in *.
    unfold ChunkManager.effects, ChunkManager.state in *. cbn [fst snd map] in *.
    rewrite arrivals_cons, invocations_app, scheduled_app, filter_app, length_app.
    split; [lia|]. split; lia.
Qed.

(** A handler that invokes a callback of the active request: the invocation
    uses up the request when the callback returns; when it throws, the
    request stays. *)
Lemma settle_gain (fs : list Callback) (f : Callback) (arg : JsValue)
    (reaction : Reaction) (this : ChunkManager.t) :
  (Nat.b2n (memb f fs)
   <= Nat.b2n (touches fs (chunkCallbacks (ChunkManager.chunk this))))%nat ->
  (gain fs (settle f arg reaction this)
   <= Nat.b2n (touches fs (chunkCallbacks (ChunkManager.chunk this)))
      + arrivals fs (map callRequest (calls reaction))
      + match thrown reaction with
        | Some _ => Nat.b2n (memb f fs)
        | None => 0
        end)%nat.
Proof.
  intros Hf. pose proof (callAll_cost fs (calls reaction) this) as Hc. cbv zeta in Hc.
  destruct Hc as [Hc1 [Hc2 Hc3]].
  assert (Hinv : forall out, invocations fs (Invoke f arg :: out)
                             = (Nat.b2n (memb f fs) + invocations fs out)%nat).
  { intros out. unfold invocations. cbn [filter]. destruct (memb f fs); reflexivity. }
  unfold settle, gain. cbv zeta.
  set (r := ChunkManager.callAll (calls reaction) this) in *.
  destruct (thrown reaction);
    unfold ChunkManager.effects, ChunkManager.state in *; cbn [fst snd] in *;
    rewrite Hinv, Hc1; cbn [scheduled flat_map app ChunkManager.set_chunk
      ChunkManager.chunk chunkCallbacks];
    fold (scheduled (snd r)).
  - lia.
  - unfold touches at 2. cbn [existsb Nat.b2n]. lia.
Qed.

Lemma member_touches (fs : list Callback) (c : Chunk.t) (f : Callback) :
  Chunk.onSuccess c = Some f \/ Chunk.onError c = Some f ->
  (Nat.b2n (memb f fs) <= Nat.b2n (touches fs (chunkCallbacks (Some c))))%nat.
Proof.
  intros H. cbn [chunkCallbacks]. rewrite touches_callbacks.
  destruct H as [-> | ->]; destruct (memb f fs); simpl; try lia.
  rewrite orb_true_r. simpl. lia.
Qed.

Lemma arrivals_single (fs g : list Callback) :
  arrivals fs [g] = Nat.b2n (touches fs g).
Proof. rewrite arrivals_cons. unfold arrivals. simpl. lia. Qed.

(** What a handler adds to the potential. *)
Lemma gain_handler (fs : list Callback) (this pushed : ChunkManager.t)
    (pick : Chunk.t -> option Callback) (arg : JsValue) (reaction : Reaction) :
  ChunkManager.chunk pushed = ChunkManager.chunk this ->
  (forall c, pick c = Chunk.onSuccess c \/ pick c = Chunk.onError c) ->
  (gain fs match ChunkManager.chunk this with
           | Some c =>
               match pick c with
               | Some f => settle f arg reaction pushed
               | None => (Return tt, ChunkManager.set_chunk None pushed, [])
               end
           | None => (Return tt, this, [])
           end
   <= Nat.b2n (touches fs (chunkCallbacks (ChunkManager.chunk this)))
      + arrivals fs (map callRequest (calls reaction))
      + match thrown reaction with
        | Some _ =>
            match ChunkManager.chunk this with
            | Some c => match pick c with Some f => Nat.b2n (memb f fs) | None => 0 end
            | None => 0
            end
        | None => 0
        end)%nat.
Proof.
  intros Hsame Hpick. destruct (ChunkManager.chunk this) as [c|] eqn:Hc.
  - destruct (pick c) as [f|] eqn:Hf.
    + pose proof (settle_gain fs f arg reaction pushed) as Hg.
      rewrite Hsame in Hg. apply Hg. apply member_touches.
      destruct (Hpick c) as [H|H]; rewrite H in Hf; auto.
    + rewrite gain_quiet by reflexivity. simpl. lia.
  - rewrite gain_quiet by reflexivity. rewrite Hc. simpl. lia.
Qed.

(** A step raises the potential of a set of callbacks by at most the number
    of requests of the event that bring one of them in, and by one more when
    the event invokes one of them and the callback throws. *)
Lemma potential_step (fs : list Callback) (ev : Event) (w : World) :
  (potential fs (step ev w)
   <= potential fs w + arrivals fs (eventRequests ev)
      + Nat.b2n (throwsIn fs ev (manager w)))%nat.
Proof.
  assert (Hbonus : forall reaction (pick : Chunk.t -> option Callback) url,
    Nat.b2n (match thrown reaction with Some _ => true | None => false end &&
             match match ChunkManager.chunk (manager w) with
                   | Some c => if String.eqb (Chunk.url c) url then pick c else None
                   | None => None
                   end with
             | Some f => memb f fs
             | None => false
             end)
    = if activeFor (manager w) url
      then match thrown reaction with
           | Some _ =>
               match ChunkManager.chunk (manager w) with
               | Some c => match pick c with Some f => Nat.b2n (memb f fs) | None => 0%nat end
               | None => 0%nat
               end
           | None => 0%nat
           end
      else 0%nat).
  { intros reaction pick url. unfold activeFor.
    destruct (thrown reaction); destruct (ChunkManager.chunk (manager w)) as [c|];
      try reflexivity; cbn [andb];
      destruct (String.eqb (Chunk.url c) url); try reflexivity;
      destruct (pick c); reflexivity. }
  destruct ev; unfold step;
    [rewrite potential_perform; unfold potential, holders .. | ];
    unfold throwsIn, eventThrows, answered; cbn [eventRequests eventReaction].
  - destruct (processHlsPlaylist_run (manager w) url content) as [o [pls Hrun]].
    rewrite Hrun, gain_quiet by reflexivity. cbn [ChunkManager.set_playlists ChunkManager.chunk].
    simpl. lia.
  - unfold ChunkManager.modify. rewrite gain_quiet by reflexivity.
    cbn [ChunkManager.set_playlists ChunkManager.chunk]. simpl. lia.
  - rewrite arrivals_single.
    pose proof (gain_loadChunk fs (manager w) url onSuccess onError playlistMissRetries).
    simpl. lia.
  - rewrite gain_setCurrentChunk. simpl. lia.
  - rewrite abortChunk_run, gain_quiet by reflexivity.
    destruct (activeFor (manager w) url); cbn; lia.
  - rewrite onFileLoaded_run. cbv zeta.
    rewrite (Hbonus reaction Chunk.onSuccess (LoaderFile.url file)).
    destruct (activeFor (manager w) (LoaderFile.url file)).
    + pose proof (gain_handler fs (manager w)
        (ChunkManager.set_playQueue
           (ChunkManager.playQueue (manager w) ++ [LoaderFile.url file]) (manager w))
        Chunk.onSuccess (LoaderFile.data file) reaction
        eq_refl (fun c => or_introl eq_refl)). lia.
    + rewrite gain_quiet by reflexivity. lia.
  - rewrite onFileError_run.
    rewrite (Hbonus reaction Chunk.onError url).
    destruct (activeFor (manager w) url).
    + pose proof (gain_handler fs (manager w) (manager w) Chunk.onError error reaction
        eq_refl (fun c => or_intror eq_refl)). lia.
    + rewrite gain_quiet by reflexivity. lia.
  - rewrite onFileAbort_run.
    rewrite (Hbonus reaction Chunk.onError url).
    destruct (activeFor (manager w) url).
    + pose proof (gain_handler fs (manager w) (manager w) Chunk.onError
        (JsString "Loading aborted") reaction eq_refl (fun c => or_intror eq_refl)). lia.
    + rewrite gain_quiet by reflexivity. lia.
  - destruct (nth_error (timers w) k) as [[task d]|] eqn:Hk.
    + rewrite potential_perform. unfold potential, holders. cbn [manager timers log].
      rewrite (filter_remove_nth (fun t => touches fs (taskCallbacks (fst t)))
                 (timers w) k (task, d) Hk). cbn [fst].
      cbn [andb Nat.b2n].
      destruct task as [url onSuccess onError retries|f message]; cbn [runTask taskCallbacks].
      * pose proof (gain_loadChunk fs (manager w) url onSuccess onError retries). lia.
      * unfold ChunkManager.emit, gain, ChunkManager.effects, ChunkManager.state, invocations.
        cbn [fst snd scheduled flat_map filter app length touches existsb].
        rewrite orb_false_r. destruct (memb f fs); simpl; lia.
    + simpl. lia.
Qed.

Lemma throwsIn_held (fs : list Callback) (ev : Event) (this : ChunkManager.t) :
  throwsIn fs ev this = true ->
  touches fs (chunkCallbacks (ChunkManager.chunk this)) = true.
Proof.
  unfold throwsIn, answered. intros H. apply andb_true_iff in H as [_ H].
  destruct (ChunkManager.chunk this) as [c|]; [|discriminate].
  assert (Hm : forall f, Chunk.onSuccess c = Some f \/ Chunk.onError c = Some f ->
                         memb f fs = true -> touches fs (chunkCallbacks (Some c)) = true).
  { intros f Hf Hmem. pose proof (member_touches fs c f Hf) as Hle. rewrite Hmem in Hle.
    destruct (touches fs (chunkCallbacks (Some c))); [reflexivity | simpl in Hle; lia]. }
  destruct ev; try discriminate;
    match type of H with
    | context [String.eqb ?a ?b] => destruct (String.eqb a b); [|discriminate]
    end.
  - destruct (Chunk.onSuccess c) as [f|] eqn:Hf; [|discriminate]. apply (Hm f); auto.
  - destruct (Chunk.onError c) as [f|] eqn:Hf; [|discriminate]. apply (Hm f); auto.
  - destruct (Chunk.onError c) as [f|] eqn:Hf; [|discriminate]. apply (Hm f); auto.
Qed.

Lemma perform_log (m : ChunkManager.M unit) (w : World) :
  log (perform m w) = log w ++ ChunkManager.effects (m (manager w)).
Proof.
  unfold perform, ChunkManager.effects. destruct (m (manager w)) as [[o this] out].
  reflexivity.
Qed.

Lemma step_log (ev : Event) (w : World) :
  exists out, log (step ev w) = log w ++ out.
Proof.
  destruct ev; unfold step; try (rewrite perform_log; eexists; reflexivity).
  match goal with
  | |- context [nth_error ?l ?k] => destruct (nth_error l k) as [[task d]|]
  end.
  - rewrite perform_log. cbn [log]. eexists; reflexivity.
  - exists []. rewrite app_nil_r. reflexivity.
Qed.

(** Over a run in which no invocation of a callback among [fs] throws, the
    potential of [fs] grows by at most the number of requests that bring one
    of them in. *)
Lemma potential_run (fs : list Callback) (evs : list Event) (w : World) :
  throwsDuring fs evs w = false ->
  (potential fs (run evs w) <= potential fs w + arrivals fs (requests evs))%nat.
Proof.
  revert w. induction evs as [|ev evs IH]; intros w Hthrows.
  - simpl. unfold arrivals. simpl. lia.
  - change (run (ev :: evs) w) with (run evs (step ev w)).
    cbn [throwsDuring] in Hthrows. apply orb_false_iff in Hthrows as [Hev Hrest].
    specialize (IH (step ev w) Hrest). pose proof (potential_step fs ev w) as Hstep.
    rewrite Hev in Hstep. unfold requests in *. cbn [flat_map]. rewrite arrivals_app.
    simpl in Hstep. lia.
Qed.

(** Callbacks that nothing holds and no request brings in stay out of the
    log, whatever the callbacks that are invoked do. *)
Lemma potential_silent (fs : list Callback) (evs : list Event) (w : World) :
  holders fs w = 0%nat -> arrivals fs (requests evs) = 0%nat ->
  invocations fs (log (run evs w)) = invocations fs (log w) /\
  holders fs (run evs w) = 0%nat.
Proof.
  revert w. induction evs as [|ev evs IH]; intros w Hh Ha.
  - split; [reflexivity | exact Hh].
  - change (run (ev :: evs) w) with (run evs (step ev w)).
    unfold requests in Ha. cbn [flat_map] in Ha. rewrite arrivals_app in Ha.
    pose proof (potential_step fs ev w) as Hstep.
    assert (Hno : throwsIn fs ev (manager w) = false).
    { destruct (throwsIn fs ev (manager w)) eqn:Ht; [|reflexivity].
      apply throwsIn_held in Ht. unfold holders in Hh. rewrite Ht in Hh. simpl in Hh. lia. }
    rewrite Hno in Hstep. unfold potential in Hstep.
    destruct (step_log ev w) as [out Hout].
    assert (Hmono : (invocations fs (log w) <= invocations fs (log (step ev w)))%nat).
    { rewrite Hout, invocations_app. lia. }
    simpl in Hstep.
    destruct (IH (step ev w)) as [IH1 IH2]; [lia | unfold requests; lia |].
    split; [lia | exact IH2].
Qed.

Lemma arrivals_none (fs : list Callback) (groups : list (list Callback)) :
  touches fs (concat groups) = false -> arrivals fs groups = 0%nat.
Proof.
  induction groups as [|g groups IH]; intros H.
  - reflexivity.
  - cbn [concat] in H. rewrite touches_app in H. apply orb_false_iff in H as [H1 H2].
    rewrite arrivals_cons, H1, (IH H2). reflexivity.
Qed.

(** When no callback is handed to two requests, or twice to one, the callbacks
    of one request are handed to that request only. *)
Lemma arrivals_once (groups : list (list Callback)) (g : list Callback) :
  NoDup (concat groups) -> In g groups -> (arrivals g groups <= 1)%nat.
Proof.
  induction groups as [|g0 groups IH]; intros Hnd Hin; [contradiction|].
  cbn [concat] in Hnd. rewrite arrivals_cons.
  pose proof (NoDup_app_disjoint _ _ Hnd) as Hdis.
  destruct Hin as [->|Hin].
  - rewrite arrivals_none.
    + destruct (touches _ _); simpl; lia.
    + apply touches_false. intros f Hf Hf'. exact (Hdis f Hf' Hf).
  - assert (Hnone : touches g g0 = false).
    { apply touches_false. intros f Hf Hf'. apply (Hdis f Hf).
      apply in_concat. exists g. split; assumption. }
    rewrite Hnone. apply IH; [|exact Hin].
    apply NoDup_app_remove_l in Hnd. exact Hnd.
Qed.

(** C1, as the code has it: in every run of the manager from its initial
    state (calls of its interface, loader events and timers in any order and
    number, callbacks that call back into the manager), the callbacks of a
    request are invoked at most once in total (at most one of [onSuccess]
    and [onError], and never a second time), as long as they are handed to
    no other request of the run and no invocation of them ends by
    throwing. *)
Theorem callbacks_at_most_once (evs : list Event) (url : string)
    (onSuccess onError : option Callback) (retries : Z) :
  requested evs url onSuccess onError retries ->
  (arrivals (callbacks onSuccess onError) (requests evs) <= 1)%nat ->
  throwsDuring (callbacks onSuccess onError) evs initial = false ->
  (invocations (callbacks onSuccess onError) (log (run evs initial)) <= 1)%nat.
Proof.
  intros _ Hone Hthrows.
  pose proof (potential_run (callbacks onSuccess onError) evs initial Hthrows) as Hrun.
  unfold potential at 1 in Hrun.
  assert (H0 : potential (callbacks onSuccess onError) initial = 0%nat) by reflexivity.
  lia.
Qed.

End Properties.

(** ** Further properties of the code

    *** Strings, the constructor and the registry map *)

Lemma occurs_append (c : ascii) (a b : string) :
  occurs c (a ++ b) <-> occurs c a \/ occurs c b.
Proof.
  unfold occurs. induction a as [|x a IH]; simpl.
  - tauto.
  - rewrite IH. tauto.
Qed.

Lemma lastIndexOf_from_spec (s : string) (c : ascii) (i found : Z) :
  (~ occurs c s /\ lastIndexOf_from s c i found = found) \/
  (exists before after,
      s = (before ++ String c after)%string /\ ~ occurs c after /\
      lastIndexOf_from s c i found = i + Z.of_nat (String.length before)).
Proof.
  revert i found. induction s as [|a s IH]; intros i found.
  - left. split; [intros [] | reflexivity].
  - simpl lastIndexOf_from.
    destruct (IH (i + 1) (if Ascii.eqb a c then i else found))
      as [[Hno Hr]|[before [after [Hs [Hno Hr]]]]].
    + destruct (Ascii.eqb_spec a c) as [->|Hne].
      * right. exists EmptyString, s. simpl. split; [reflexivity|]. split; [exact Hno | lia].
      * left. split; [|exact Hr]. unfold occurs in *. simpl. intros [H|H]; [congruence | auto].
    + right. exists (String a before), after. simpl. rewrite Hs at 1.
      split; [reflexivity|]. split; [exact Hno | lia].
Qed.

Lemma substring_prefix (before : string) (c : ascii) (after : string) :
  substring 0 (String.length before + 1) (before ++ String c after)
  = (before ++ String c EmptyString)%string.
Proof.
  induction before as [|a before IH]; simpl.
  - destruct after; reflexivity.
  - rewrite IH. reflexivity.
Qed.

Lemma Playlist_new_cases (url : string) (manifest : Manifest.t) :
  (~ occurs "/" url ->
     Playlist.new url manifest = Throw "Unexpected playlist URL format") /\
  (occurs "/" url ->
     exists directory file,
       url = (directory ++ "/" ++ file)%string /\ ~ occurs "/" file /\
       Playlist.new url manifest
       = Return {| Playlist.url := url;
                   Playlist.baseUrl := (directory ++ "/")%string;
                   Playlist.manifest := manifest |}).
Proof.
  unfold Playlist.new, lastIndexOf.
  destruct (lastIndexOf_from_spec url "/" 0 (-1))
    as [[Hno Hr]|[before [after [Hs [Hno Hr]]]]]; rewrite Hr.
  - split; [reflexivity | contradiction].
  - split.
    + intros H. elim H. rewrite Hs. apply occurs_append. right. left. reflexivity.
    + intros _. exists before, after. split; [exact Hs|]. split; [exact Hno|].
      destruct (Z.eqb_spec (0 + Z.of_nat (String.length before)) (-1)); [lia|].
      replace (Z.to_nat (0 + Z.of_nat (String.length before) + 1))
        with (String.length before + 1)%nat by lia.
      rewrite Hs at 2. rewrite substring_prefix. reflexivity.
Qed.

Lemma string_append_assoc (a b c : string) :
  ((a ++ b) ++ c = a ++ b ++ c)%string.
Proof. induction a as [|x a IH]; simpl; [reflexivity | rewrite IH; reflexivity]. Qed.

(** X1: the constructor of [Playlist] throws "Unexpected playlist URL format"
    exactly when the URL holds no "/". Otherwise the playlist keeps the URL
    and the manifest, its base URL ends in "/", and the URL is the base URL
    followed by a part without "/": the base URL is the URL up to and
    including its last "/". *)
Theorem Playlist_new_splits_url (url : string) (manifest : Manifest.t) :
  (Playlist.new url manifest = Throw "Unexpected playlist URL format" <-> ~ occurs "/" url) /\
  (forall p, Playlist.new url manifest = Return p ->
     Playlist.url p = url /\ Playlist.manifest p = manifest /\
     exists directory file,
       Playlist.baseUrl p = (directory ++ "/")%string /\
       url = (Playlist.baseUrl p ++ file)%string /\
       ~ occurs "/" file).
Proof.
  destruct (Playlist_new_cases url manifest) as [Hthrow Hok].
  destruct (in_dec ascii_dec "/"%char (list_ascii_of_string url)) as [Hin|Hin].
  - destruct (Hok Hin) as [directory [file [Hurl [Hfile Hnew]]]]. rewrite Hnew. split.
    + split; [discriminate | intros H; elim (H Hin)].
    + intros p [= <-]. cbn [Playlist.url Playlist.manifest Playlist.baseUrl].
      split; [reflexivity|]. split; [reflexivity|].
      exists directory, file. split; [reflexivity|]. split; [|exact Hfile].
      rewrite Hurl at 1. symmetry. apply string_append_assoc.
  - rewrite (Hthrow Hin). split.
    + split; [intros _; exact Hin | reflexivity].
    + intros p H. discriminate.
Qed.

Lemma Map_get_set_same {V : Type} (m : list (string * V)) (k : string) (v : V) :
  Map_get (Map_set m k v) k = Some v.
Proof.
  induction m as [|[k' v'] m IH]; simpl.
  - rewrite String.eqb_refl. reflexivity.
  - destruct (String.eqb_spec k' k) as [->|Hne]; simpl.
    + rewrite String.eqb_refl. reflexivity.
    + destruct (String.eqb_spec k' k); [contradiction | exact IH].
Qed.

Lemma Map_get_set_other {V : Type} (m : list (string * V)) (k k' : string) (v : V) :
  k' <> k -> Map_get (Map_set m k v) k' = Map_get m k'.
Proof.
  intros Hne. induction m as [|[k0 v0] m IH]; simpl.
  - destruct (String.eqb_spec k k'); [congruence | reflexivity].
  - destruct (String.eqb_spec k0 k) as [->|Hk]; simpl.
    + destruct (String.eqb_spec k k'); [congruence | reflexivity].
    + destruct (String.eqb k0 k'); [reflexivity | exact IH].
Qed.

Lemma Map_set_keys {V : Type} (m : list (string * V)) (k : string) (v : V) :
  map fst (Map_set m k v)
  = if in_dec string_dec k (map fst m) then map fst m else map fst m ++ [k].
Proof.
  induction m as [|[k' v'] m IH]; simpl.
  - reflexivity.
  - destruct (String.eqb_spec k' k) as [->|Hne]; simpl.
    + destruct (string_dec k k); [|contradiction].
      destruct (in_dec string_dec k (map fst m)); reflexivity.
    + rewrite IH. destruct (string_dec k' k); [contradiction|].
      destruct (in_dec string_dec k (map fst m)); reflexivity.
Qed.

Lemma Map_set_In {V : Type} (m : list (string * V)) (k : string) (v : V) (kv : string * V) :
  In kv (Map_set m k v) -> kv = (k, v) \/ In kv m.
Proof.
  induction m as [|[k' v'] m IH]; simpl.
  - intros [H|[]]. left. symmetry. exact H.
  - destruct (String.eqb k' k); simpl.
    + intros [H|H]; [left; symmetry; exact H | right; right; exact H].
    + intros [H|H]; [right; left; exact H|]. destruct (IH H); [left | right; right]; assumption.
Qed.

Lemma Map_get_delete_same {V : Type} (m : list (string * V)) (k : string) :
  Map_get (Map_delete m k) k = None.
Proof.
  unfold Map_delete. induction m as [|[k' v'] m IH]; simpl; [reflexivity|].
  destruct (String.eqb_spec k' k) as [->|Hne]; simpl; [exact IH|].
  destruct (String.eqb_spec k' k); [contradiction | exact IH].
Qed.

Lemma Map_get_delete_other {V : Type} (m : list (string * V)) (k k' : string) :
  k' <> k -> Map_get (Map_delete m k) k' = Map_get m k'.
Proof.
  intros Hne. unfold Map_delete. induction m as [|[k0 v0] m IH]; simpl; [reflexivity|].
  destruct (String.eqb_spec k0 k) as [->|Hk]; simpl.
  - destruct (String.eqb_spec k k'); [congruence | exact IH].
  - destruct (String.eqb k0 k'); [reflexivity | exact IH].
Qed.

Lemma Map_delete_keys {V : Type} (m : list (string * V)) (k : string) :
  map fst (Map_delete m k) = filter (fun k' => negb (String.eqb k' k)) (map fst m).
Proof.
  unfold Map_delete. induction m as [|[k' v'] m IH]; simpl; [reflexivity|].
  destruct (String.eqb k' k); simpl; [exact IH | rewrite IH; reflexivity].
Qed.

Lemma Map_get_In {V : Type} (m : list (string * V)) (k : string) (v : V) :
  Map_get m k = Some v -> In (k, v) m.
Proof.
  induction m as [|[k' v'] m IH]; simpl; [discriminate|].
  destruct (String.eqb_spec k' k) as [->|Hne].
  - intros [= ->]. left. reflexivity.
  - intros H. right. exact (IH H).
Qed.

Lemma NoDup_keys_get {V : Type} (m : list (string * V)) (k : string) (v : V) :
  NoDup (map fst m) -> In (k, v) m -> Map_get m k = Some v.
Proof.
  induction m as [|[k' v'] m IH]; simpl; [contradiction|].
  intros Hnd [H|H].
  - injection H as -> ->. rewrite String.eqb_refl. reflexivity.
  - inversion Hnd as [|? ? Hnot Hnd']; subst.
    destruct (String.eqb_spec k' k) as [->|Hne].
    + elim Hnot. apply in_map_iff. exists (k, v). split; [reflexivity | exact H].
    + exact (IH Hnd' H).
Qed.

Section FurtherProperties.
Context {E : Env}.

Lemma getChunkIndex_absent (this : Playlist.t) (url : string) :
  Playlist.getChunkIndex this url = -1 ->
  forall j, Playlist.getChunkAbsoluteUrl this j <> Some url.
Proof.
  intros Hm. pose proof (getChunkIndex_spec this url) as H. cbv zeta in H.
  destruct H as [[_ H]|[H _]]; [exact H | lia].
Qed.

(** X5: [getChunkIndex] answers -1 exactly when no segment of the playlist
    has the URL as its absolute URL; otherwise it answers an index inside
    the playlist whose segment has that absolute URL, and the least such
    index. *)
Theorem getChunkIndex_least (this : Playlist.t) (url : string) :
  let n := Z.of_nat (length (Manifest.segments (Playlist.manifest this))) in
  let i := Playlist.getChunkIndex this url in
  (i = -1 <-> forall j, Playlist.getChunkAbsoluteUrl this j <> Some url) /\
  (i <> -1 ->
     0 <= i < n /\
     Playlist.getChunkAbsoluteUrl this i = Some url /\
     forall j, j < i -> Playlist.getChunkAbsoluteUrl this j <> Some url).
Proof.
  intros n i. subst n i.
  pose proof (getChunkIndex_spec this url) as H. cbv zeta in H.
  destruct H as [[H1 H2]|[H1 [H2 H3]]].
  - split; [tauto | intros; contradiction].
  - split.
    + split; [lia|]. intros Hall. elim (Hall _ H2).
    + intros _. auto.
Qed.

Lemma getChunkLocation_scan_None (values : list Playlist.t) (url : string) :
  ChunkManager.playlist (ChunkManager.getChunkLocation_scan values url) = None ->
  ChunkManager.getChunkLocation_scan values url
  = {| ChunkManager.playlist := None; ChunkManager.chunkIndex := -1 |} /\
  forall q, In q values -> Playlist.getChunkIndex q url = -1.
Proof.
  induction values as [|q values IH]; simpl.
  - intros _. split; [reflexivity | intros q []].
  - destruct (Z.leb_spec 0 (Playlist.getChunkIndex q url)) as [Hq|Hq]; simpl.
    + discriminate.
    + intros H. destruct (IH H) as [H1 H2]. split; [exact H1|].
      intros q' [<-|Hq'].
      * pose proof (getChunkIndex_spec q url) as Hs. cbv zeta in Hs.
        destruct Hs as [[Hm _]|[Hr _]]; lia.
      * apply H2, Hq'.
Qed.

Lemma getChunkLocation_scan_split (values : list Playlist.t) (url : string) (p : Playlist.t) :
  ChunkManager.playlist (ChunkManager.getChunkLocation_scan values url) = Some p ->
  exists before after,
    values = before ++ p :: after /\
    forall q, In q before -> Playlist.getChunkIndex q url = -1.
Proof.
  induction values as [|q values IH]; simpl.
  - discriminate.
  - destruct (Z.leb_spec 0 (Playlist.getChunkIndex q url)) as [Hq|Hq]; simpl.
    + intros [= <-]. exists [], values. split; [reflexivity | intros q' []].
    + intros H. destruct (IH H) as [before [after [-> Hb]]].
      exists (q :: before), after. split; [reflexivity|].
      intros q' [<-|Hq'].
      * pose proof (getChunkIndex_spec q url) as Hs. cbv zeta in Hs.
        destruct Hs as [[Hm _]|[Hr _]]; lia.
      * apply Hb, Hq'.
Qed.

(** X6: [getChunkLocation] answers no playlist and index -1 for an absent or
    empty URL. For another URL it answers no playlist (and index -1) only
    when no registered playlist has a segment with that absolute URL; when it
    answers a playlist, the URL is not empty, the segment at the answered
    index has that absolute URL, no earlier segment of the playlist has it,
    and no playlist registered before it holds the URL. *)
Theorem getChunkLocation_first_holder (this : ChunkManager.t) (url : option string) :
  let location := ChunkManager.getChunkLocation this url in
  (truthy url = false ->
     location = {| ChunkManager.playlist := None; ChunkManager.chunkIndex := -1 |}) /\
  (forall u, url = Some u -> u <> EmptyString ->
     ChunkManager.playlist location = None ->
     ChunkManager.chunkIndex location = -1 /\
     forall q j, In q (Map_values (ChunkManager.playlists this)) ->
                 Playlist.getChunkAbsoluteUrl q j <> Some u) /\
  (forall u p, url = Some u -> ChunkManager.playlist location = Some p ->
     u <> EmptyString /\
     Playlist.getChunkAbsoluteUrl p (ChunkManager.chunkIndex location) = Some u /\
     (forall j, j < ChunkManager.chunkIndex location ->
                Playlist.getChunkAbsoluteUrl p j <> Some u) /\
     exists before after,
       Map_values (ChunkManager.playlists this) = before ++ p :: after /\
       forall q j, In q before -> Playlist.getChunkAbsoluteUrl q j <> Some u).
Proof.
  intros location. subst location. split; [|split].
  - unfold ChunkManager.getChunkLocation. destruct url as [u|]; [|reflexivity].
    intros ->. reflexivity.
  - intros u -> Hu Hnone. unfold ChunkManager.getChunkLocation in *.
    assert (Ht : truthy (Some u) = true).
    { unfold truthy. destruct (String.eqb_spec u ""); [contradiction | reflexivity]. }
    rewrite Ht in *.
    destruct (getChunkLocation_scan_None _ _ Hnone) as [Heq Hall].
    rewrite Heq. split; [reflexivity|]. intros q j Hq.
    apply getChunkIndex_absent. apply Hall, Hq.
  - intros u p -> Hp.
    destruct (getChunkLocation_Some _ _ _ Hp) as [v [[= <-] [Hu [_ [Hidx [_ Habs]]]]]].
    split; [exact Hu|]. rewrite Hidx. split; [exact Habs|]. split.
    + pose proof (getChunkIndex_spec p u) as Hs. cbv zeta in Hs.
      destruct Hs as [[_ Hno]|[_ [_ Hfirst]]]; [elim (Hno _ Habs) | exact Hfirst].
    + unfold ChunkManager.getChunkLocation in Hp.
      destruct (truthy (Some u)); [|discriminate].
      destruct (getChunkLocation_scan_split _ _ _ Hp) as [before [after [Hv Hb]]].
      exists before, after. split; [exact Hv|]. intros q j Hq.
      apply getChunkIndex_absent. apply Hb, Hq.
Qed.

(** X7: the batch that [loadChunk] submits for a URL that locates is never
    empty: its first descriptor is the requested URL itself, at the priority
    base of the play queue, and every other descriptor has a larger priority
    number. *)
Theorem loadChunk_batch_begins_with_request (this : ChunkManager.t) (url : string)
    (onSuccess onError : option Callback) (retries : Z) (p : Playlist.t) :
  ChunkManager.playlist (ChunkManager.getChunkLocation this (Some url)) = Some p ->
  let r := ChunkManager.loadChunk url onSuccess onError retries this in
  exists rest,
    ChunkManager.effects r
    = [LoaderLoad
         (LoaderFile.new url (priorityBase (ChunkManager.playQueue (ChunkManager.state r)))
            :: rest)
         (ChunkManager.getSwarmId this p) (Some url)] /\
    forall file, In file rest ->
      priorityBase (ChunkManager.playQueue (ChunkManager.state r)) < LoaderFile.priority file.
Proof.
  intros Hp r.
  destruct (ChunkManager.getChunkLocation this (Some url)) as [p' i] eqn:Hloc.
  cbn [ChunkManager.playlist] in Hp. subst p'.
  assert (Hp : ChunkManager.playlist (ChunkManager.getChunkLocation this (Some url)) = Some p)
    by (rewrite Hloc; reflexivity).
  destruct (getChunkLocation_Some _ _ _ Hp) as [u [[= <-] [_ [_ [Hidx [Hrange Habs]]]]]].
  rewrite Hloc in Hidx. cbn [ChunkManager.chunkIndex] in Hidx. rewrite <- Hidx in *.
  destruct (loadChunk_located this url onSuccess onError retries p i Hloc)
    as [files [Hrun [Hlen Hnth]]].
  subst r. rewrite Hrun. unfold ChunkManager.effects, ChunkManager.state.
  cbn [fst snd ChunkManager.playQueue].
  destruct files as [|file rest]; [simpl in Hlen; lia|].
  exists rest. split.
  - destruct (Hnth 0%nat) as [H0 _]; [simpl; lia|].
    unfold descriptorAt in H0. cbn [Z.of_nat] in H0.
    rewrite !Z.add_0_r, Habs in H0. simpl in H0.
    injection H0 as ->. reflexivity.
  - intros file' Hin. apply In_nth_error in Hin as [j Hj].
    destruct (Hnth (S j)) as [Hd Hsome].
    { assert (j < length rest)%nat by (apply nth_error_Some; congruence). simpl. lia. }
    simpl nth_error in Hd. rewrite Hj in Hd. unfold descriptorAt in Hd.
    destruct (Playlist.getChunkAbsoluteUrl p (i + Z.of_nat (S j))); [|discriminate].
    simpl in Hd. injection Hd as ->. simpl. lia.
Qed.

(** X8: after a request whose URL locates, a loader event for that URL
    reaches the request. A loaded event appends the URL to the play queue
    and then invokes [onSuccess] (when given) with the payload; an error
    event invokes [onError] (when given) with the error; an abort event
    invokes [onError] with "Loading aborted"; error and abort leave the play
    queue as it is. What follows the invocation depends on the callback.
    When it returns, the handler clears the active request, also a request
    the callback has just made, and returns. When it throws, the exception
    leaves the handler and nothing is cleared: a callback that only throws
    leaves the request active, so that the next event for the URL invokes
    it again. Without a callback the request is cleared. *)
Theorem request_then_event_delivers (this : ChunkManager.t) (url : string)
    (onSuccess onError : option Callback) (retries : Z) (p : Playlist.t) :
  ChunkManager.playlist (ChunkManager.getChunkLocation this (Some url)) = Some p ->
  let this1 :=
    ChunkManager.state (ChunkManager.loadChunk url onSuccess onError retries this) in
  let queued :=
    ChunkManager.set_playQueue (ChunkManager.playQueue this1 ++ [url]) this1 in
  ((forall file reaction, LoaderFile.url file = url ->
      ChunkManager.onFileLoaded file reaction this1
      = delivered onSuccess (LoaderFile.data file) reaction queued) /\
   (forall error reaction,
      ChunkManager.onFileError url error reaction this1
      = delivered onError error reaction this1) /\
   (forall reaction,
      ChunkManager.onFileAbort url reaction this1
      = delivered onError (JsString "Loading aborted") reaction this1)) /\
  ChunkManager.chunk queued = Some (Chunk.new url onSuccess onError) /\
  ChunkManager.chunk this1 = Some (Chunk.new url onSuccess onError) /\
  (forall callback arg from,
     delivered callback arg quiet from
     = (Return tt, ChunkManager.set_chunk None from,
        match callback with Some f => [Invoke f arg] | None => [] end)) /\
  (forall callback arg reaction from,
     thrown reaction = None ->
     let r := delivered callback arg reaction from in
     ChunkManager.outcome r = Return tt /\
     ChunkManager.chunk (ChunkManager.state r) = None /\
     forall f, callback = Some f ->
               exists out, ChunkManager.effects r = Invoke f arg :: out) /\
  (forall f arg reaction e from,
     thrown reaction = Some e ->
     let r := delivered (Some f) arg reaction from in
     ChunkManager.outcome r = Throw e /\
     (exists out, ChunkManager.effects r = Invoke f arg :: out) /\
     (calls reaction = [] -> r = (Throw e, from, [Invoke f arg]))).
Proof.
  intros Hp this1 queued.
  destruct (ChunkManager.getChunkLocation this (Some url)) as [p' i] eqn:Hloc.
  cbn [ChunkManager.playlist] in Hp. subst p'.
  destruct (loadChunk_located this url onSuccess onError retries p i Hloc)
    as [files [Hrun _]].
  assert (Hactive : ChunkManager.chunk this1 = Some (Chunk.new url onSuccess onError))
    by (subst this1; rewrite Hrun; reflexivity).
  assert (Hfor : activeFor this1 url = true).
  { unfold activeFor. rewrite Hactive. apply String.eqb_refl. }
  clearbody this1.
  split; [split; [|split]|split; [exact Hactive|split; [exact Hactive|split; [|split]]]].
  - intros file reaction Hfile. rewrite onFileLoaded_run, Hfile, Hfor, Hactive. reflexivity.
  - intros error reaction. rewrite onFileError_run, Hfor, Hactive. reflexivity.
  - intros reaction. rewrite onFileAbort_run, Hfor, Hactive. reflexivity.
  - intros [f|] arg from; reflexivity.
  - intros callback arg reaction from Hret r. subst r. unfold delivered, settle.
    rewrite Hret. destruct callback as [f|].
    + split; [reflexivity|]. split; [reflexivity|].
      intros f' [= <-]. eexists. reflexivity.
    + split; [reflexivity|]. split; [reflexivity|]. intros f' Hf. discriminate.
  - intros f arg reaction e from Hthrow r. subst r. unfold delivered, settle.
    rewrite Hthrow. split; [reflexivity|]. split; [eexists; reflexivity|].
    intros ->. reflexivity.
Qed.

(** X9: once a request for a URL that locates is the active one, whatever
    was active before, a loaded, error or abort event and an [abortChunk] for
    any other URL change nothing and call nothing, so that no callback runs
    and nothing is thrown. *)
Theorem superseded_request_is_ignored (this : ChunkManager.t) (url : string)
    (onSuccess onError : option Callback) (retries : Z) (p : Playlist.t)
    (other : string) :
  ChunkManager.playlist (ChunkManager.getChunkLocation this (Some url)) = Some p ->
  other <> url ->
  let this1 :=
    ChunkManager.state (ChunkManager.loadChunk url onSuccess onError retries this) in
  (forall file reaction, LoaderFile.url file = other ->
     ChunkManager.onFileLoaded file reaction this1 = (Return tt, this1, [])) /\
  (forall error reaction,
     ChunkManager.onFileError other error reaction this1 = (Return tt, this1, [])) /\
  (forall reaction, ChunkManager.onFileAbort other reaction this1 = (Return tt, this1, [])) /\
  ChunkManager.abortChunk other this1 = (Return tt, this1, []).
Proof.
  intros Hp Hne this1.
  destruct (ChunkManager.getChunkLocation this (Some url)) as [p' i] eqn:Hloc.
  cbn [ChunkManager.playlist] in Hp. subst p'.
  destruct (loadChunk_located this url onSuccess onError retries p i Hloc)
    as [files [Hrun _]].
  assert (Hactive : activeFor this1 other = false).
  { subst this1. rewrite Hrun. unfold activeFor, ChunkManager.state.
    cbn [fst snd ChunkManager.chunk Chunk.new Chunk.url].
    apply String.eqb_neq. congruence. }
  split; [|split; [|split]].
  - intros file reaction Hfile. rewrite onFileLoaded_run, Hfile, Hactive. reflexivity.
  - intros error reaction. rewrite onFileError_run, Hactive. reflexivity.
  - intros reaction. rewrite onFileAbort_run, Hactive. reflexivity.
  - rewrite abortChunk_run, Hactive. reflexivity.
Qed.

Lemma processHlsPlaylist_outcome (this : ChunkManager.t) (url content : string) :
  ChunkManager.processHlsPlaylist url content this
  = match Playlist.new url (m3u8_parse content) with
    | Return p =>
        (Return tt,
         ChunkManager.set_playlists (Map_set (ChunkManager.playlists this) url p) this, [])
    | Throw e => (Throw e, this, [])
    end.
Proof.
  unfold ChunkManager.processHlsPlaylist. unfold_monad.
  destruct (Playlist.new url (m3u8_parse content)); reflexivity.
Qed.

(** What the calls of a callback keep, and the handlers' own assignments
    keep, a step of a loader event keeps. *)
Lemma callAll_keeps_in (P : ChunkManager.t -> Prop) (cs : list PublicCall) :
  (forall c this, In c cs -> P this -> P (ChunkManager.state (ChunkManager.call c this))) ->
  forall this, P this -> P (ChunkManager.state (ChunkManager.callAll cs this)).
Proof.
  induction cs as [|c cs IH]; intros Hcall this H.
  - exact H.
  - rewrite callAll_cons. unfold ChunkManager.state at 1. cbn [fst snd]. apply IH.
    + intros c' this' Hin. apply Hcall. right. exact Hin.
    + apply Hcall; [left; reflexivity | exact H].
Qed.

Lemma settle_keeps (P : ChunkManager.t -> Prop) (f : Callback) (arg : JsValue)
    (reaction : Reaction) :
  (forall c this, In c (calls reaction) -> P this ->
                  P (ChunkManager.state (ChunkManager.call c this))) ->
  (forall this, P this -> P (ChunkManager.set_chunk None this)) ->
  forall this, P this -> P (ChunkManager.state (settle f arg reaction this)).
Proof.
  intros Hcall Hclear this H. rewrite settle_state.
  pose proof (callAll_keeps_in P _ Hcall this H) as Hk.
  destruct (thrown reaction); auto.
Qed.

Lemma step_handler_keeps (P : ChunkManager.t -> Prop) (ev : Event) (reaction : Reaction)
    (w : World) :
  eventReaction ev = Some reaction ->
  (forall c this, In c (calls reaction) -> P this ->
                  P (ChunkManager.state (ChunkManager.call c this))) ->
  (forall this, P this -> P (ChunkManager.set_chunk None this)) ->
  (forall this queue, P this -> P (ChunkManager.set_playQueue queue this)) ->
  P (manager w) -> P (manager (step ev w)).
Proof.
  intros Hev Hcall Hclear Hpush H.
  destruct ev; try discriminate; cbn [eventReaction] in Hev; injection Hev as ->;
    unfold step; rewrite perform_manager.
  - rewrite onFileLoaded_run. cbv zeta. destruct (activeFor _ _); [|exact H].
    destruct (ChunkManager.chunk (manager w)) as [c|]; [|exact H].
    destruct (Chunk.onSuccess c) as [f|].
    + apply settle_keeps; auto.
    + unfold ChunkManager.state. cbn [fst snd]. auto.
  - rewrite onFileError_run. destruct (activeFor _ _); [|exact H].
    destruct (ChunkManager.chunk (manager w)) as [c|]; [|exact H].
    destruct (Chunk.onError c) as [f|].
    + apply settle_keeps; auto.
    + unfold ChunkManager.state. cbn [fst snd]. auto.
  - rewrite onFileAbort_run. destruct (activeFor _ _); [|exact H].
    destruct (ChunkManager.chunk (manager w)) as [c|]; [|exact H].
    destruct (Chunk.onError c) as [f|].
    + apply settle_keeps; auto.
    + unfold ChunkManager.state. cbn [fst snd]. auto.
Qed.

(** The registry after a call. *)
Lemma call_playlists (c : PublicCall) (this : ChunkManager.t) :
  ChunkManager.playlists (ChunkManager.state (ChunkManager.call c this))
  = match c with
    | DoProcessHlsPlaylist url content =>
        match Playlist.new url (m3u8_parse content) with
        | Return p => Map_set (ChunkManager.playlists this) url p
        | Throw _ => ChunkManager.playlists this
        end
    | _ => ChunkManager.playlists this
    end.
Proof.
  destruct c as [url content|url s e r|url|url]; cbn [ChunkManager.call].
  - rewrite processHlsPlaylist_outcome.
    destruct (Playlist.new url (m3u8_parse content)); reflexivity.
  - destruct (loadChunk_run this url s e r) as [[out Hrun]|[q [files [sw Hrun]]]];
      rewrite Hrun; reflexivity.
  - destruct url as [u|]; [|reflexivity].
    destruct (String.eqb_spec u "") as [->|Hu]; [reflexivity|].
    destruct (setCurrentChunk_run this u Hu)
      as [[p [files [_ [Hrun _]]]]|[_ Hrun]]; rewrite Hrun; reflexivity.
  - rewrite abortChunk_run. destruct (activeFor _ _); reflexivity.
Qed.

(** The registry after a step whose callback registers no playlist. *)
Lemma step_playlists (ev : Event) (w : World) :
  (forall reaction url content,
      eventReaction ev = Some reaction ->
      ~ In (DoProcessHlsPlaylist url content) (calls reaction)) ->
  ChunkManager.playlists (manager (step ev w))
  = match ev with
    | CallProcessHlsPlaylist url content =>
        match Playlist.new url (m3u8_parse content) with
        | Return p => Map_set (ChunkManager.playlists (manager w)) url p
        | Throw _ => ChunkManager.playlists (manager w)
        end
    | PlaylistsDelete url => Map_delete (ChunkManager.playlists (manager w)) url
    | _ => ChunkManager.playlists (manager w)
    end.
Proof.
  intros Hreaction.
  assert (Hhandler : forall reaction,
             eventReaction ev = Some reaction ->
             ChunkManager.playlists (manager (step ev w))
             = ChunkManager.playlists (manager w)).
  { intros reaction Hev.
    apply (step_handler_keeps
             (fun this => ChunkManager.playlists this = ChunkManager.playlists (manager w))
             ev reaction w Hev); try reflexivity; try (intros; assumption).
    intros c this Hin Hthis. rewrite call_playlists, Hthis.
    destruct c; try reflexivity. elim (Hreaction reaction url content Hev Hin). }
  destruct ev; try (apply (Hhandler reaction); reflexivity);
    unfold step; try rewrite perform_manager.
  - exact (call_playlists (DoProcessHlsPlaylist url content) (manager w)).
  - reflexivity.
  - exact (call_playlists (DoLoadChunk url onSuccess onError playlistMissRetries) (manager w)).
  - exact (call_playlists (DoSetCurrentChunk url) (manager w)).
  - exact (call_playlists (DoAbortChunk url) (manager w)).
  - destruct (nth_error (timers w) k) as [[task d]|]; [|reflexivity].
    rewrite perform_manager. cbn [manager]. destruct task; simpl runTask.
    + exact (call_playlists (DoLoadChunk url onSuccess onError playlistMissRetries)
               (manager w)).
    + reflexivity.
Qed.

Lemma Playlist_new_manifest (url : string) (manifest : Manifest.t) (p : Playlist.t) :
  Playlist.new url manifest = Return p ->
  Playlist.new url (Playlist.manifest p) = Return p.
Proof.
  intros H. destruct (Playlist_new_inv _ _ _ H) as [_ [-> _]]. exact H.
Qed.

Lemma call_registryOk (c : PublicCall) (this : ChunkManager.t) :
  registryOk (ChunkManager.playlists this) ->
  registryOk (ChunkManager.playlists (ChunkManager.state (ChunkManager.call c this))).
Proof.
  intros [Hnd Hnew]. rewrite call_playlists.
  destruct c as [url content| | |]; try (split; assumption).
  destruct (Playlist.new url (m3u8_parse content)) as [p|e] eqn:Hp; [|split; assumption].
  split.
  - rewrite Map_set_keys.
    destruct (in_dec string_dec url (map fst (ChunkManager.playlists this)))
      as [Hin|Hin]; [exact Hnd|].
    apply NoDup_app; [exact Hnd | repeat constructor; intros [] | ].
    intros k Hk [<-|[]]. contradiction.
  - intros k q Hq. apply Map_set_In in Hq as [[= -> ->]|Hq].
    + exact (Playlist_new_manifest _ _ _ Hp).
    + exact (Hnew k q Hq).
Qed.

Lemma step_registryOk (ev : Event) (w : World) :
  registryOk (ChunkManager.playlists (manager w)) ->
  registryOk (ChunkManager.playlists (manager (step ev w))).
Proof.
  intros H.
  assert (Hhandler : forall reaction,
             eventReaction ev = Some reaction ->
             registryOk (ChunkManager.playlists (manager (step ev w)))).
  { intros reaction Hev.
    apply (step_handler_keeps (fun this => registryOk (ChunkManager.playlists this))
             ev reaction w Hev); try (intros; assumption).
    intros c this _. apply call_registryOk. }
  destruct ev; try (apply (Hhandler reaction); reflexivity);
    unfold step; try rewrite perform_manager.
  - exact (call_registryOk (DoProcessHlsPlaylist url content) _ H).
  - destruct H as [Hnd Hnew]. split.
    + cbn [ChunkManager.state ChunkManager.modify fst snd ChunkManager.set_playlists
           ChunkManager.playlists].
      rewrite Map_delete_keys. apply NoDup_filter. exact Hnd.
    + intros k q Hq. unfold Map_delete in Hq. apply filter_In in Hq as [Hq _].
      exact (Hnew k q Hq).
  - exact (call_registryOk (DoLoadChunk url onSuccess onError playlistMissRetries) _ H).
  - exact (call_registryOk (DoSetCurrentChunk url) _ H).
  - exact (call_registryOk (DoAbortChunk url) _ H).
  - destruct (nth_error (timers w) k) as [[task d]|]; [|exact H].
    rewrite perform_manager. cbn [manager]. destruct task; simpl runTask.
    + exact (call_registryOk (DoLoadChunk url onSuccess onError playlistMissRetries) _ H).
    + exact H.
Qed.

Lemma run_registryOk (evs : list Event) (w : World) :
  registryOk (ChunkManager.playlists (manager w)) ->
  registryOk (ChunkManager.playlists (manager (run evs w))).
Proof.
  revert w. induction evs as [|ev evs IH]; intros w H; simpl.
  - exact H.
  - apply IH, step_registryOk, H.
Qed.

(** X3: in every state the manager can reach, no URL is registered twice,
    every playlist is registered under its own URL, is what the constructor
    builds from that URL and its manifest, and is what [get] answers for the
    URL. *)
Theorem registry_keeps_one_playlist_per_url (evs : list Event) :
  let registry := ChunkManager.playlists (manager (run evs initial)) in
  NoDup (map fst registry) /\
  forall k p,
    In (k, p) registry ->
    Playlist.url p = k /\
    Playlist.new k (Playlist.manifest p) = Return p /\
    Map_get registry k = Some p.
Proof.
  intros registry.
  assert (H : registryOk registry).
  { apply run_registryOk. split; [constructor | intros k p []]. }
  destruct H as [Hnd Hnew]. split; [exact Hnd|].
  intros k p Hin. split; [|split].
  - destruct (Playlist_new_inv _ _ _ (Hnew k p Hin)) as [Hurl _]. exact Hurl.
  - exact (Hnew k p Hin).
  - exact (NoDup_keys_get _ _ _ Hnd Hin).
Qed.

(** X4: a chunk request, a now-playing notification, an abort, a loader
    event or a timer never changes the registry, unless the callback that a
    loader event invokes calls [processHlsPlaylist] itself: only
    [processHlsPlaylist] and the delete of [loadHlsPlaylist] do. *)
Theorem only_playlist_events_change_registry (ev : Event) (w : World) :
  (forall url content, ev <> CallProcessHlsPlaylist url content) ->
  (forall url, ev <> PlaylistsDelete url) ->
  (forall reaction url content,
      eventReaction ev = Some reaction ->
      ~ In (DoProcessHlsPlaylist url content) (calls reaction)) ->
  ChunkManager.playlists (manager (step ev w)) = ChunkManager.playlists (manager w).
Proof.
  intros Hprocess Hdelete Hreaction. rewrite (step_playlists ev w Hreaction).
  destruct ev; try reflexivity.
  - elim (Hprocess url content). reflexivity.
  - elim (Hdelete url). reflexivity.
Qed.

(** X2: [processHlsPlaylist] calls nothing and leaves the active request, the
    last requested URL and the play queue alone. On a URL without "/" it
    throws and the registry stays as it is. Otherwise it returns, [get(url)]
    on the registry answers the new playlist, every other key answers what
    it did, and the keys keep their order: a known URL keeps its place, a new
    one goes last. *)
Theorem processHlsPlaylist_registers_or_throws (this : ChunkManager.t) (url content : string) :
  let r := ChunkManager.processHlsPlaylist url content this in
  let registry := ChunkManager.playlists (ChunkManager.state r) in
  ChunkManager.effects r = [] /\
  ChunkManager.chunk (ChunkManager.state r) = ChunkManager.chunk this /\
  ChunkManager.prevLoadUrl (ChunkManager.state r) = ChunkManager.prevLoadUrl this /\
  ChunkManager.playQueue (ChunkManager.state r) = ChunkManager.playQueue this /\
  (~ occurs "/" url ->
     ChunkManager.outcome r = Throw "Unexpected playlist URL format" /\
     registry = ChunkManager.playlists this) /\
  (occurs "/" url ->
     exists p,
       Playlist.new url (m3u8_parse content) = Return p /\
       ChunkManager.outcome r = Return tt /\
       Map_get registry url = Some p /\
       (forall k, k <> url -> Map_get registry k = Map_get (ChunkManager.playlists this) k) /\
       (In url (map fst (ChunkManager.playlists this)) ->
          map fst registry = map fst (ChunkManager.playlists this)) /\
       (~ In url (map fst (ChunkManager.playlists this)) ->
          map fst registry = map fst (ChunkManager.playlists this) ++ [url])).
Proof.
  intros r registry. subst registry r. rewrite processHlsPlaylist_outcome.
  destruct (Playlist_new_cases url (m3u8_parse content)) as [Hthrow Hok].
  destruct (Playlist.new url (m3u8_parse content)) as [p|e] eqn:Hnew;
    unfold ChunkManager.effects, ChunkManager.state, ChunkManager.outcome;
    cbn [fst snd ChunkManager.set_playlists ChunkManager.chunk ChunkManager.prevLoadUrl
         ChunkManager.playQueue ChunkManager.playlists];
    do 4 (split; [reflexivity|]); split.
  - intros Hno. pose proof (Hthrow Hno). discriminate.
  - intros _. exists p. split; [reflexivity|]. split; [reflexivity|].
    split; [apply Map_get_set_same|]. split; [intros k Hk; apply Map_get_set_other, Hk|].
    rewrite Map_set_keys.
    destruct (in_dec string_dec url (map fst (ChunkManager.playlists this)));
      split; intros; try reflexivity; contradiction.
  - intros Hno. pose proof (Hthrow Hno) as H. injection H as ->. split; reflexivity.
  - intros Hyes. destruct (Hok Hyes) as [d [f [_ [_ H]]]]. discriminate.
Qed.

Lemma find_Map_set (f : Playlist.t -> bool) (m : list (string * Playlist.t))
    (k : string) (p : Playlist.t) :
  f p = false ->
  (forall old, Map_get m k = Some old -> f old = false) ->
  find f (Map_values (Map_set m k p)) = find f (Map_values m).
Proof.
  intros Hp. unfold Map_values. induction m as [|[k' v'] m IH]; intros Hold; simpl.
  - rewrite Hp. reflexivity.
  - simpl in Hold. destruct (String.eqb k' k); simpl.
    + rewrite Hp, (Hold v' eq_refl). reflexivity.
    + destruct (f v'); [reflexivity | exact (IH Hold)].
Qed.

(** X15: registering a playlist without child playlists under a URL that was
    not the URL of a playlist with child playlists leaves the master playlist,
    and so the swarm id of every playlist, as it was. *)
Theorem media_playlist_keeps_swarm_ids (this : ChunkManager.t) (url content : string)
    (p : Playlist.t) :
  Playlist.new url (m3u8_parse content) = Return p ->
  Manifest.playlists (Playlist.manifest p) = None ->
  (forall old, Map_get (ChunkManager.playlists this) url = Some old ->
               Manifest.playlists (Playlist.manifest old) = None) ->
  let this' := ChunkManager.state (ChunkManager.processHlsPlaylist url content this) in
  ChunkManager.getMasterPlaylist this' = ChunkManager.getMasterPlaylist this /\
  forall q, ChunkManager.getSwarmId this' q = ChunkManager.getSwarmId this q.
Proof.
  intros Hnew Hmedia Hold this'.
  assert (Hmaster : ChunkManager.getMasterPlaylist this'
                    = ChunkManager.getMasterPlaylist this).
  { subst this'. rewrite processHlsPlaylist_outcome, Hnew.
    unfold ChunkManager.getMasterPlaylist, ChunkManager.state.
    cbn [fst snd ChunkManager.set_playlists ChunkManager.playlists].
    apply find_Map_set.
    - rewrite Hmedia. reflexivity.
    - intros old Hget. rewrite (Hold old Hget). reflexivity. }
  split; [exact Hmaster|].
  intros q. unfold ChunkManager.getSwarmId. rewrite Hmaster. reflexivity.
Qed.

Lemma loadHlsPlaylist_failed (this : ChunkManager.t) (url : string) (flag : bool)
    (fetched : Outcome string) (e : string) :
  (fetched = Throw e \/
   exists content, fetched = Return content /\
                   Playlist.new url (m3u8_parse content) = Throw e) ->
  ChunkManager.loadHlsPlaylist url flag fetched this
  = (Throw e,
     ChunkManager.set_playlists (Map_delete (ChunkManager.playlists this) url) this, []).
Proof.
  intros H. unfold ChunkManager.loadHlsPlaylist.
  unfold ChunkManager.bind at 1. unfold ChunkManager.tryCatch.
  destruct H as [->|[content [-> Hnew]]].
  - reflexivity.
  - cbn [ChunkManager.lift].
    rewrite (bind_pure content this this (ChunkManager.ret content) _ eq_refl).
    unfold ChunkManager.bind at 1. rewrite processHlsPlaylist_outcome, Hnew. reflexivity.
Qed.

(** X16: when the fetch of [loadHlsPlaylist] is rejected, or the URL holds no
    "/", the method removes the entry of the URL from the registry (also one
    registered earlier), re-throws the error, starts no child fetch, and
    leaves every other entry, the active request, the last requested URL and
    the play queue as they are. *)
Theorem loadHlsPlaylist_failure_drops_entry (this : ChunkManager.t) (url : string)
    (loadChildPlaylists : bool) (fetched : Outcome string) :
  (forall content, fetched = Return content -> ~ occurs "/" url) ->
  let r := ChunkManager.loadHlsPlaylist url loadChildPlaylists fetched this in
  let registry := ChunkManager.playlists (ChunkManager.state r) in
  ChunkManager.outcome r
  = Throw (match fetched with
           | Throw e => e
           | Return _ => "Unexpected playlist URL format"%string
           end) /\
  ChunkManager.effects r = [] /\
  Map_get registry url = None /\
  (forall k, k <> url -> Map_get registry k = Map_get (ChunkManager.playlists this) k) /\
  ChunkManager.chunk (ChunkManager.state r) = ChunkManager.chunk this /\
  ChunkManager.prevLoadUrl (ChunkManager.state r) = ChunkManager.prevLoadUrl this /\
  ChunkManager.playQueue (ChunkManager.state r) = ChunkManager.playQueue this.
Proof.
  intros Hbad r registry. subst registry r.
  rewrite (loadHlsPlaylist_failed this url loadChildPlaylists fetched
             (match fetched with
              | Throw e => e
              | Return _ => "Unexpected playlist URL format"%string
              end)).
  - unfold ChunkManager.outcome, ChunkManager.effects, ChunkManager.state.
    cbn [fst snd ChunkManager.set_playlists ChunkManager.playlists ChunkManager.chunk
         ChunkManager.prevLoadUrl ChunkManager.playQueue].
    split; [reflexivity|]. split; [reflexivity|].
    split; [apply Map_get_delete_same|].
    split; [intros k Hk; apply Map_get_delete_other, Hk|]. auto.
  - destruct fetched as [content|e]; [right | left; reflexivity].
    exists content. split; [reflexivity|].
    exact (proj1 (Playlist_new_cases url (m3u8_parse content)) (Hbad content eq_refl)).
Qed.

(** X17: when the fetch of [loadHlsPlaylist] resolves and the URL is well
    formed, the method does to the manager what [processHlsPlaylist] does,
    answers the fetched text, and starts one fetch per child playlist of the
    new playlist, in order, when [loadChildPlaylists] is set, and none
    otherwise. *)
Theorem loadHlsPlaylist_registers_and_fetches_children (this : ChunkManager.t)
    (url content : string) (loadChildPlaylists : bool) (p : Playlist.t) :
  Playlist.new url (m3u8_parse content) = Return p ->
  ChunkManager.loadHlsPlaylist url loadChildPlaylists (Return content) this
  = (Return (content,
             if loadChildPlaylists then Playlist.getChildPlaylistAbsoluteUrls p else []),
     ChunkManager.state (ChunkManager.processHlsPlaylist url content this),
     []) /\
  Map_get (ChunkManager.playlists
             (ChunkManager.state (ChunkManager.processHlsPlaylist url content this))) url
  = Some p.
Proof.
  intros Hnew. rewrite processHlsPlaylist_outcome, Hnew.
  unfold ChunkManager.state. cbn [fst snd ChunkManager.set_playlists ChunkManager.playlists].
  split; [|apply Map_get_set_same].
  unfold ChunkManager.loadHlsPlaylist.
  rewrite (bind_pure content this
             (ChunkManager.set_playlists (Map_set (ChunkManager.playlists this) url p) this)).
  - destruct loadChildPlaylists; [|reflexivity].
    rewrite (bind_pure _ _ _ ChunkManager.get _ eq_refl).
    cbn [ChunkManager.set_playlists ChunkManager.playlists].
    rewrite Map_get_set_same. reflexivity.
  - unfold ChunkManager.tryCatch. cbn [ChunkManager.lift].
    rewrite (bind_pure content this this (ChunkManager.ret content) _ eq_refl).
    unfold ChunkManager.bind at 1. rewrite processHlsPlaylist_outcome, Hnew. reflexivity.
Qed.

Lemma step_loadChunk_miss (w : World) (url : string)
    (onSuccess onError : option Callback) (retries : Z) :
  ChunkManager.playlist (ChunkManager.getChunkLocation (manager w) (Some url)) = None ->
  step (CallLoadChunk url onSuccess onError retries) w
  = perform (fun this =>
               (Return tt, this,
                if 0 <? retries
                then [SetTimeout (RetryLoadChunk url onSuccess onError (retries - 1)) 500]
                else ConsoleError ChunkManager.notFoundMessage ::
                     match onError with
                     | Some f => [SetTimeout (InvokeOnError f ChunkManager.notFoundMessage) 0]
                     | None => []
                     end)) w.
Proof.
  intros Hmiss. unfold step, perform. rewrite (loadChunk_miss _ _ _ _ _ Hmiss). reflexivity.
Qed.

Lemma run_cons (ev : Event) (evs : list Event) (w : World) :
  run (ev :: evs) w = run evs (step ev w).
Proof. reflexivity. Qed.

Lemma step_timer_last (task : Task) (delay : Z) (ts : list (Task * Z))
    (this : ChunkManager.t) (out : list Effect) :
  step (TimerFires (length ts)) {| manager := this; timers := ts ++ [(task, delay)]; log := out |}
  = perform (runTask task) {| manager := this; timers := ts; log := out |}.
Proof.
  unfold step. cbn [timers manager log].
  rewrite nth_error_last_added, remove_nth_last_added. reflexivity.
Qed.

Lemma retry_chain (n : nat) (w : World) (url : string) (onSuccess : option Callback)
    (f : Callback) :
  ChunkManager.playlist (ChunkManager.getChunkLocation (manager w) (Some url)) = None ->
  run (CallLoadChunk url onSuccess (Some f) (Z.of_nat n)
         :: repeat (TimerFires (length (timers w))) (S n)) w
  = {| manager := manager w;
       timers := timers w;
       log := log w ++ retryTimers url onSuccess (Some f) n
                ++ [ConsoleError ChunkManager.notFoundMessage;
                    SetTimeout (InvokeOnError f ChunkManager.notFoundMessage) 0;
                    Invoke f (JsString ChunkManager.notFoundMessage)] |}.
Proof.
  revert w. induction n as [|n IH]; intros w Hmiss.
  - rewrite run_cons. cbn [repeat]. rewrite run_cons. cbn [run fold_left].
    rewrite (step_loadChunk_miss _ _ _ _ _ Hmiss). unfold perform at 1.
    cbn [Z.of_nat Z.ltb Z.compare scheduled flat_map app manager timers log].
    rewrite step_timer_last.
    unfold perform, runTask, ChunkManager.emit. cbn [manager timers log scheduled flat_map app].
    rewrite app_nil_r, <- app_assoc.
    reflexivity.
  - rewrite run_cons. cbn [repeat]. rewrite run_cons.
    rewrite (step_loadChunk_miss _ _ _ _ _ Hmiss). unfold perform at 1.
    destruct (Z.ltb_spec 0 (Z.of_nat (S n))) as [_|Hle]; [|lia].
    cbn [scheduled flat_map app manager timers log].
    replace (Z.of_nat (S n) - 1) with (Z.of_nat n) by lia.
    rewrite step_timer_last. cbn [runTask].
    set (w1 := {| manager := manager w; timers := timers w;
                  log := log w ++ [SetTimeout (RetryLoadChunk url onSuccess (Some f)
                                                 (Z.of_nat n)) 500] |}).
    change (perform (ChunkManager.loadChunk url onSuccess (Some f) (Z.of_nat n)) w1)
      with (step (CallLoadChunk url onSuccess (Some f) (Z.of_nat n)) w1).
    rewrite <- run_cons.
    change (timers w) with (timers w1).
    specialize (IH w1 Hmiss). cbn [repeat] in IH. rewrite IH. subst w1. cbn [manager timers log].
    unfold retryTimers. rewrite seq_S, rev_app_distr. cbn [rev app map Nat.add].
    rewrite <- app_assoc. reflexivity.
Qed.

(** X10: a request with [n] retries for a URL that locates in no known
    playlist, followed by its timers firing one after the other, registers
    exactly [n] retry timers of 500 ms (with [n - 1], ..., 0 retries left),
    then logs the not-found message, registers the timer of delay 0 and
    invokes [onError] with the message, once; the manager and the other
    pending timers are as before. *)
Theorem unknown_chunk_retries_then_reports (n : nat) (w : World) (url : string)
    (onSuccess : option Callback) (f : Callback) :
  ChunkManager.playlist (ChunkManager.getChunkLocation (manager w) (Some url)) = None ->
  let w' := run (CallLoadChunk url onSuccess (Some f) (Z.of_nat n)
                   :: repeat (TimerFires (length (timers w))) (S n)) w in
  manager w' = manager w /\
  timers w' = timers w /\
  log w' = log w ++ retryTimers url onSuccess (Some f) n
             ++ [ConsoleError ChunkManager.notFoundMessage;
                 SetTimeout (InvokeOnError f ChunkManager.notFoundMessage) 0;
                 Invoke f (JsString ChunkManager.notFoundMessage)] /\
  length (retryTimers url onSuccess (Some f) n) = n.
Proof.
  intros Hmiss w'. subst w'. rewrite (retry_chain n w url onSuccess f Hmiss).
  cbn [manager timers log]. repeat split.
  unfold retryTimers. rewrite length_map, length_rev, length_seq. reflexivity.
Qed.

(** X11: in a run from the initial state, a callback that was handed to no
    [loadChunk] call of the run, by the application or by a callback, is
    never invoked, whatever the callbacks that are invoked do. *)
Theorem only_given_callbacks_are_invoked (evs : list Event) (f : Callback) :
  ~ In f (requestCallbacks evs) ->
  invocations [f] (log (run evs initial)) = 0%nat.
Proof.
  intros Hnot.
  destruct (potential_silent [f] evs initial) as [Hlog _].
  - reflexivity.
  - apply arrivals_none. apply touches_false. intros g Hg [<-|[]]. contradiction.
  - exact Hlog.
Qed.

Lemma loadChunk_activeIsLast (this : ChunkManager.t) (url : string)
    (onSuccess onError : option Callback) (retries : Z) :
  activeIsLast this ->
  activeIsLast
    (ChunkManager.state (ChunkManager.loadChunk url onSuccess onError retries this)).
Proof.
  intros H.
  destruct (ChunkManager.getChunkLocation this (Some url)) as [[p|] i] eqn:Hloc.
  - assert (Hp : ChunkManager.playlist (ChunkManager.getChunkLocation this (Some url))
                 = Some p) by (rewrite Hloc; reflexivity).
    destruct (getChunkLocation_Some _ _ _ Hp) as [u [[= <-] [Hu _]]].
    destruct (loadChunk_located this url onSuccess onError retries p i Hloc)
      as [files [Hrun _]].
    rewrite Hrun. unfold activeIsLast, ChunkManager.state. simpl. split.
    + intros c [= <-]. reflexivity.
    + intros u [= <-]. exact Hu.
  - rewrite loadChunk_miss by (rewrite Hloc; reflexivity). exact H.
Qed.

Lemma call_activeIsLast (c : PublicCall) (this : ChunkManager.t) :
  activeIsLast this -> activeIsLast (ChunkManager.state (ChunkManager.call c this)).
Proof.
  intros H. destruct c as [url content|url s e r|url|url]; cbn [ChunkManager.call].
  - destruct (processHlsPlaylist_run this url content) as [o [pls Hrun]].
    rewrite Hrun. exact H.
  - apply loadChunk_activeIsLast. exact H.
  - destruct url as [u|]; [|exact H].
    destruct (String.eqb_spec u "") as [->|Hu]; [exact H|].
    destruct (setCurrentChunk_run this u Hu)
      as [[p [files [_ [Hrun _]]]]|[_ Hrun]]; rewrite Hrun; exact H.
  - rewrite abortChunk_run. destruct (activeFor this url); [|exact H].
    destruct H as [H1 H2]. split; [intros c Hc; discriminate | exact H2].
Qed.

Lemma step_activeIsLast (ev : Event) (w : World) :
  activeIsLast (manager w) -> activeIsLast (manager (step ev w)).
Proof.
  intros H.
  assert (Hhandler : forall reaction,
             eventReaction ev = Some reaction -> activeIsLast (manager (step ev w))).
  { intros reaction Hev.
    apply (step_handler_keeps activeIsLast ev reaction w Hev); try assumption.
    - intros c this _. apply call_activeIsLast.
    - intros this [H1 H2]. split; [intros c Hc; discriminate | exact H2].
    - intros this queue H'. exact H'. }
  destruct ev; try (apply (Hhandler reaction); reflexivity);
    unfold step; try rewrite perform_manager.
  - exact (call_activeIsLast (DoProcessHlsPlaylist url content) _ H).
  - exact H.
  - exact (call_activeIsLast (DoLoadChunk url onSuccess onError playlistMissRetries) _ H).
  - exact (call_activeIsLast (DoSetCurrentChunk url) _ H).
  - exact (call_activeIsLast (DoAbortChunk url) _ H).
  - destruct (nth_error (timers w) k) as [[task d]|]; [|exact H].
    rewrite perform_manager. cbn [manager]. destruct task; simpl runTask.
    + apply loadChunk_activeIsLast. exact H.
    + exact H.
Qed.

Lemma run_activeIsLast (evs : list Event) (w : World) :
  activeIsLast (manager w) -> activeIsLast (manager (run evs w)).
Proof.
  revert w. induction evs as [|ev evs IH]; intros w H; simpl.
  - exact H.
  - apply IH, step_activeIsLast, H.
Qed.

(** X12: in every state the manager can reach, the active chunk request (if
    any) is for the last requested URL, the last requested URL is never the
    empty string, and before the first located request there is no active
    request and the play queue is empty. *)
Theorem active_request_is_last_requested (evs : list Event) :
  let this := manager (run evs initial) in
  (forall c, ChunkManager.chunk this = Some c ->
             ChunkManager.prevLoadUrl this = Some (Chunk.url c)) /\
  (forall u, ChunkManager.prevLoadUrl this = Some u -> u <> EmptyString) /\
  (ChunkManager.prevLoadUrl this = None ->
     ChunkManager.chunk this = None /\ ChunkManager.playQueue this = []).
Proof.
  intros this.
  assert (H : activeIsLast this).
  { apply run_activeIsLast. split; intros ? H; discriminate H. }
  destruct H as [H1 H2]. split; [exact H1|]. split; [exact H2|].
  apply (run_tracked evs initial initial_tracked).
Qed.

Lemma truthy_nonempty (u : string) : u <> EmptyString -> truthy (Some u) = true.
Proof.
  intros Hu. unfold truthy. destruct (String.eqb_spec u ""); [contradiction | reflexivity].
Qed.

Lemma setCurrentChunk_unfold (this : ChunkManager.t) (u : string) :
  u <> EmptyString ->
  let this1 := ChunkManager.set_playQueue (trimQueue (ChunkManager.playQueue this) u) this in
  let location := ChunkManager.getChunkLocation this (ChunkManager.prevLoadUrl this) in
  ChunkManager.setCurrentChunk (Some u) this
  = if truthy (ChunkManager.prevLoadUrl this) then
      match ChunkManager.playlist location with
      | Some p => ChunkManager.loadFiles p (ChunkManager.chunkIndex location) None this1
      | None => (Return tt, this1, [])
      end
    else (Return tt, this1, []).
Proof.
  intros Hu this1 location. unfold ChunkManager.setCurrentChunk.
  rewrite (truthy_nonempty u Hu).
  rewrite (bind_pure this this this ChunkManager.get _ eq_refl).
  rewrite (bind_pure tt this this1).
  2:{ subst this1. unfold trimQueue. destruct this.
      cbn [ChunkManager.playQueue]. destruct (indexOf _ u <? 0); reflexivity. }
  rewrite (bind_pure this1 this1 this1 ChunkManager.get _ eq_refl).
  change (ChunkManager.prevLoadUrl this1) with (ChunkManager.prevLoadUrl this).
  rewrite (getChunkLocation_playlists this this1 _ eq_refl). fold location.
  destruct (truthy _); [|reflexivity].
  destruct (ChunkManager.playlist location); reflexivity.
Qed.

Lemma first_occurrence (queue : list string) (u : string) :
  In u queue -> exists before after, queue = before ++ u :: after /\ ~ In u before.
Proof.
  induction queue as [|x queue IH]; [contradiction|].
  intros Hin. destruct (string_dec x u) as [->|Hne].
  - exists [], queue. split; [reflexivity | intros []].
  - destruct Hin as [Hx|Hin]; [contradiction|].
    destruct (IH Hin) as [before [after [-> Hb]]].
    exists (x :: before), after. split; [reflexivity|].
    intros [H|H]; [contradiction | exact (Hb H)].
Qed.

Lemma trimQueue_idempotent (queue : list string) (u : string) :
  trimQueue (trimQueue queue u) u = trimQueue queue u.
Proof.
  destruct (in_dec string_dec u queue) as [Hin|Hin].
  - destruct (first_occurrence queue u Hin) as [before [after [Hq Hb]]].
    rewrite (proj1 (trimQueue_trimmed queue u) before after Hq Hb).
    exact (proj1 (trimQueue_trimmed (u :: after) u) [] after eq_refl (fun H => H)).
  - rewrite (proj2 (trimQueue_trimmed queue u) Hin).
    exact (proj2 (trimQueue_trimmed queue u) Hin).
Qed.

(** X13: [setCurrentChunk] is idempotent: called again with the same
    argument on the state it left, it leaves that state as it is and submits
    the same batch again. *)
Theorem setCurrentChunk_twice (this : ChunkManager.t) (url : option string) :
  let r := ChunkManager.setCurrentChunk url this in
  ChunkManager.setCurrentChunk url (ChunkManager.state r) = r.
Proof.
  intros r. subst r. destruct url as [u|]; [|reflexivity].
  destruct (String.eqb_spec u "") as [->|Hu]; [reflexivity|].
  set (this1 := ChunkManager.set_playQueue (trimQueue (ChunkManager.playQueue this) u) this).
  assert (Hstate : ChunkManager.state (ChunkManager.setCurrentChunk (Some u) this) = this1).
  { destruct (setCurrentChunk_run this u Hu) as [[p [files [_ [Hrun _]]]]|[_ Hrun]];
      rewrite Hrun; reflexivity. }
  rewrite Hstate.
  rewrite (setCurrentChunk_unfold this u Hu), (setCurrentChunk_unfold this1 u Hu).
  fold this1.
  assert (Hsame : ChunkManager.set_playQueue (trimQueue (ChunkManager.playQueue this1) u) this1
                  = this1).
  { subst this1. unfold ChunkManager.set_playQueue.
    cbn [ChunkManager.playQueue ChunkManager.playlists ChunkManager.chunk
         ChunkManager.prevLoadUrl].
    rewrite trimQueue_idempotent. reflexivity. }
  rewrite Hsame.
  change (ChunkManager.prevLoadUrl this1) with (ChunkManager.prevLoadUrl this).
  rewrite (getChunkLocation_playlists this this1 _ eq_refl). reflexivity.
Qed.

(** X14: when the active request, located at index [i], is loaded, its
    callback makes no call to the manager (whether it returns or throws),
    and the next request locates at index [i + 1], the play queue is the
    former one with the loaded URL appended, and the batch of the next
    request starts at a priority equal to the former length of the queue. *)
Theorem consecutive_request_deepens_queue (this : ChunkManager.t) (c : Chunk.t)
    (file : LoaderFile.t) (reaction : Reaction) (next : string)
    (onSuccess onError : option Callback) (retries : Z) (p p' : Playlist.t) (i : Z) :
  ChunkManager.chunk this = Some c ->
  LoaderFile.url file = Chunk.url c ->
  calls reaction = [] ->
  ChunkManager.getChunkLocation this (Some (Chunk.url c))
  = {| ChunkManager.playlist := Some p; ChunkManager.chunkIndex := i |} ->
  ChunkManager.getChunkLocation this (Some next)
  = {| ChunkManager.playlist := Some p'; ChunkManager.chunkIndex := i + 1 |} ->
  let this1 := ChunkManager.state (ChunkManager.onFileLoaded file reaction this) in
  let r := ChunkManager.loadChunk next onSuccess onError retries this1 in
  ChunkManager.playQueue (ChunkManager.state r)
  = ChunkManager.playQueue this ++ [Chunk.url c] /\
  exists files,
    ChunkManager.effects r
    = [LoaderLoad files (ChunkManager.getSwarmId this p') (Some next)] /\
    forwardBatch p' (i + 1) (Z.of_nat (length (ChunkManager.playQueue this))) files.
Proof.
  intros Hc Hfile Hcalls Hprev Hnext this1 r.
  assert (H1 : exists active,
             this1 = ChunkManager.set_chunk active
                       (ChunkManager.set_playQueue
                          (ChunkManager.playQueue this ++ [Chunk.url c]) this)).
  { subst this1. rewrite onFileLoaded_run. unfold activeFor.
    rewrite Hc, Hfile, String.eqb_refl. cbv zeta.
    destruct (Chunk.onSuccess c) as [f|]; [|exists None; reflexivity].
    unfold settle. rewrite Hcalls. cbn [ChunkManager.callAll].
    destruct (thrown reaction); [exists (Some c) | exists None];
      unfold ChunkManager.state, ChunkManager.ret; cbn [fst snd];
      unfold ChunkManager.set_chunk, ChunkManager.set_playQueue;
      cbn [ChunkManager.playlists ChunkManager.chunk ChunkManager.prevLoadUrl
           ChunkManager.playQueue]; rewrite ?Hc; reflexivity. }
  destruct H1 as [active H1].
  assert (Hloc : forall u, ChunkManager.getChunkLocation this1 u
                           = ChunkManager.getChunkLocation this u).
  { intros u. apply getChunkLocation_playlists. rewrite H1. reflexivity. }
  assert (Hq : ChunkManager.playQueue this1 = ChunkManager.playQueue this ++ [Chunk.url c])
    by (rewrite H1; reflexivity).
  assert (Hnext1 : ChunkManager.getChunkLocation this1 (Some next)
                   = {| ChunkManager.playlist := Some p';
                        ChunkManager.chunkIndex := i + 1 |})
    by (rewrite Hloc; exact Hnext).
  destruct (loadChunk_located this1 next onSuccess onError retries p' (i + 1) Hnext1)
    as [files [Hrun Hbatch]].
  rewrite (sequenceBreak_last this1 _ _ (i + 1) Hq), Hloc, Hprev in Hrun, Hbatch.
  cbn [ChunkManager.playlist ChunkManager.chunkIndex] in Hrun, Hbatch.
  replace (i =? i + 1 - 1) with true in Hrun, Hbatch by (symmetry; apply Z.eqb_eq; lia).
  cbn [negb] in Hrun, Hbatch.
  subst r. rewrite Hrun. unfold ChunkManager.state, ChunkManager.effects.
  cbn [fst snd ChunkManager.playQueue]. split; [exact Hq|].
  exists files. split.
  - rewrite (getSwarmId_playlists this this1 p'); [reflexivity|]. rewrite H1. reflexivity.
  - rewrite Hq in Hbatch. unfold priorityBase in Hbatch. rewrite length_app in Hbatch.
    simpl length in Hbatch.
    replace (Z.max 0 (Z.of_nat (length (ChunkManager.playQueue this) + 1) - 1))
      with (Z.of_nat (length (ChunkManager.playQueue this))) in Hbatch by lia.
    exact Hbatch.
Qed.

End FurtherProperties.

(** ** The properties on the examples *)

Lemma absolute_urls_resolve_example :
  (exists u, Playlist.getChunkAbsoluteUrl (E := exampleEnv) v2Playlist 2 = Some u /\
             resolves (E := exampleEnv) v2Playlist "https://cdn/t2.ts" u) /\
  (exists u, nth_error (Playlist.getChildPlaylistAbsoluteUrls (E := exampleEnv) masterPlaylist) 1
             = Some u /\
             resolves (E := exampleEnv) masterPlaylist "v2.m3u8" u).
Proof.
  split.
  - exact (proj1 (absolute_urls_resolve (E := exampleEnv) v2Playlist)
             2%nat (item "https://cdn/t2.ts") eq_refl).
  - exact (proj2 (proj2 (absolute_urls_resolve (E := exampleEnv) masterPlaylist)
                    [item "v1.m3u8"; item "v2.m3u8"] eq_refl)
             1%nat (item "v2.m3u8") eq_refl).
Defined.

Lemma loadChunk_forward_batch_example :
  ChunkManager.getChunkLocation (E := exampleEnv) (managerAfter streamRegistered)
    (Some "https://h/s0.ts"%string)
  = {| ChunkManager.playlist := Some v1Playlist; ChunkManager.chunkIndex := 0 |} /\
  exists files,
    ChunkManager.effects
      (ChunkManager.loadChunk (E := exampleEnv) "https://h/s0.ts" None None 1
         (managerAfter streamRegistered))
    = [LoaderLoad files "https://h/m.m3u8+0" (Some "https://h/s0.ts"%string)] /\
    Z.of_nat (length files) = 2.
Proof.
  assert (Hloc : ChunkManager.getChunkLocation (E := exampleEnv)
                   (managerAfter streamRegistered) (Some "https://h/s0.ts"%string)
                 = {| ChunkManager.playlist := Some v1Playlist;
                      ChunkManager.chunkIndex := 0 |}) by (vm_compute; reflexivity).
  split; [exact Hloc|].
  destruct (loadChunk_forward_batch (E := exampleEnv) (managerAfter streamRegistered)
              "https://h/s0.ts" None None 1 v1Playlist 0 Hloc)
    as [files [_ [Heff [_ [Hlen _]]]]].
  exists files. split; [exact Heff | exact Hlen].
Defined.

Lemma loadChunk_unknown_playlist_example :
  timers (step (E := exampleEnv)
            (CallLoadChunk "https://h/zz.ts" (Some 3%nat) (Some 4%nat) 1) initial)
  = [(RetryLoadChunk "https://h/zz.ts" (Some 3%nat) (Some 4%nat) 0, 500)] /\
  log (step (E := exampleEnv) (TimerFires 0)
         (step (E := exampleEnv) (TimerFires 0)
            (step (E := exampleEnv)
               (CallLoadChunk "https://h/zz.ts" (Some 3%nat) (Some 4%nat) 0) initial)))
  = [ConsoleError ChunkManager.notFoundMessage;
     SetTimeout (InvokeOnError 4%nat ChunkManager.notFoundMessage) 0;
     Invoke 4%nat (JsString ChunkManager.notFoundMessage)].
Proof.
  split.
  - destruct (loadChunk_unknown_playlist (E := exampleEnv) initial "https://h/zz.ts"
                (Some 3%nat) (Some 4%nat) 1 eq_refl) as [_ [_ [_ [Hretry _]]]].
    destruct (Hretry ltac:(lia)) as [_ [Ht _]]. exact Ht.
  - destruct (loadChunk_unknown_playlist (E := exampleEnv) initial "https://h/zz.ts"
                (Some 3%nat) (Some 4%nat) 0 eq_refl) as [_ [_ [_ [_ [Hreport _]]]]].
    destruct (Hreport ltac:(lia) 4%nat eq_refl) as [_ [_ Hfire]].
    cbn [timers initial length] in Hfire. rewrite Hfire. reflexivity.
Defined.

Lemma abortChunk_frame_example :
  ChunkManager.state
    (ChunkManager.abortChunk "https://h/s0.ts" (managerAfter firstSegmentRequested))
  = ChunkManager.set_chunk None (managerAfter firstSegmentRequested) /\
  ChunkManager.onFileLoaded (E := exampleEnv) (LoaderFile.new "https://h/s0.ts" 0) quiet
    (ChunkManager.state
       (ChunkManager.abortChunk "https://h/s0.ts" (managerAfter firstSegmentRequested)))
  = (Return tt,
     ChunkManager.state
       (ChunkManager.abortChunk "https://h/s0.ts" (managerAfter firstSegmentRequested)),
     []).
Proof.
  destruct (abortChunk_frame (E := exampleEnv) (managerAfter firstSegmentRequested)
              "https://h/s0.ts")
    as [_ [_ [Hactive _]]].
  destruct (Hactive (Chunk.new "https://h/s0.ts" (Some 1%nat) (Some 2%nat))
              ltac:(vm_compute; reflexivity) eq_refl) as [Hstate [_ [_ [_ Hloaded]]]].
  split; [exact Hstate|].
  exact (Hloaded (LoaderFile.new "https://h/s0.ts" 0) quiet eq_refl).
Defined.

Lemma loadChunk_keeps_queue_when_last_unknown_example :
  ChunkManager.playlist
    (ChunkManager.getChunkLocation (E := exampleEnv) (managerAfter firstVariantDropped)
       (Some "https://h/s0.ts"%string)) = None /\
  ChunkManager.playQueue
    (ChunkManager.state
       (ChunkManager.loadChunk (E := exampleEnv) "https://cdn/t2.ts" None None 1
          (managerAfter firstVariantDropped)))
  = ["https://h/s0.ts"%string].
Proof.
  split; [vm_compute; reflexivity|].
  exact (loadChunk_keeps_queue_when_last_unknown (E := exampleEnv)
           (managerAfter firstVariantDropped) "https://cdn/t2.ts" None None 1
           [] "https://h/s0.ts" v2Playlist 2
           ltac:(vm_compute; reflexivity) ltac:(vm_compute; reflexivity)
           ltac:(vm_compute; reflexivity)).
Defined.

Lemma loadChunk_sequence_check_example :
  ChunkManager.playQueue (managerAfter firstSegmentPlayed) = ["https://h/s0.ts"%string] /\
  ChunkManager.playQueue
    (ChunkManager.state
       (ChunkManager.loadChunk (E := exampleEnv) "https://cdn/t2.ts" None None 1
          (managerAfter firstSegmentPlayed)))
  = [].
Proof.
  split; [vm_compute; reflexivity|].
  destruct (loadChunk_sequence_check (E := exampleEnv)
              (managerAfter firstSegmentPlayed) "https://cdn/t2.ts" None None 1
              [] "https://h/s0.ts" v2Playlist 2
              ltac:(vm_compute; reflexivity) ltac:(vm_compute; reflexivity))
    as [Hbreak _].
  apply Hbreak.
  - vm_compute. discriminate.
  - vm_compute. discriminate.
Defined.

Lemma getSwarmId_resolves_example :
  ChunkManager.getSwarmId (E := exampleEnv) (managerAfter streamRegistered) v2Playlist
  = "https://h/m.m3u8+1"%string.
Proof.
  apply (proj1 (getSwarmId_resolves (E := exampleEnv) (managerAfter streamRegistered)
                  v2Playlist) masterPlaylist 1%nat).
  - vm_compute. reflexivity.
  - vm_compute. discriminate.
  - vm_compute. reflexivity.
  - intros j Hj. assert (j = 0%nat) as -> by lia. vm_compute. discriminate.
Defined.

Lemma processHlsPlaylist_then_locate_example :
  ChunkManager.getChunkLocation (E := exampleEnv)
    (ChunkManager.state
       (ChunkManager.processHlsPlaylist (E := exampleEnv) "https://h/v2.m3u8" "v2"
          (managerAfter [CallProcessHlsPlaylist "https://h/m.m3u8" "master";
                         CallProcessHlsPlaylist "https://h/v1.m3u8" "v1"])))
    (Some "https://h/t0.ts"%string)
  = {| ChunkManager.playlist := Some v2Playlist; ChunkManager.chunkIndex := 0 |}.
Proof.
  apply (processHlsPlaylist_then_locate (E := exampleEnv)
           (managerAfter [CallProcessHlsPlaylist "https://h/m.m3u8" "master";
                          CallProcessHlsPlaylist "https://h/v1.m3u8" "v1"])
           "https://h/v2.m3u8" "v2" v2Playlist 0 "https://h/t0.ts").
  - reflexivity.
  - vm_compute. reflexivity.
  - vm_compute. reflexivity.
  - intros j Hj. unfold Playlist.getChunkAbsoluteUrl.
    destruct (Z.ltb_spec j 0); [discriminate | lia].
  - intros q Hq Hidx.
    change (In q [masterPlaylist; v1Playlist; v2Playlist]) in Hq.
    destruct Hq as [<-|[<-|[<-|[]]]].
    + exfalso. revert Hidx.
      change (Playlist.getChunkIndex (E := exampleEnv) masterPlaylist "https://h/t0.ts")
        with (-1). lia.
    + exfalso. revert Hidx.
      change (Playlist.getChunkIndex (E := exampleEnv) v1Playlist "https://h/t0.ts")
        with (-1). lia.
    + reflexivity.
Defined.

Lemma setCurrentChunk_resumes_example :
  trimmed (ChunkManager.playQueue (managerAfter firstSegmentPlayed)) "https://h/s0.ts"
    (ChunkManager.playQueue
       (ChunkManager.state
          (ChunkManager.setCurrentChunk (E := exampleEnv) (Some "https://h/s0.ts"%string)
             (managerAfter firstSegmentPlayed)))) /\
  exists files,
    ChunkManager.effects
      (ChunkManager.setCurrentChunk (E := exampleEnv) (Some "https://h/s0.ts"%string)
         (managerAfter firstSegmentPlayed))
    = [LoaderLoad files
         (ChunkManager.getSwarmId (E := exampleEnv) (managerAfter firstSegmentPlayed)
            v1Playlist) None] /\
    forwardBatch (E := exampleEnv) v1Playlist 0
      (priorityBase
         (ChunkManager.playQueue
            (ChunkManager.state
               (ChunkManager.setCurrentChunk (E := exampleEnv)
                  (Some "https://h/s0.ts"%string) (managerAfter firstSegmentPlayed)))))
      files.
Proof.
  destruct (setCurrentChunk_resumes (E := exampleEnv) (managerAfter firstSegmentPlayed)
              (Some "https://h/s0.ts"%string)) as [_ [_ [_ [_ [_ [Hurl _]]]]]].
  destruct (Hurl "https://h/s0.ts"%string eq_refl ltac:(discriminate))
    as [Htrim [Hbatch _]].
  split; [exact Htrim|].
  exact (Hbatch "https://h/s0.ts"%string v1Playlist 0
           ltac:(vm_compute; reflexivity) ltac:(vm_compute; reflexivity)).
Defined.

Lemma callbacks_at_most_once_example :
  requested requestInsideCallback "https://h/s0.ts" (Some 1%nat) (Some 2%nat) 1 /\
  (arrivals [1%nat; 2%nat] (requests requestInsideCallback) <= 1)%nat /\
  throwsDuring (E := exampleEnv) [1%nat; 2%nat] requestInsideCallback initial = false /\
  (invocations [1%nat; 2%nat]
     (log (run (E := exampleEnv) requestInsideCallback initial)) <= 1)%nat.
Proof.
  assert (Hin : requested requestInsideCallback "https://h/s0.ts"
                  (Some 1%nat) (Some 2%nat) 1).
  { left. simpl. auto 10. }
  assert (Hone : (arrivals (callbacks (Some 1%nat) (Some 2%nat))
                    (requests requestInsideCallback) <= 1)%nat).
  { vm_compute. lia. }
  assert (Hthrows : throwsDuring (E := exampleEnv) (callbacks (Some 1%nat) (Some 2%nat))
                      requestInsideCallback initial = false).
  { vm_compute. reflexivity. }
  split; [exact Hin|]. split; [exact Hone|]. split; [exact Hthrows|].
  exact (callbacks_at_most_once (E := exampleEnv) _ _ _ _ _ Hin Hone Hthrows).
Defined.

(** ** Where the code departs from the spec's wording *)

Lemma run_app {E : Env} (evs later : list Event) (w : World) :
  run (evs ++ later) w = run later (run evs w).
Proof. unfold run. apply fold_left_app. Qed.

(** C1 as worded asks for exactly one callback, never invoked twice,
    whatever follows. A request that the caller aborts is never answered:
    whatever happens afterwards (any loader events for its URL, timers,
    other requests with callbacks of their own), neither of its callbacks is
    invoked. And a callback that throws is invoked again: the handler has not
    cleared the request, so the next event for the URL reaches it. *)
Lemma request_answered_never_or_twice :
  (requested requestAborted "https://h/s0.ts" (Some 1%nat) (Some 2%nat) 1 /\
   (arrivals [1%nat; 2%nat] (requests requestAborted) <= 1)%nat /\
   forall later,
     touches [1%nat; 2%nat] (requestCallbacks later) = false ->
     invocations [1%nat; 2%nat]
       (log (run (E := exampleEnv) (requestAborted ++ later) initial)) = 0%nat) /\
  (requested callbackThrows "https://h/s0.ts" (Some 1%nat) (Some 2%nat) 1 /\
   (arrivals [1%nat; 2%nat] (requests callbackThrows) <= 1)%nat /\
   log (run (E := exampleEnv) callbackThrows initial)
   = [LoaderLoad [LoaderFile.new "https://h/s0.ts" 0; LoaderFile.new "https://h/s1.ts" 1]
        "https://h/m.m3u8+0" (Some "https://h/s0.ts"%string);
      Invoke 1%nat (LoaderFile.data (LoaderFile.new "https://h/s0.ts" 0));
      Invoke 1%nat (LoaderFile.data (LoaderFile.new "https://h/s0.ts" 0))] /\
   invocations [1%nat; 2%nat] (log (run (E := exampleEnv) callbackThrows initial))
   = 2%nat).
Proof.
  split; [split; [|split]|split; [|split; [|split]]].
  - left. simpl. auto 10.
  - vm_compute. lia.
  - intros later Hfresh. rewrite run_app.
    destruct (potential_silent (E := exampleEnv) [1%nat; 2%nat] later
                (run (E := exampleEnv) requestAborted initial)) as [Hlog _].
    + vm_compute. reflexivity.
    + apply arrivals_none. exact Hfresh.
    + rewrite Hlog. vm_compute. reflexivity.
  - left. simpl. auto 10.
  - vm_compute. lia.
  - vm_compute. reflexivity.
  - vm_compute. reflexivity.
Qed.

(** C2 as worded empties the play queue whenever the previous chunk is not
    at index [i - 1] of the same playlist. The code keeps the queue when the
    previous chunk is at index [i - 1] of another playlist (a request for
    segment 1 of the second variant after segment 0 of the first), and when
    the previous chunk locates no more (its playlist was dropped). *)
Lemma sequence_check_keeps_queue :
  (ChunkManager.playQueue (managerAfter firstSegmentPlayed) = ["https://h/s0.ts"%string] /\
   ChunkManager.getChunkLocation (E := exampleEnv) (managerAfter firstSegmentPlayed)
     (Some "https://h/s0.ts"%string)
   = {| ChunkManager.playlist := Some v1Playlist; ChunkManager.chunkIndex := 0 |} /\
   ChunkManager.getChunkLocation (E := exampleEnv) (managerAfter firstSegmentPlayed)
     (Some "https://h/t1.ts"%string)
   = {| ChunkManager.playlist := Some v2Playlist; ChunkManager.chunkIndex := 1 |} /\
   v1Playlist <> v2Playlist /\
   ChunkManager.playQueue
     (ChunkManager.state
        (ChunkManager.loadChunk (E := exampleEnv) "https://h/t1.ts" None None 1
           (managerAfter firstSegmentPlayed)))
   = ["https://h/s0.ts"%string]) /\
  (ChunkManager.playQueue (managerAfter firstVariantDropped) = ["https://h/s0.ts"%string] /\
   ChunkManager.getChunkLocation (E := exampleEnv) (managerAfter firstVariantDropped)
     (Some "https://h/s0.ts"%string)
   = {| ChunkManager.playlist := None; ChunkManager.chunkIndex := -1 |} /\
   ChunkManager.getChunkLocation (E := exampleEnv) (managerAfter firstVariantDropped)
     (Some "https://cdn/t2.ts"%string)
   = {| ChunkManager.playlist := Some v2Playlist; ChunkManager.chunkIndex := 2 |} /\
   ChunkManager.playQueue
     (ChunkManager.state
        (ChunkManager.loadChunk (E := exampleEnv) "https://cdn/t2.ts" None None 1
           (managerAfter firstVariantDropped)))
   = ["https://h/s0.ts"%string]).
Proof.
  repeat split; try (vm_compute; reflexivity). discriminate.
Qed.

(** C3 as worded answers index [i] for every segment [i]. A segment whose
    absolute URL already occurs earlier in its playlist locates at the
    earlier index, and a segment whose absolute URL occurs in a playlist
    registered before its own locates in that playlist. *)
Lemma locate_answers_first_match :
  (In ("https://h/r.m3u8"%string, repeatPlaylist)
      (ChunkManager.playlists (managerAfter repeatRegistered)) /\
   Playlist.getChunkAbsoluteUrl (E := exampleEnv) repeatPlaylist 1
   = Some "https://h/a.ts"%string /\
   ChunkManager.getChunkLocation (E := exampleEnv) (managerAfter repeatRegistered)
     (Some "https://h/a.ts"%string)
   = {| ChunkManager.playlist := Some repeatPlaylist; ChunkManager.chunkIndex := 0 |}) /\
  (In ("https://h/w.m3u8"%string, copyPlaylist)
      (ChunkManager.playlists (managerAfter copyRegistered)) /\
   Playlist.getChunkAbsoluteUrl (E := exampleEnv) copyPlaylist 0
   = Some "https://h/s0.ts"%string /\
   copyPlaylist <> v1Playlist /\
   ChunkManager.getChunkLocation (E := exampleEnv) (managerAfter copyRegistered)
     (Some "https://h/s0.ts"%string)
   = {| ChunkManager.playlist := Some v1Playlist; ChunkManager.chunkIndex := 0 |}).
Proof.
  repeat split; try (vm_compute; reflexivity).
  - vm_compute. auto.
  - vm_compute. auto 10.
  - discriminate.
Qed.

(** C4 as worded gives position [k] for every position at which the URL
    appears. With a master that lists one variant at positions 0 and 1, the
    swarm id of the variant carries position 0, not 1. *)
Lemma swarm_id_takes_first_position :
  ChunkManager.getMasterPlaylist (managerAfter twiceRegistered) = Some twicePlaylist /\
  nth_error (Playlist.getChildPlaylistAbsoluteUrls (E := exampleEnv) twicePlaylist) 1
  = Some (Playlist.url v1Playlist) /\
  ChunkManager.getSwarmId (E := exampleEnv) (managerAfter twiceRegistered) v1Playlist
  = "https://h/m.m3u8+0"%string /\
  ChunkManager.getSwarmId (E := exampleEnv) (managerAfter twiceRegistered) v1Playlist
  <> (Playlist.url twicePlaylist ++ "+" ++ toString 1)%string.
Proof.
  repeat split; try (vm_compute; reflexivity). vm_compute. discriminate.
Qed.

(** C7 as worded re-submits the forward batch whenever a prior request
    exists. Nothing is submitted when the last requested URL locates no more
    (its playlist was dropped), and nothing when the call gives no URL, though
    the last requested URL locates. *)
Lemma resume_submits_nothing :
  (ChunkManager.prevLoadUrl (managerAfter firstVariantDropped)
   = Some "https://h/s0.ts"%string /\
   ChunkManager.setCurrentChunk (E := exampleEnv) (Some "https://h/s0.ts"%string)
     (managerAfter firstVariantDropped)
   = (Return tt, managerAfter firstVariantDropped, [])) /\
  (ChunkManager.prevLoadUrl (managerAfter firstSegmentPlayed)
   = Some "https://h/s0.ts"%string /\
   ChunkManager.getChunkLocation (E := exampleEnv) (managerAfter firstSegmentPlayed)
     (Some "https://h/s0.ts"%string)
   = {| ChunkManager.playlist := Some v1Playlist; ChunkManager.chunkIndex := 0 |} /\
   ChunkManager.setCurrentChunk (E := exampleEnv) None (managerAfter firstSegmentPlayed)
   = (Return tt, managerAfter firstSegmentPlayed, [])).
Proof.
  repeat split; vm_compute; reflexivity.
Qed.

(** ** The further properties on the examples *)

Lemma Playlist_new_splits_url_example :
  Playlist.new "nopath" (parseExample "v1") = Throw "Unexpected playlist URL format" /\
  exists directory file,
    Playlist.baseUrl v1Playlist = (directory ++ "/")%string /\
    "https://h/v1.m3u8"%string = (Playlist.baseUrl v1Playlist ++ file)%string /\
    ~ occurs "/" file.
Proof.
  split.
  - apply (proj1 (Playlist_new_splits_url "nopath" (parseExample "v1"))).
    unfold occurs. simpl. intuition discriminate.
  - exact (proj2 (proj2 (proj2 (Playlist_new_splits_url "https://h/v1.m3u8"
                                   (parseExample "v1")) v1Playlist eq_refl))).
Defined.

Lemma processHlsPlaylist_registers_or_throws_example :
  ChunkManager.outcome
    (ChunkManager.processHlsPlaylist (E := exampleEnv) "nopath" "v1"
       (managerAfter streamRegistered))
  = Throw "Unexpected playlist URL format" /\
  ChunkManager.playlists
    (ChunkManager.state
       (ChunkManager.processHlsPlaylist (E := exampleEnv) "nopath" "v1"
          (managerAfter streamRegistered)))
  = ChunkManager.playlists (managerAfter streamRegistered).
Proof.
  destruct (processHlsPlaylist_registers_or_throws (E := exampleEnv)
              (managerAfter streamRegistered) "nopath" "v1")
    as [_ [_ [_ [_ [Hthrow _]]]]].
  apply Hthrow. unfold occurs. simpl. intuition discriminate.
Defined.

Lemma registry_keeps_one_playlist_per_url_example :
  Playlist.url v1Playlist = "https://h/v1.m3u8"%string /\
  Playlist.new "https://h/v1.m3u8" (Playlist.manifest v1Playlist) = Return v1Playlist /\
  Map_get (ChunkManager.playlists (manager (run (E := exampleEnv) firstVariantDropped initial)))
    "https://h/v2.m3u8"
  = Some v2Playlist.
Proof.
  destruct (registry_keeps_one_playlist_per_url (E := exampleEnv) streamRegistered)
    as [_ Hentry].
  destruct (Hentry "https://h/v1.m3u8"%string v1Playlist ltac:(vm_compute; auto))
    as [Hurl [Hnew _]].
  destruct (registry_keeps_one_playlist_per_url (E := exampleEnv) firstVariantDropped)
    as [_ Hentry'].
  destruct (Hentry' "https://h/v2.m3u8"%string v2Playlist ltac:(vm_compute; auto))
    as [_ [_ Hget]].
  split; [exact Hurl|]. split; [exact Hnew | exact Hget].
Defined.

Lemma only_playlist_events_change_registry_example :
  ChunkManager.playlists
    (manager (step (E := exampleEnv)
                (FileLoaded (LoaderFile.new "https://h/s0.ts" 0)
                   {| calls := [DoLoadChunk "https://h/s1.ts" (Some 3%nat) (Some 4%nat) 1];
                      thrown := None |})
                (run (E := exampleEnv) firstSegmentRequested initial)))
  = ChunkManager.playlists (manager (run (E := exampleEnv) firstSegmentRequested initial)).
Proof.
  apply (only_playlist_events_change_registry (E := exampleEnv)
           (FileLoaded (LoaderFile.new "https://h/s0.ts" 0)
              {| calls := [DoLoadChunk "https://h/s1.ts" (Some 3%nat) (Some 4%nat) 1];
                 thrown := None |})).
  - intros url content. discriminate.
  - intros url. discriminate.
  - intros reaction url content [= <-] [H|[]]. discriminate.
Defined.

Lemma getChunkIndex_least_example :
  Playlist.getChunkAbsoluteUrl (E := exampleEnv) v2Playlist
    (Playlist.getChunkIndex (E := exampleEnv) v2Playlist "https://h/t1.ts")
  = Some "https://h/t1.ts"%string /\
  forall j, Playlist.getChunkAbsoluteUrl (E := exampleEnv) v2Playlist j
            <> Some "https://h/zz.ts"%string.
Proof.
  split.
  - destruct (getChunkIndex_least (E := exampleEnv) v2Playlist "https://h/t1.ts")
      as [_ Hfound].
    destruct (Hfound ltac:(vm_compute; discriminate)) as [_ [Habs _]]. exact Habs.
  - destruct (getChunkIndex_least (E := exampleEnv) v2Playlist "https://h/zz.ts")
      as [Habsent _].
    apply Habsent. vm_compute. reflexivity.
Defined.

Lemma getChunkLocation_first_holder_example :
  Playlist.getChunkAbsoluteUrl (E := exampleEnv) v1Playlist
    (ChunkManager.chunkIndex
       (ChunkManager.getChunkLocation (E := exampleEnv) (managerAfter copyRegistered)
          (Some "https://h/s1.ts"%string)))
  = Some "https://h/s1.ts"%string /\
  forall q j, In q (Map_values (ChunkManager.playlists (managerAfter streamRegistered))) ->
              Playlist.getChunkAbsoluteUrl (E := exampleEnv) q j
              <> Some "https://h/zz.ts"%string.
Proof.
  split.
  - destruct (getChunkLocation_first_holder (E := exampleEnv) (managerAfter copyRegistered)
                (Some "https://h/s1.ts"%string)) as [_ [_ Hfound]].
    destruct (Hfound "https://h/s1.ts"%string v1Playlist eq_refl
                ltac:(vm_compute; reflexivity)) as [_ [Habs _]].
    exact Habs.
  - destruct (getChunkLocation_first_holder (E := exampleEnv) (managerAfter streamRegistered)
                (Some "https://h/zz.ts"%string)) as [_ [Habsent _]].
    destruct (Habsent "https://h/zz.ts"%string eq_refl ltac:(discriminate)
                ltac:(vm_compute; reflexivity)) as [_ Hnone].
    exact Hnone.
Defined.

Lemma loadChunk_batch_begins_with_request_example :
  exists rest,
    ChunkManager.effects
      (ChunkManager.loadChunk (E := exampleEnv) "https://h/t1.ts" None None 1
         (managerAfter firstSegmentPlayed))
    = [LoaderLoad
         (LoaderFile.new "https://h/t1.ts"
            (priorityBase
               (ChunkManager.playQueue
                  (ChunkManager.state
                     (ChunkManager.loadChunk (E := exampleEnv) "https://h/t1.ts" None None 1
                        (managerAfter firstSegmentPlayed)))))
            :: rest)
         (ChunkManager.getSwarmId (E := exampleEnv) (managerAfter firstSegmentPlayed)
            v2Playlist)
         (Some "https://h/t1.ts"%string)].
Proof.
  destruct (loadChunk_batch_begins_with_request (E := exampleEnv)
              (managerAfter firstSegmentPlayed) "https://h/t1.ts" None None 1 v2Playlist
              ltac:(vm_compute; reflexivity)) as [rest [Heff _]].
  exists rest. exact Heff.
Defined.

Lemma request_then_event_delivers_example :
  ChunkManager.onFileAbort (E := exampleEnv) "https://h/s0.ts" quiet
    (ChunkManager.state
       (ChunkManager.loadChunk (E := exampleEnv) "https://h/s0.ts"
          (Some 1%nat) (Some 2%nat) 1 (managerAfter streamRegistered)))
  = (Return tt,
     ChunkManager.set_chunk None
       (ChunkManager.state
          (ChunkManager.loadChunk (E := exampleEnv) "https://h/s0.ts"
             (Some 1%nat) (Some 2%nat) 1 (managerAfter streamRegistered))),
     [Invoke 2%nat (JsString "Loading aborted")]) /\
  ChunkManager.onFileAbort (E := exampleEnv) "https://h/s0.ts"
    {| calls := []; thrown := Some "cannot append"%string |}
    (ChunkManager.state
       (ChunkManager.loadChunk (E := exampleEnv) "https://h/s0.ts"
          (Some 1%nat) (Some 2%nat) 1 (managerAfter streamRegistered)))
  = (Throw "cannot append",
     ChunkManager.state
       (ChunkManager.loadChunk (E := exampleEnv) "https://h/s0.ts"
          (Some 1%nat) (Some 2%nat) 1 (managerAfter streamRegistered)),
     [Invoke 2%nat (JsString "Loading aborted")]) /\
  ChunkManager.chunk
    (ChunkManager.state
       (ChunkManager.onFileAbort (E := exampleEnv) "https://h/s0.ts"
          {| calls := [DoLoadChunk "https://h/s1.ts" (Some 3%nat) (Some 4%nat) 1];
             thrown := None |}
          (ChunkManager.state
             (ChunkManager.loadChunk (E := exampleEnv) "https://h/s0.ts"
                (Some 1%nat) (Some 2%nat) 1 (managerAfter streamRegistered)))))
  = None.
Proof.
  destruct (request_then_event_delivers (E := exampleEnv) (managerAfter streamRegistered)
              "https://h/s0.ts" (Some 1%nat) (Some 2%nat) 1 v1Playlist
              ltac:(vm_compute; reflexivity))
    as [[_ [_ Habort]] [_ [_ [Hquiet [Hreturns Hthrows]]]]].
  split; [|split].
  - rewrite Habort. apply Hquiet.
  - rewrite Habort.
    destruct (Hthrows 2%nat (JsString "Loading aborted")
                {| calls := []; thrown := Some "cannot append"%string |}
                "cannot append"%string
                (ChunkManager.state
                   (ChunkManager.loadChunk (E := exampleEnv) "https://h/s0.ts"
                      (Some 1%nat) (Some 2%nat) 1 (managerAfter streamRegistered)))
                eq_refl) as [_ [_ Hstays]].
    exact (Hstays eq_refl).
  - rewrite Habort.
    destruct (Hreturns (Some 2%nat) (JsString "Loading aborted")
                {| calls := [DoLoadChunk "https://h/s1.ts" (Some 3%nat) (Some 4%nat) 1];
                   thrown := None |}
                (ChunkManager.state
                   (ChunkManager.loadChunk (E := exampleEnv) "https://h/s0.ts"
                      (Some 1%nat) (Some 2%nat) 1 (managerAfter streamRegistered)))
                eq_refl) as [_ [Hcleared _]].
    exact Hcleared.
Defined.

Lemma superseded_request_is_ignored_example :
  ChunkManager.effects
    (ChunkManager.onFileLoaded (E := exampleEnv) (LoaderFile.new "https://h/s0.ts" 0)
       {| calls := []; thrown := Some "cannot append"%string |}
       (ChunkManager.state
          (ChunkManager.loadChunk (E := exampleEnv) "https://h/t1.ts" None None 1
             (managerAfter firstSegmentRequested))))
  = [].
Proof.
  destruct (superseded_request_is_ignored (E := exampleEnv)
              (managerAfter firstSegmentRequested) "https://h/t1.ts" None None 1
              v2Playlist "https://h/s0.ts"
              ltac:(vm_compute; reflexivity) ltac:(discriminate)) as [Hloaded _].
  rewrite (Hloaded (LoaderFile.new "https://h/s0.ts" 0)
             {| calls := []; thrown := Some "cannot append"%string |} eq_refl).
  reflexivity.
Defined.

Lemma unknown_chunk_retries_then_reports_example :
  log (run (E := exampleEnv)
         [CallLoadChunk "https://h/zz.ts" None (Some 4%nat) 2;
          TimerFires 0; TimerFires 0; TimerFires 0] initial)
  = [SetTimeout (RetryLoadChunk "https://h/zz.ts" None (Some 4%nat) 1) 500;
     SetTimeout (RetryLoadChunk "https://h/zz.ts" None (Some 4%nat) 0) 500;
     ConsoleError ChunkManager.notFoundMessage;
     SetTimeout (InvokeOnError 4%nat ChunkManager.notFoundMessage) 0;
     Invoke 4%nat (JsString ChunkManager.notFoundMessage)].
Proof.
  destruct (unknown_chunk_retries_then_reports (E := exampleEnv) 2 initial
              "https://h/zz.ts" None 4%nat eq_refl) as [_ [_ [Hlog _]]].
  exact Hlog.
Defined.

Lemma only_given_callbacks_are_invoked_example :
  invocations [7%nat] (log (run (E := exampleEnv) firstSegmentPlayed initial)) = 0%nat.
Proof.
  apply (only_given_callbacks_are_invoked (E := exampleEnv) firstSegmentPlayed 7%nat).
  simpl. intuition discriminate.
Defined.

Lemma active_request_is_last_requested_example :
  ChunkManager.prevLoadUrl (manager (run (E := exampleEnv) firstSegmentRequested initial))
  = Some "https://h/s0.ts"%string.
Proof.
  destruct (active_request_is_last_requested (E := exampleEnv) firstSegmentRequested)
    as [Hactive _].
  exact (Hactive (Chunk.new "https://h/s0.ts" (Some 1%nat) (Some 2%nat))
           ltac:(vm_compute; reflexivity)).
Defined.

Lemma consecutive_request_deepens_queue_example :
  ChunkManager.playQueue
    (ChunkManager.state
       (ChunkManager.loadChunk (E := exampleEnv) "https://h/s1.ts" None None 1
          (ChunkManager.state
             (ChunkManager.onFileLoaded (E := exampleEnv)
                (LoaderFile.new "https://h/s0.ts" 0)
                {| calls := []; thrown := Some "cannot append"%string |}
                (managerAfter firstSegmentRequested)))))
  = ChunkManager.playQueue (managerAfter firstSegmentRequested) ++ ["https://h/s0.ts"%string].
Proof.
  destruct (consecutive_request_deepens_queue (E := exampleEnv)
              (managerAfter firstSegmentRequested)
              (Chunk.new "https://h/s0.ts" (Some 1%nat) (Some 2%nat))
              (LoaderFile.new "https://h/s0.ts" 0)
              {| calls := []; thrown := Some "cannot append"%string |}
              "https://h/s1.ts" None None 1 v1Playlist v1Playlist 0
              ltac:(vm_compute; reflexivity) eq_refl eq_refl
              ltac:(vm_compute; reflexivity) ltac:(vm_compute; reflexivity))
    as [Hq _].
  exact Hq.
Defined.

Lemma media_playlist_keeps_swarm_ids_example :
  ChunkManager.getMasterPlaylist
    (ChunkManager.state
       (ChunkManager.processHlsPlaylist (E := exampleEnv) "https://h/v1.m3u8" "v1"
          (managerAfter [CallProcessHlsPlaylist "https://h/m.m3u8" "master"])))
  = ChunkManager.getMasterPlaylist
      (managerAfter [CallProcessHlsPlaylist "https://h/m.m3u8" "master"]).
Proof.
  destruct (media_playlist_keeps_swarm_ids (E := exampleEnv)
              (managerAfter [CallProcessHlsPlaylist "https://h/m.m3u8" "master"])
              "https://h/v1.m3u8" "v1" v1Playlist
              ltac:(vm_compute; reflexivity) eq_refl
              ltac:(intros old Hold; vm_compute in Hold; discriminate Hold))
    as [Hmaster _].
  exact Hmaster.
Defined.

Lemma loadHlsPlaylist_failure_drops_entry_example :
  Map_get
    (ChunkManager.playlists
       (ChunkManager.state
          (ChunkManager.loadHlsPlaylist (E := exampleEnv) "https://h/v1.m3u8" false
             (Throw "network") (managerAfter streamRegistered))))
    "https://h/v1.m3u8"
  = None.
Proof.
  destruct (loadHlsPlaylist_failure_drops_entry (E := exampleEnv)
              (managerAfter streamRegistered) "https://h/v1.m3u8" false (Throw "network")
              ltac:(intros content Hc; discriminate Hc))
    as [_ [_ [Hgone _]]].
  exact Hgone.
Defined.

Lemma loadHlsPlaylist_registers_and_fetches_children_example :
  ChunkManager.outcome
    (ChunkManager.loadHlsPlaylist (E := exampleEnv) "https://h/m.m3u8" true
       (Return "master"%string) ChunkManager.new)
  = Return ("master"%string, ["https://h/v1.m3u8"%string; "https://h/v2.m3u8"%string]).
Proof.
  destruct (loadHlsPlaylist_registers_and_fetches_children (E := exampleEnv)
              ChunkManager.new "https://h/m.m3u8" "master" true masterPlaylist
              ltac:(vm_compute; reflexivity)) as [Hrun _].
  rewrite Hrun. reflexivity.
Defined.
